(** * rag-mcp-server: crawl engine and retrieval pipeline

    A shallow embedding of the TypeScript services
    [FirecrawlService], [RedisCacheService], [EmbeddingService],
    [OpenAIEmbeddingService], [DatabaseService] and of [RagAgent], with the
    properties of the specification stated and proved over it.

    Conventions.
    - A JavaScript [number] that holds a count, a depth or an id is a [Z];
      a similarity score is an IEEE 754 binary64 value, Rocq's primitive
      [float].
    - [undefined] and [null] are [None].
    - What lies outside the process (the HTTP network, the WHATWG URL
      parser, Redis, the embedding model, the OpenAI API, PostgreSQL
      constraints) is a parameter of the development: the theorems hold for
      every behaviour of those parts.
    - A function that can throw returns a [Result]; a function that reads or
      writes the services' fields passes the state explicitly. *)

From Stdlib Require Import Ascii Floats DecimalString DecimalZ DecimalPos.
From stdpp Require Import gmap strings list.

Local Open Scope Z_scope.

(** ** JavaScript primitives used by the services *)

Module JS.

(** [s.includes(p)] *)
Fixpoint includes (s p : string) : bool :=
  String.prefix p s ||
  match s with
  | EmptyString => false
  | String _ s' => includes s' p
  end.

(** [parts.join(sep)] *)
Fixpoint join (sep : string) (parts : list string) : string :=
  match parts with
  | [] => ""
  | [p] => p
  | p :: rest => p +:+ sep +:+ join sep rest
  end.

(** [n.toString()] for an integer [n] (below 1e21 in absolute value, where
    JavaScript prints all the digits). *)
Definition toString (n : Z) : string := NilZero.string_of_int (Z.to_int n).

(** A string is held as the bytes of its UTF-8 encoding.

    The white space that [String.prototype.trim] strips and [\s] matches is
    [WhiteSpace] and [LineTerminator]: U+0009 to U+000D and U+0020, of one
    byte each; U+00A0, of two bytes; U+1680, U+2000 to U+200A, U+2028,
    U+2029, U+202F, U+205F, U+3000 and U+FEFF, of three bytes. *)
Definition isWhiteSpace (c : ascii) : bool :=
  let n := nat_of_ascii c in
  ((9 <=? n) && (n <=? 13))%nat || (n =? 32)%nat.

Definition isWhiteSpace2 (c1 c2 : ascii) : bool :=
  ((nat_of_ascii c1 =? 194) && (nat_of_ascii c2 =? 160))%nat.

Definition isWhiteSpace3 (c1 c2 c3 : ascii) : bool :=
  let n1 := nat_of_ascii c1 in
  let n2 := nat_of_ascii c2 in
  let n3 := nat_of_ascii c3 in
  (((n1 =? 225) && (n2 =? 154) && (n3 =? 128))
   || ((n1 =? 226) && (n2 =? 128)
       && (((128 <=? n3) && (n3 <=? 138)) || (n3 =? 168) || (n3 =? 169) || (n3 =? 175)))
   || ((n1 =? 226) && (n2 =? 129) && (n3 =? 159))
   || ((n1 =? 227) && (n2 =? 128) && (n3 =? 128))
   || ((n1 =? 239) && (n2 =? 187) && (n3 =? 191)))%nat.

(** [s.trim().length === 0]: the string is made of white space only. *)
Fixpoint trimIsEmpty (s : string) : bool :=
  match s with
  | EmptyString => true
  | String c1 s1 =>
      if isWhiteSpace c1 then trimIsEmpty s1
      else
        match s1 with
        | EmptyString => false
        | String c2 s2 =>
            if isWhiteSpace2 c1 c2 then trimIsEmpty s2
            else
              match s2 with
              | EmptyString => false
              | String c3 s3 => isWhiteSpace3 c1 c2 c3 && trimIsEmpty s3
              end
        end
  end.

(** Truthiness of a string: only [""] is falsy. *)
Definition truthy (s : string) : bool :=
  match s with EmptyString => false | _ => true end.

(** Truthiness of an optional string ([undefined], [null] and [""] are
    falsy). *)
Definition truthy_opt (s : option string) : bool :=
  match s with Some s => truthy s | None => false end.

(** [[...new Set(l)]]: the distinct elements, each at its first
    occurrence. *)
Fixpoint uniqueFrom (seen : gset string) (l : list string) : list string :=
  match l with
  | [] => []
  | x :: l' =>
      if decide (x ∈ seen) then uniqueFrom seen l'
      else x :: uniqueFrom ({[x]} ∪ seen) l'
  end.

Definition unique (l : list string) : list string := uniqueFrom ∅ l.

End JS.

(** ** Errors

    The services throw [Error] objects that differ in their message, and the
    URL constructor throws a [TypeError]. *)

Inductive Error : Type :=
  | TextEmpty                 (* 'Text cannot be empty' *)
  | TextsEmpty                (* 'Texts array cannot be empty' *)
  | EmbeddingInitFailed       (* 'Embedding service initialization failed: ...' *)
  | EmbeddingFailed           (* 'Failed to generate embedding(s): ...' *)
  | InvalidURL                (* TypeError of [new URL(url)] *)
  | UndefinedEmbedding        (* TypeError of [embeddings[index]!.embedding] *)
  | StoreError                (* an error of the PostgreSQL client *)
  | QueryFailed (cause : Error). (* 'RAG query failed: ' + cause *)

Inductive Result (A : Type) : Type :=
  | Ok (a : A)
  | Throw (e : Error).
Arguments Ok {A} a.
Arguments Throw {A} e.

(** ** FirecrawlService

    A call of [crawlWebsite] is followed here from its entry to its return
    as the only call in flight on the service: [this.visitedUrls] is then
    read and written by this call alone, and is carried in the state of
    its loop. Calls that overlap on the one service object are the subject
    of [Overlap] below. *)

Module Firecrawl.

Record PageMetadata := mkPageMetadata {
  description : option string;
  keywords : option (list string);
  author : option string;
  publishedDate : option string
}.

Record ScrapedPage := mkScrapedPage {
  url : string;
  title : string;
  content : string;
  metadata : PageMetadata;
  links : list string
}.

Record ScrapeOptions := mkScrapeOptions {
  maxDepth : option Z;
  maxPages : option Z;
  includePaths : option (list string);
  excludePaths : option (list string)
}.

(** [options = {}] *)
Definition noOptions : ScrapeOptions := mkScrapeOptions None None None None.

(** An entry of the work queue, [{ url, depth }]. *)
Record CrawlTask := mkTask { t_url : string; t_depth : Z }.

(** The service object: its one mutable field. *)
Record FirecrawlService := mkService { visitedUrls : gset string }.

(** What the HTTP response of a page yields once cheerio has extracted it:
    the fields of the page and the [href]s resolved against the page's
    URL, in document order. *)
Record Extracted := mkExtracted {
  e_title : string;
  e_content : string;
  e_metadata : PageMetadata;
  e_hrefs : list string
}.

(** A call of [scrapePage], recorded with the task that was dequeued for
    it and with what the call returned. *)
Definition Fetch : Type := CrawlTask * option ScrapedPage.

(** The local variables of [crawlWebsite] together with [this.visitedUrls];
    [fetches] is a ghost field, the calls of [scrapePage] so far. *)
Record LoopState := mkLoop {
  visited : gset string;
  results : list ScrapedPage;
  queue : list CrawlTask;
  fetches : list Fetch
}.

(** One evaluation of the loop condition followed, when it holds, by one
    execution of the loop body. *)
Inductive Step :=
  | Continue (s : LoopState)
  | Exit (s : LoopState)
  | Raise (e : Error) (s : LoopState).

(** A finished call of [crawlWebsite]. *)
Record Run := mkRun {
  outcome : Result (list ScrapedPage);
  engine : FirecrawlService;
  trace : list Fetch
}.

Section Engine.

(** [axios.get(url)] followed by the extraction; [None] when anything
    in the [try] block of [scrapePage] throws. *)
Variable http : string -> option Extracted.

(** [new URL(s).hostname]; [None] when the constructor throws. *)
Variable hostname : string -> option string.

Definition scrapePage (u : string) : option ScrapedPage :=
  match http u with
  | Some e =>
      Some (mkScrapedPage u (e_title e) (e_content e) (e_metadata e)
              (JS.unique (e_hrefs e)))
  | None => None
  end.

(** The links of a page that the loop pushes on the queue: those that
    parse and whose hostname is [base]. *)
Definition sameDomain (base : string) (link : string) : bool :=
  match hostname link with
  | Some h => bool_decide (h = base)
  | None => false
  end.

Definition children (base : string) (depth : Z) (page : ScrapedPage)
  : list CrawlTask :=
  map (fun link => mkTask link (depth + 1))
      (filter (fun link => sameDomain base link = true) (links page)).

Definition loopStep (maxDepth maxPages : Z) (includePaths excludePaths : list string)
  (s : LoopState) : Step :=
  match queue s with
  | [] => Exit s
  | t :: rest =>
      if negb (Z.of_nat (length (results s)) <? maxPages) then Exit s
      else
        (* [continue]: the task is dropped, nothing else changes *)
        let skip := Continue (mkLoop (visited s) (results s) rest (fetches s)) in
        if decide (t_url t ∈ visited s) then skip
        else if maxDepth <? t_depth t then skip
        else if existsb (fun path => JS.includes (t_url t) path) excludePaths
        then skip
        else if (0 <? Z.of_nat (length includePaths))
                && negb (existsb (fun path => JS.includes (t_url t) path) includePaths)
        then skip
        else
          let visited' := {[t_url t]} ∪ visited s in
          match scrapePage (t_url t) with
          | None =>
              Continue (mkLoop visited' (results s) rest
                          (fetches s ++ [(t, None)]))
          | Some page =>
              let results' := results s ++ [page] in
              let fetches' := fetches s ++ [(t, Some page)] in
              if t_depth t <? maxDepth then
                match hostname (t_url t) with
                | None => Raise InvalidURL (mkLoop visited' results' rest fetches')
                | Some base =>
                    Continue (mkLoop visited' results'
                                (rest ++ children base (t_depth t) page) fetches')
                end
              else Continue (mkLoop visited' results' rest fetches')
          end
  end.

Definition finish (o : Result (list ScrapedPage)) (s : LoopState) : Run :=
  mkRun o (mkService (visited s)) (fetches s).

(** The [while] loop; [None] when [fuel] iterations were not enough. *)
Fixpoint crawlLoop (fuel : nat) (maxDepth maxPages : Z)
  (includePaths excludePaths : list string) (s : LoopState) : option Run :=
  match fuel with
  | O => None
  | S fuel' =>
      match loopStep maxDepth maxPages includePaths excludePaths s with
      | Continue s' => crawlLoop fuel' maxDepth maxPages includePaths excludePaths s'
      | Exit s' => Some (finish (Ok (results s')) s')
      | Raise e s' => Some (finish (Throw e) s')
      end
  end.

Definition maxDepthOf (o : ScrapeOptions) : Z := default 2 (maxDepth o).
Definition maxPagesOf (o : ScrapeOptions) : Z := default 50 (maxPages o).
Definition includePathsOf (o : ScrapeOptions) : list string := default [] (includePaths o).
Definition excludePathsOf (o : ScrapeOptions) : list string := default [] (excludePaths o).

(** The state in which [crawlWebsite] enters its loop:
    [this.visitedUrls.clear()], [results = []], [queue = [{startUrl, 0}]]. *)
Definition initial (this : FirecrawlService) (startUrl : string) : LoopState :=
  mkLoop ∅ [] [mkTask startUrl 0] [].

Definition crawlWebsite (fuel : nat) (this : FirecrawlService)
  (startUrl : string) (options : ScrapeOptions) : option Run :=
  crawlLoop fuel (maxDepthOf options) (maxPagesOf options)
    (includePathsOf options) (excludePathsOf options) (initial this startUrl).

(** The state that a step leaves. *)
Definition stateOf (st : Step) : LoopState :=
  match st with
  | Continue s | Exit s | Raise _ s => s
  end.

(** *** The invariant of the crawl loop *)

(** The URLs that were passed to [scrapePage], in order. *)
Definition fetchedUrls (fs : list Fetch) : list string :=
  map (fun f => t_url (fst f)) fs.

(** What holds before and after every iteration of a crawl of [seed]: the
    budget of pages is respected; the results are the successful fetches;
    the visited set is the set of fetched URLs, none fetched twice; every
    queued task and every fetch has the hostname of the seed; every fetch
    was made within the depth limit and recorded what [scrapePage] gave. *)
Record Inv (seed : string) (maxD maxP : Z) (s : LoopState) : Prop := mkInv {
  inv_pages : 0 <= maxP -> Z.of_nat (length (results s)) <= maxP;
  inv_results : results s = omap snd (fetches s);
  inv_visited : visited s = list_to_set (fetchedUrls (fetches s));
  inv_nodup : NoDup (fetchedUrls (fetches s));
  inv_queue :
    Forall (fun t => hostname (t_url t) = hostname seed /\ 0 <= t_depth t) (queue s);
  inv_fetches :
    Forall (fun f => hostname (t_url (fst f)) = hostname seed /\
                     0 <= t_depth (fst f) <= maxD /\
                     snd f = scrapePage (t_url (fst f))) (fetches s)
}.

End Engine.

End Firecrawl.

(** ** A small web, for concrete runs of the crawl engine *)

Module Web.
Import Firecrawl.

Fixpoint upToSlash (s : string) : string :=
  match s with
  | EmptyString => EmptyString
  | String c s' => if Ascii.eqb c "/" then EmptyString else String c (upToSlash s')
  end.

Definition afterPrefix (p s : string) : option string :=
  if String.prefix p s
  then Some (String.substring (String.length p) (String.length s - String.length p) s)
  else None.

Definition hostOf (rest : string) : option string :=
  match upToSlash rest with
  | EmptyString => None
  | h => Some h
  end.

(** The hostname of an absolute [http] or [https] URL without port, user
    or query, as [new URL(u).hostname] gives it; every other string is
    rejected. This is the part of the URL parser the runs below need. *)
Definition hostname (u : string) : option string :=
  match afterPrefix "https://" u with
  | Some rest => hostOf rest
  | None =>
      match afterPrefix "http://" u with
      | Some rest => hostOf rest
      | None => None
      end
  end.

Definition noMetadata : PageMetadata := mkPageMetadata None None None None.

Definition A : string := "https://example.test/".
Definition B : string := "https://example.test/b".
Definition C : string := "https://other.test/c".

(** Page A links to B (same host) and to C (another host); B links back
    to A; C is reachable but on another host; nothing else answers. *)
Definition http (u : string) : option Extracted :=
  if String.eqb u A then Some (mkExtracted "A" "page a" noMetadata [B; C; B])
  else if String.eqb u B then Some (mkExtracted "B" "page b" noMetadata [A])
  else if String.eqb u C then Some (mkExtracted "C" "page c" noMetadata [])
  else None.

Definition budget (d p : Z) : ScrapeOptions :=
  mkScrapeOptions (Some d) (Some p) None None.

Definition idle : FirecrawlService := mkService ∅.

Definition pageA : ScrapedPage := mkScrapedPage A "A" "page a" noMetadata [B; C].
Definition pageB : ScrapedPage := mkScrapedPage B "B" "page b" noMetadata [A].

(** The finished crawl of seed A with [maxDepth = 1] and [maxPages = 10]
    (scenario A of the specification): the pages, the engine it leaves and
    the calls of [scrapePage] it made. *)
Definition runA : Run :=
  mkRun (Ok [pageA; pageB]) (mkService {[A; B]})
    [(mkTask A 0, Some pageA); (mkTask B 1, Some pageB)].

(** A seed that the URL parser rejects and that cannot be fetched. *)
Definition malformed : string := "not a url".

(** The finished crawl of that seed with the default options. *)
Definition runMalformed : Run :=
  mkRun (Ok []) (mkService {[malformed]}) [(mkTask malformed 0, None)].

End Web.

(** ** Data of the retrieval pipeline *)

(** A value of a metadata object ([Record<string, any>]), as far as the
    services produce one. *)
Inductive Json : Type :=
  | JUndefined
  | JString (s : string)
  | JStrings (l : list string).

Definition Metadata : Type := list (string * Json).

Definition Embedding : Type := list float.

(** [EmbeddingResult]; the [model] field is a constant of the provider. *)
Record EmbeddingResult := mkEmbeddingResult {
  embedding : Embedding;
  dimensions : Z
}.

Definition embeddingResult (e : Embedding) : EmbeddingResult :=
  mkEmbeddingResult e (Z.of_nat (length e)).

(** ** RedisCacheService.generateKey *)

Module RedisCache.

(** [`rag:${prefix}:${parts.join(':')}`] *)
Definition generateKey (prefix : string) (parts : list string) : string :=
  "rag:" +:+ prefix +:+ ":" +:+ JS.join ":" parts.

End RedisCache.

(** ** DatabaseService: the two tables and their id sequence *)

Module Database.

(** A row of [rag.documents]. *)
Record Document := mkDocument {
  id : Z;
  content : string;
  metadata : Metadata;
  source : option string;
  title : option Json
}.

(** [rag.documents] by primary key, [rag.embeddings] as
    [(document_id, embedding)] rows in insertion order, and the sequence
    behind [rag.documents.id]. *)
Record Tables := mkTables {
  documents : gmap Z Document;
  embeddings : list (Z * Embedding);
  documents_id_seq : Z
}.

Record SimilarityResult := mkSimilarityResult {
  r_id : Z;
  r_content : string;
  r_metadata : option Metadata;
  r_source : option string;
  similarity : float;
  distance : float
}.

(** An element of the argument of [batchInsertDocuments]. *)
Record NewDocument := mkNewDocument {
  n_content : string;
  n_embedding : Embedding;
  n_metadata : option Metadata;
  n_source : option string
}.

(** [metadata?.['title'] || null] *)
Definition titleOf (m : option Metadata) : option Json :=
  match m with
  | Some kvs =>
      match list_find (fun kv => fst kv = "title"%string) kvs with
      | Some (_, (_, JString s)) => if JS.truthy s then Some (JString s) else None
      | Some (_, (_, JStrings l)) => Some (JStrings l)
      | _ => None
      end
  | None => None
  end.

(** The row that the first [INSERT] of a document writes under [i]. *)
Definition rowOf (i : Z) (d : NewDocument) : Document :=
  mkDocument i (n_content d) (default [] (n_metadata d)) (n_source d)
    (titleOf (n_metadata d)).

(** Nothing is stored at or above the next value of the sequence. *)
Definition fresh (t : Tables) : Prop :=
  forall i, documents_id_seq t <= i -> documents t !! i = None.

(** The values that the [integer] columns [id] and [document_id] hold,
    the values that the sequence behind [id] gives. *)
Definition int4 (i : Z) : bool := (-2147483648 <=? i) && (i <=? 2147483647).

(** The sequence can give [n] more ids. *)
Definition room (t : Tables) (n : nat) : Prop :=
  -2147483648 <= documents_id_seq t /\
  documents_id_seq t + Z.of_nat n <= 2147483648.

Section Store.

(** Whether PostgreSQL accepts the two [INSERT]s of a document (column
    types and lengths, the dimension of the vector). *)
Variable accepts : NewDocument -> bool.

(** Whether the [INSERT]s of a document that PostgreSQL rejects have drawn
    the id before they fail (a statement that is rejected while its
    parameters are read has not called [nextval]). *)
Variable drawsId : NewDocument -> bool.

(** The body of the loop of [batchInsertDocuments] for one document. An
    exhausted sequence makes [nextval] fail. A rejected document leaves
    the sequence advanced if its id was drawn. The rows are written when
    the statements succeed, which also needs the key to be unused. *)
Definition insertOne (t : Tables) (d : NewDocument) : option Z * Tables :=
  let i := documents_id_seq t in
  if negb (int4 i) then (None, t)
  else if negb (accepts d)
  then (None, mkTables (documents t) (embeddings t) (if drawsId d then i + 1 else i))
  else if bool_decide (documents t !! i = None)
  then (Some i,
        mkTables (<[i := rowOf i d]> (documents t))
                 (embeddings t ++ [(i, n_embedding d)]) (i + 1))
  else (None, mkTables (documents t) (embeddings t) (i + 1)).

(** The [for] loop inside the transaction; [None] when a statement
    threw. *)
Fixpoint insertAll (t : Tables) (ds : list NewDocument) (documentIds : list Z)
  : option (list Z) * Tables :=
  match ds with
  | [] => (Some documentIds, t)
  | d :: ds' =>
      match insertOne t d with
      | (Some i, t') => insertAll t' ds' (documentIds ++ [i])
      | (None, t') => (None, t')
      end
  end.

(** [BEGIN], the loop, then [COMMIT], or [ROLLBACK] and rethrow. A
    rollback restores the tables; a sequence is not transactional. *)
Definition transaction (t : Tables) (ds : list NewDocument) : Result (list Z) * Tables :=
  match insertAll t ds [] with
  | (Some ids, t') => (Ok ids, t')
  | (None, t') =>
      (Throw StoreError, mkTables (documents t) (embeddings t) (documents_id_seq t'))
  end.

End Store.

End Database.

(** ** The process: its services' fields and the outside world *)

Inductive Provider : Type := ProviderLocal | ProviderOpenAI.

(** An interaction with something outside the process. *)
Inductive IO : Type :=
  | RedisConnect
  | RedisGet (key : string)
  | RedisSetEx (key : string)
  | ModelLoad
  | ModelCall (text : string)
  | OpenAICall (input : list string)
  | DbSchema
  | DbSearch (limit : Z)
  | DbInsert (rows : nat)
  | HttpGet (url : string).

Module Rag.

Export Database.

Record RagQueryOptions := mkOptions {
  topK : option Z;
  similarityThreshold : option float;
  includeMetadata : option bool
}.

Record QueryMetadata := mkQueryMetadata {
  totalResults : Z;
  averageSimilarity : float;
  queryEmbeddingDimensions : Z
}.

Record RagQueryResult := mkResult {
  q_query : string;
  q_results : list SimilarityResult;
  q_context : string;
  q_citations : list string;
  q_metadata : QueryMetadata
}.

Record DocumentInput := mkInput {
  d_content : string;
  d_metadata : option Metadata;
  d_source : option string
}.

(** The behaviour of what the process talks to. *)
Record Env := mkEnv {
  (* process.env *)
  EMBEDDING_PROVIDER : Provider;
  SIMILARITY_SEARCH_K : Z;      (* parseInt(SIMILARITY_SEARCH_K || '5') *)
  MAX_BATCH_SIZE : positive;    (* parseInt(MAX_BATCH_SIZE || '100'), a positive integer *)
  (* Redis *)
  redisReachable : bool;        (* [client.connect()] resolves *)
  redisAnswers : bool;          (* commands on a connected client resolve *)
  (* the local model *)
  modelLoads : bool;            (* [pipeline('feature-extraction', ...)] resolves *)
  model : string -> option Embedding;
  (* the OpenAI API: [embeddings.create], the [data] of the response *)
  openai : list string -> option (list Embedding);
  (* PostgreSQL *)
  dbConnects : bool;            (* [getConnection()] resolves *)
  schemaApplies : bool;         (* the DDL of [initializeSchema] succeeds *)
  accepts : NewDocument -> bool;
  drawsId : NewDocument -> bool;
  nearest : Tables -> Embedding -> Z -> float -> option (list SimilarityResult);
  (* the web *)
  http : string -> option Firecrawl.Extracted;
  hostname : string -> option string
}.

(** The mutable fields of the singletons, and the interactions so far
    (a ghost field). A query result stands for its JSON text, which is what
    Redis stores and what the server sends to its client: the cache holds
    results, and [JSON.parse (JSON.stringify r)] is [r]. Entries leave the
    cache only as time passes, which a single call does not see. *)
Record World := mkWorld {
  agentInitialized : bool;            (* RagAgent.isInitialized *)
  redisConnected : bool;              (* RedisCacheService.isConnected *)
  redisStore : gmap string RagQueryResult;
  embeddingInitialized : bool;        (* EmbeddingService.isInitialized *)
  tables : Tables;
  crawler : Firecrawl.FirecrawlService;
  io : list IO
}.

(** *** Computations that read and write the world and may throw *)

Definition M (A : Type) : Type := World -> Result A * World.

Definition ret {A} (a : A) : M A := fun w => (Ok a, w).
Definition throw {A} (e : Error) : M A := fun w => (Throw e, w).
Definition bind {A B} (m : M A) (k : A -> M B) : M B :=
  fun w => match m w with
           | (Ok a, w') => k a w'
           | (Throw e, w') => (Throw e, w')
           end.
Definition tryCatch {A} (m : M A) (handler : Error -> M A) : M A :=
  fun w => match m w with
           | (Ok a, w') => (Ok a, w')
           | (Throw e, w') => handler e w'
           end.
Definition gets {A} (f : World -> A) : M A := fun w => (Ok (f w), w).
Definition modify (f : World -> World) : M unit := fun w => (Ok tt, f w).

Notation "x <- m ;; k" := (bind m (fun x => k))
  (at level 100, m at next level, right associativity).
Notation "m ;;; k" := (bind m (fun _ => k))
  (at level 100, right associativity).

Definition emit (ev : IO) : M unit :=
  modify (fun w => mkWorld (agentInitialized w) (redisConnected w) (redisStore w)
                     (embeddingInitialized w) (tables w) (crawler w) (io w ++ [ev])).
Definition setAgentInitialized (b : bool) : M unit :=
  modify (fun w => mkWorld b (redisConnected w) (redisStore w)
                     (embeddingInitialized w) (tables w) (crawler w) (io w)).
Definition setRedisConnected (b : bool) : M unit :=
  modify (fun w => mkWorld (agentInitialized w) b (redisStore w)
                     (embeddingInitialized w) (tables w) (crawler w) (io w)).
Definition setRedisStore (s : gmap string RagQueryResult) : M unit :=
  modify (fun w => mkWorld (agentInitialized w) (redisConnected w) s
                     (embeddingInitialized w) (tables w) (crawler w) (io w)).
Definition setEmbeddingInitialized (b : bool) : M unit :=
  modify (fun w => mkWorld (agentInitialized w) (redisConnected w) (redisStore w)
                     b (tables w) (crawler w) (io w)).
Definition setTables (t : Tables) : M unit :=
  modify (fun w => mkWorld (agentInitialized w) (redisConnected w) (redisStore w)
                     (embeddingInitialized w) t (crawler w) (io w)).
Definition setCrawler (c : Firecrawl.FirecrawlService) : M unit :=
  modify (fun w => mkWorld (agentInitialized w) (redisConnected w) (redisStore w)
                     (embeddingInitialized w) (tables w) c (io w)).

(** [if (!flag) { await action }] *)
Definition unless (flag : bool) (action : M unit) : M unit :=
  if flag then ret tt else action.

(** *** Promise.all *)

(** The promises are started one after the other, each up to its end (a
    rejected promise does not stop the others from being started). *)
Fixpoint startAll {A} (ps : list (M A)) : World -> list (Result A) * World :=
  fun w =>
    match ps with
    | [] => ([], w)
    | p :: ps' =>
        let (r, w') := p w in
        let (rs, w'') := startAll ps' w' in
        (r :: rs, w'')
    end.

Definition rejection {A} (r : Result A) : option Error :=
  match r with Ok _ => None | Throw e => Some e end.
Definition fulfilment {A} (r : Result A) : option A :=
  match r with Ok a => Some a | Throw _ => None end.
Definition isTextEmpty (e : Error) : bool :=
  match e with TextEmpty => true | _ => false end.

(** [Promise.all] rejects with the first rejection in time. A promise that
    rejects for an empty text does so before it awaits anything, so it
    comes before every rejection of the model; among the others the first
    in array order is taken. *)
Definition promiseAll {A} (ps : list (M A)) : M (list A) :=
  fun w =>
    let (rs, w') := startAll ps w in
    match omap rejection rs with
    | [] => (Ok (omap fulfilment rs), w')
    | e :: es => (Throw (if existsb isTextEmpty (e :: es) then TextEmpty else e), w')
    end.

(** [texts.slice(i, j)] for [0 <= i <= j] *)
Definition slice {A} (i j : nat) (l : list A) : list A := take (j - i) (drop i l).

(** [for (let i = 0; i < texts.length; i += size) { results.push(...await
    process(texts.slice(i, i + size))) }]. With [size > 0] the loop makes at
    most [texts.length] iterations, the fuel its callers give it. *)
Fixpoint forBatches {A} (fuel : nat) (size : nat) (texts : list string) (i : nat)
  (results : list A) (process : list string -> M (list A)) : M (list A) :=
  if (i <? length texts)%nat then
    match fuel with
    | O => ret results
    | S fuel' =>
        batchResults <- process (slice i (i + size) texts) ;;
        forBatches fuel' size texts (i + size) (results ++ batchResults) process
    end
  else ret results.

Section Services.

Variable E : Env.

(** *** RedisCacheService *)

Definition redisConnect : M unit :=
  connected <- gets redisConnected ;;
  if connected : bool then ret tt
  else emit RedisConnect ;;; setRedisConnected (redisReachable E).

Definition redisGet (key : string) : M (option RagQueryResult) :=
  connected <- gets redisConnected ;;
  if negb connected then ret None
  else
    emit (RedisGet key) ;;;
    if redisAnswers E
    then store <- gets redisStore ;; ret (store !! key)
    else ret None.

Definition redisSet (key : string) (value : RagQueryResult) : M unit :=
  connected <- gets redisConnected ;;
  if negb connected then ret tt
  else
    emit (RedisSetEx key) ;;;
    if redisAnswers E
    then store <- gets redisStore ;; setRedisStore (<[key := value]> store)
    else ret tt.

(** *** OpenAIEmbeddingService *)

Definition maxBatchSize : nat := 2048.

Definition openaiGenerateEmbedding (text : string) : M EmbeddingResult :=
  emit (OpenAICall [text]) ;;;
  match openai E [text] with
  | Some (e :: _) => ret (embeddingResult e)
  | _ => throw EmbeddingFailed
  end.

Definition processBatch (texts : list string) : M (list EmbeddingResult) :=
  emit (OpenAICall texts) ;;;
  match openai E texts with
  | Some data => ret (map embeddingResult data)
  | None => throw EmbeddingFailed
  end.

Definition openaiGenerateEmbeddings (texts : list string) : M (list EmbeddingResult) :=
  if (length texts =? 0)%nat then ret []
  else if (length texts <=? maxBatchSize)%nat then processBatch texts
  else forBatches (length texts) maxBatchSize texts 0 [] processBatch.

(** *** EmbeddingService *)

Definition embeddingInitialize : M unit :=
  match EMBEDDING_PROVIDER E with
  | ProviderOpenAI => setEmbeddingInitialized true
  | ProviderLocal =>
      initialized <- gets embeddingInitialized ;;
      if initialized : bool then ret tt
      else
        emit ModelLoad ;;;
        if modelLoads E then setEmbeddingInitialized true
        else throw EmbeddingInitFailed
  end.

Definition generateEmbedding (text : string) : M EmbeddingResult :=
  if negb (JS.truthy text) || JS.trimIsEmpty text then throw TextEmpty
  else
    match EMBEDDING_PROVIDER E with
    | ProviderOpenAI => openaiGenerateEmbedding text
    | ProviderLocal =>
        initialized <- gets embeddingInitialized ;;
        unless initialized embeddingInitialize ;;;
        emit (ModelCall text) ;;;
        match model E text with
        | Some e => ret (embeddingResult e)
        | None => throw EmbeddingFailed
        end
    end.

Definition generateEmbeddings (texts : list string) : M (list EmbeddingResult) :=
  if (length texts =? 0)%nat then throw TextsEmpty
  else
    match EMBEDDING_PROVIDER E with
    | ProviderOpenAI => openaiGenerateEmbeddings texts
    | ProviderLocal =>
        initialized <- gets embeddingInitialized ;;
        unless initialized embeddingInitialize ;;;
        forBatches (length texts) (Pos.to_nat (MAX_BATCH_SIZE E)) texts 0 []
          (fun batch => promiseAll (map generateEmbedding batch))
    end.

(** *** DatabaseService *)

Definition initializeSchema : M unit :=
  emit DbSchema ;;;
  if dbConnects E && schemaApplies E then ret tt else throw StoreError.

Definition batchInsertDocuments (documents : list NewDocument) : M (list Z) :=
  emit (DbInsert (length documents)) ;;;
  if negb (dbConnects E) then throw StoreError
  else
    t <- gets tables ;;
    let (r, t') := transaction (accepts E) (drawsId E) t documents in
    setTables t' ;;;
    match r with
    | Ok documentIds => ret documentIds
    | Throw e => throw e
    end.

Definition insertDocument (d : NewDocument) : M Z :=
  documentIds <- batchInsertDocuments [d] ;;
  match documentIds with
  | documentId :: _ => ret documentId
  | [] => throw StoreError
  end.

Definition searchSimilar (queryEmbedding : Embedding) (limit : Z) (threshold : float)
  : M (list SimilarityResult) :=
  emit (DbSearch limit) ;;;
  if negb (dbConnects E) then throw StoreError
  else
    t <- gets tables ;;
    match nearest E t queryEmbedding limit threshold with
    | Some rows => ret rows
    | None => throw StoreError
    end.

End Services.

(** *** RagAgent: the pure helpers *)

Definition blankLine : string := String "010" (String "010" EmptyString).

(** [`[${index + 1}] ${result.content}${source}`] *)
Definition formatResult (index : nat) (result : SimilarityResult) : string :=
  let source :=
    match r_source result with
    | Some s => if JS.truthy s then " [Source: " +:+ s +:+ "]" else ""
    | None => ""
    end%string in
  "[" +:+ JS.toString (Z.of_nat index + 1) +:+ "] " +:+ r_content result +:+ source.

Definition buildContext (results : list SimilarityResult) : string :=
  if (length results =? 0)%nat then "No relevant context found."
  else JS.join blankLine (imap formatResult results).

(** [self.indexOf(value)] *)
Definition indexOf (self : list string) (value : string) : option nat :=
  fst <$> list_find (fun x => x = value) self.

Definition extractCitations (results : list SimilarityResult) : list string :=
  let sources :=
    omap (fun r => match r_source r with
                   | Some s => if JS.truthy s then Some s else None
                   | None => None
                   end) results in
  omap (fun iv => if bool_decide (indexOf sources (snd iv) = Some (fst iv))
                  then Some (snd iv) else None)
       (imap (fun index value => (index, value)) sources).

(** [results.length] as a number *)
Definition lengthNumber {A} (l : list A) : float :=
  PrimFloat.of_uint63 (Uint63.of_Z (Z.of_nat (length l))).

(** [results.length > 0
      ? results.reduce((sum, r) => sum + r.similarity, 0) / results.length
      : 0] *)
Definition averageSimilarityOf (results : list SimilarityResult) : float :=
  if (0 <? length results)%nat
  then (fold_left (fun sum r => sum + similarity r) results 0 / lengthNumber results)%float
  else 0%float.

(** [{ ...r, metadata: undefined }] *)
Definition withoutMetadata (r : SimilarityResult) : SimilarityResult :=
  mkSimilarityResult (r_id r) (r_content r) None (r_source r) (similarity r) (distance r).

(** [FirecrawlService.pagesToDocuments] *)
Definition optString (o : option string) : Json :=
  match o with Some s => JString s | None => JUndefined end.

Definition pagesToDocuments (pages : list Firecrawl.ScrapedPage) : list DocumentInput :=
  map (fun page =>
         let m := Firecrawl.metadata page in
         mkInput
           (Firecrawl.title page +:+ blankLine +:+ Firecrawl.content page)
           (Some [("title", JString (Firecrawl.title page));
                  ("url", JString (Firecrawl.url page));
                  ("description", optString (Firecrawl.description m));
                  ("keywords", match Firecrawl.keywords m with
                               | Some l => JStrings l
                               | None => JUndefined
                               end);
                  ("author", optString (Firecrawl.author m));
                  ("publishedDate", optString (Firecrawl.publishedDate m))]%string)
           (Some (Firecrawl.url page)))
      pages.

(** [documents.map((doc, index) => ({ ..., embedding:
    embeddings[index]!.embedding, ... }))]; reading [.embedding] of
    [undefined] throws. *)
Fixpoint withEmbeddings (documents : list DocumentInput) (index : nat)
  (embeddings : list EmbeddingResult) : Result (list NewDocument) :=
  match documents with
  | [] => Ok []
  | doc :: rest =>
      match embeddings !! index with
      | None => Throw UndefinedEmbedding
      | Some er =>
          match withEmbeddings rest (S index) embeddings with
          | Ok l =>
              Ok (mkNewDocument (d_content doc) (embedding er) (d_metadata doc)
                    (d_source doc) :: l)
          | Throw e => Throw e
          end
      end
  end.

(** *** The context and the average, in the words of the specification *)

(** The source suffix of a match: [" [Source: <sourceURL>]"], nothing when
    the match has no source URL (none, or the empty string). *)
Definition sourceSuffix (m : SimilarityResult) : string :=
  match r_source m with
  | Some sourceURL =>
      if decide (sourceURL = ""%string) then ""%string
      else (" [Source: " +:+ sourceURL +:+ "]")%string
  | None => ""%string
  end.

(** ["[i] <content> [Source: <sourceURL>]"] for the match of rank [i]. *)
Definition entry (i : nat) (m : SimilarityResult) : string :=
  "[" +:+ JS.toString (Z.of_nat i) +:+ "] " +:+ r_content m +:+ sourceSuffix m.

Fixpoint entriesFrom (i : nat) (matches : list SimilarityResult) : list string :=
  match matches with
  | [] => []
  | m :: rest => entry i m :: entriesFrom (S i) rest
  end.

(** The matches joined in rank order, ranks counted from 1, a blank line
    between two entries. *)
Definition joinedContext (matches : list SimilarityResult) : string :=
  JS.join blankLine (entriesFrom 1 matches).

(** The arithmetic mean of binary64 values: their sum, taken from left to
    right, divided by their number. *)
Definition mean (xs : list float) : float :=
  (fold_left PrimFloat.add xs 0 / lengthNumber xs)%float.

(** A query result whose [averageSimilarity] is what the specification
    says of its matches. *)
Definition coherent (r : RagQueryResult) : Prop :=
  (q_results r = [] ->
   averageSimilarity (q_metadata r) = 0%float /\
   PrimFloat.is_nan (averageSimilarity (q_metadata r)) = false) /\
  (q_results r <> [] ->
   averageSimilarity (q_metadata r) = mean (map similarity (q_results r))).

(** [0.7] as JavaScript reads it, the binary64 value nearest to 7/10. *)
Definition defaultThreshold : float := 0x1.6666666666666p-1%float.

(** *** RagAgent: the operations *)

Section Agent.

Variable E : Env.

Definition initialize : M unit :=
  initialized <- gets agentInitialized ;;
  if initialized : bool then ret tt
  else
    redisConnect E ;;;
    embeddingInitialize E ;;;
    initializeSchema E ;;;
    setAgentInitialized true.

(** [if (!this.isInitialized) { await this.initialize(); }], the first
    statement of every operation. *)
Definition ensureInitialized : M unit :=
  initialized <- gets agentInitialized ;;
  unless initialized initialize.

Definition cacheKeyOf (queryText : string) (topK : Z) : string :=
  RedisCache.generateKey "query" [queryText; JS.toString topK].

Definition topKOf (options : RagQueryOptions) : Z :=
  default (SIMILARITY_SEARCH_K E) (topK options).

Definition query (queryText : string) (options : RagQueryOptions) : M RagQueryResult :=
  ensureInitialized ;;;
  let topK := topKOf options in
  let similarityThreshold := default defaultThreshold (similarityThreshold options) in
  let includeMetadata := default true (includeMetadata options) in
  let cacheKey := cacheKeyOf queryText topK in
  cached <- redisGet E cacheKey ;;
  match cached with
  | Some hit => ret hit
  | None =>
      tryCatch
        (er <- generateEmbedding E queryText ;;
         results <- searchSimilar E (embedding er) topK similarityThreshold ;;
         let context := buildContext results in
         let citations := extractCitations results in
         let averageSimilarity := averageSimilarityOf results in
         let result :=
           mkResult queryText
             (if includeMetadata then results else map withoutMetadata results)
             context citations
             (mkQueryMetadata (Z.of_nat (length results)) averageSimilarity
                (dimensions er)) in
         redisSet E cacheKey result ;;;
         ret result)
        (fun error => throw (QueryFailed error))
  end.

Definition addDocument (document : DocumentInput) : M Z :=
  ensureInitialized ;;;
  er <- generateEmbedding E (d_content document) ;;
  insertDocument E
    (mkNewDocument (d_content document) (embedding er) (d_metadata document)
       (d_source document)).

Definition addDocuments (documents : list DocumentInput) : M (list Z) :=
  ensureInitialized ;;;
  embeddings <- generateEmbeddings E (map d_content documents) ;;
  match withEmbeddings documents 0 embeddings with
  | Throw e => throw e
  | Ok documentsWithEmbeddings => batchInsertDocuments E documentsWithEmbeddings
  end.

(** [firecrawlService.crawlWebsite(url, options)] on the shared engine;
    [None] when the fuel does not suffice for the crawl loop. *)
Definition crawl (fuel : nat) (url : string) (options : Firecrawl.ScrapeOptions)
  : World -> option (Result (list Firecrawl.ScrapedPage) * World) :=
  fun w =>
    match Firecrawl.crawlWebsite (http E) (hostname E) fuel (crawler w) url options with
    | None => None
    | Some run =>
        Some (Firecrawl.outcome run,
              mkWorld (agentInitialized w) (redisConnected w) (redisStore w)
                (embeddingInitialized w) (tables w) (Firecrawl.engine run)
                (io w ++ map HttpGet (Firecrawl.fetchedUrls (Firecrawl.trace run))))
    end.

(** The result of [indexWebsite]: [{ documentIds, pageCount }]. *)
Definition indexWebsite (fuel : nat) (url : string) (options : Firecrawl.ScrapeOptions)
  : World -> option (Result (list Z * Z) * World) :=
  fun w =>
    match ensureInitialized w with
    | (Throw e, w1) => Some (Throw e, w1)
    | (Ok _, w1) =>
        match crawl fuel url options w1 with
        | None => None
        | Some (Throw e, w2) => Some (Throw e, w2)
        | Some (Ok pages, w2) =>
            let documents := pagesToDocuments pages in
            Some ((documentIds <- addDocuments documents ;;
                   ret (documentIds, Z.of_nat (length pages))) w2)
        end
    end.

(** *** Notions used to state the properties *)

(** The result that [query] assembles from the rows of the store. *)
Definition assemble (queryText : string) (options : RagQueryOptions)
  (er : EmbeddingResult) (results : list SimilarityResult) : RagQueryResult :=
  mkResult queryText
    (if default true (includeMetadata options)
     then results else map withoutMetadata results)
    (buildContext results) (extractCitations results)
    (mkQueryMetadata (Z.of_nat (length results)) (averageSimilarityOf results)
       (dimensions er)).

(** What [generateEmbedding] returns for a text once the local model is
    loaded. *)
Definition embedLocal (text : string) : Result EmbeddingResult :=
  if negb (JS.truthy text) || JS.trimIsEmpty text then Throw TextEmpty
  else match model E text with
       | Some e => Ok (embeddingResult e)
       | None => Throw EmbeddingFailed
       end.

(** The text is not blank and the local model embeds it. *)
Definition embeds (text : string) : bool :=
  match embedLocal text with Ok _ => true | Throw _ => false end.

Definition embedded (text : string) : option EmbeddingResult :=
  fulfilment (embedLocal text).

(** The documents whose rows the store accepts, whatever their embedding. *)
Definition acceptable (doc : DocumentInput) : Prop :=
  forall e, accepts E (mkNewDocument (d_content doc) e (d_metadata doc) (d_source doc)) = true.

End Agent.

(** A step that leaves the fields of the services alone; it may have
    talked to the outside. *)
Record framed (w w' : World) : Prop := mkFramed {
  fr_agent : agentInitialized w' = agentInitialized w;
  fr_connected : redisConnected w' = redisConnected w;
  fr_store : redisStore w' = redisStore w;
  fr_tables : tables w' = tables w;
  fr_crawler : crawler w' = crawler w
}.

Ltac unfoldM :=
  unfold unless, emit, setAgentInitialized, setRedisConnected, setRedisStore,
    setEmbeddingInitialized, setTables, setCrawler in *;
  unfold bind, tryCatch, gets, modify, ret, throw in *;
  simpl in *.

End Rag.

(** ** A small deployment, for concrete runs of the pipeline *)

Module Demo.
Import Rag.

Definition rowA : SimilarityResult :=
  mkSimilarityResult 1 "alpha" None (Some "https://example.test/") 0.5 0.5.
Definition rowB : SimilarityResult :=
  mkSimilarityResult 2 "beta" None None 0.25 0.75.

(** A store with two documents: the search keeps the rows whose similarity
    is at least the threshold, nearest first, and at most [limit] of them. *)
Definition nearest (t : Tables) (q : Embedding) (limit : Z) (threshold : float)
  : option (list SimilarityResult) :=
  Some (take (Z.to_nat limit)
          (filter (fun r => PrimFloat.leb threshold (similarity r) = true) [rowA; rowB])).

(** A local model that embeds every text in one dimension. *)
Definition model (text : string) : option Embedding :=
  Some [PrimFloat.of_uint63 (Uint63.of_Z (Z.of_nat (String.length text)))].

(** Everything outside the process works; the local model is the provider,
    with chunks of two texts. *)
Definition E : Env :=
  mkEnv ProviderLocal 5 2 true true true model (fun _ => None) true true
    (fun _ => true) (fun _ => true) nearest Web.http Web.hostname.

Definition noTables : Tables := mkTables ∅ [] 1.

(** An initialised agent with an empty cache and an empty store. *)
Definition w0 : World := mkWorld true true ∅ true noTables Web.idle [].

Definition noOptions : RagQueryOptions := mkOptions None None None.
Definition options (k : Z) (threshold : float) : RagQueryOptions :=
  mkOptions (Some k) (Some threshold) None.

(** The first call, with threshold 0: both documents match. *)
Definition answer : RagQueryResult :=
  mkResult "hello" [rowA; rowB]
    (buildContext [rowA; rowB]) ["https://example.test/"%string]
    (mkQueryMetadata 2 0.375 1).

Definition w1 : World := snd (query E "hello" (options 2 0) w0).

Definition docs3 : list DocumentInput :=
  [mkInput "one" None None; mkInput "two" None (Some "memo"%string); mkInput "three" None None].

End Demo.

(** ** Notions used to state further properties of the crawl *)

Module CrawlNotions.
Import Firecrawl.

(** The URL gets through the path filters of the loop: no entry of
    [excludePaths] occurs in it and, unless [includePaths] is empty, some
    entry of [includePaths] does. *)
Definition inScope (includePaths excludePaths : list string) (u : string) : Prop :=
  existsb (fun path => JS.includes u path) excludePaths = false /\
  (includePaths = [] \/ existsb (fun path => JS.includes u path) includePaths = true).

(** The depths at which the fetched tasks were dequeued, in order. *)
Definition fetchDepths (fs : list Fetch) : list Z :=
  map (fun f => t_depth (fst f)) fs.

(** Every element is at most the elements after it. *)
Fixpoint nondecreasing (l : list Z) : Prop :=
  match l with
  | [] => True
  | x :: l' => Forall (fun y => x <= y) l' /\ nondecreasing l'
  end.

(** The queue of a breadth-first traversal: tasks of one level [d] followed
    by tasks of the next level, nothing fetched deeper than [d], and the
    fetches in level order. *)
Definition levelled (s : LoopState) : Prop :=
  exists d q1 q2,
    queue s = q1 ++ q2 /\
    Forall (fun t => t_depth t = d) q1 /\
    Forall (fun t => t_depth t = d + 1) q2 /\
    Forall (fun x => x <= d) (fetchDepths (fetches s)) /\
    nondecreasing (fetchDepths (fetches s)).

(** The task is the seed, or it was found one level below a fetched page,
    among the links of that page. *)
Definition foundFrom (seed : string) (fs : list Fetch) (t : CrawlTask) : Prop :=
  t = mkTask seed 0 \/
  exists parent page,
    (parent, Some page) ∈ fs /\
    t_depth t = t_depth parent + 1 /\
    t_url t ∈ links page.

Definition linked (seed : string) (s : LoopState) : Prop :=
  Forall (foundFrom seed (fetches s)) (queue s) /\
  Forall (fun f => foundFrom seed (fetches s) (fst f)) (fetches s).

End CrawlNotions.

(** ** FirecrawlService: calls of [crawlWebsite] on the one service object

    [firecrawlService] is the one instance that the module exports, and
    [visitedUrls] is a field of it. [crawlWebsite] is an [async] function:
    it runs from one [await] to the next without interruption, and while it
    waits other calls on the same object run. [Firecrawl.crawlWebsite] is
    the call that no other call overlaps; here the field is shared by the
    calls in flight. *)

Module Overlap.
Import Firecrawl.

(** The local variables of a call: [options], [results], [queue];
    [c_fetches] is a ghost field, the calls of [scrapePage] so far. *)
Record Locals := mkLocals {
  c_options : ScrapeOptions;
  c_results : list ScrapedPage;
  c_queue : list CrawlTask;
  c_fetches : list Fetch
}.

(** A call of [crawlWebsite]: not yet started, waiting at the end of an
    iteration of its loop (line 176), or returned (or thrown). *)
Inductive Call :=
  | Pending (startUrl : string) (options : ScrapeOptions)
  | Awaiting (l : Locals)
  | Returned (o : Result (list ScrapedPage)) (fs : list Fetch).

(** The service object and the calls made on it. *)
Record Process := mkProcess {
  service : FirecrawlService;
  calls : list Call
}.

Section Engine.

Variable http : string -> option Extracted.
Variable hostname : string -> option string.

(** The state of the loop of a call: the field of the service and the
    local variables of the call. *)
Definition loopState (this : FirecrawlService) (l : Locals) : LoopState :=
  mkLoop (visitedUrls this) (c_results l) (c_queue l) (c_fetches l).

Definition localsOf (options : ScrapeOptions) (s : LoopState) : Locals :=
  mkLocals options (results s) (queue s) (fetches s).

(** What a call does from the head of its loop to its next wait at line
    176, or to its end: the iterations that [continue], then the iteration
    that calls [scrapePage]. The test of [this.visitedUrls] (line 132) and
    the addition to it (line 151) come before the [await] of line 154 and
    nothing after that [await] reads or writes the field, so that the rest
    of the iteration is taken with them. [None] when [fuel] iterations were
    not enough. *)
Fixpoint upToAwait (fuel : nat) (options : ScrapeOptions) (s : LoopState)
  : option Step :=
  match fuel with
  | O => None
  | S fuel' =>
      match loopStep http hostname (maxDepthOf options) (maxPagesOf options)
              (includePathsOf options) (excludePathsOf options) s with
      | Continue s' =>
          if (length (fetches s) <? length (fetches s'))%nat
          then Some (Continue s')
          else upToAwait fuel' options s'
      | st => Some st
      end
  end.

(** A turn of a call. The length of the queue bounds the iterations that
    [continue], since each of them takes a task off it. *)
Definition turn (options : ScrapeOptions) (s : LoopState)
  : option (FirecrawlService * Call) :=
  match upToAwait (S (length (queue s))) options s with
  | Some (Continue s') =>
      Some (mkService (visited s'), Awaiting (localsOf options s'))
  | Some (Exit s') =>
      Some (mkService (visited s'), Returned (Ok (results s')) (fetches s'))
  | Some (Raise e s') =>
      Some (mkService (visited s'), Returned (Throw e) (fetches s'))
  | None => None
  end.

(** The call runs until it waits again. A call that starts clears the
    field (line 124) and enters its loop. *)
Definition advance (this : FirecrawlService) (c : Call)
  : option (FirecrawlService * Call) :=
  match c with
  | Pending startUrl options => turn options (initial this startUrl)
  | Awaiting l => turn (c_options l) (loopState this l)
  | Returned _ _ => Some (this, c)
  end.

(** The event loop lets call number [k] run. *)
Definition step (k : nat) (p : Process) : option Process :=
  match calls p !! k with
  | None => Some p
  | Some c =>
      match advance (service p) c with
      | Some (this', c') => Some (mkProcess this' (<[k := c']> (calls p)))
      | None => None
      end
  end.

Fixpoint run (schedule : list nat) (p : Process) : option Process :=
  match schedule with
  | [] => Some p
  | k :: rest =>
      match step k p with
      | Some p' => run rest p'
      | None => None
      end
  end.

(** *** Notions used to state the properties *)

Definition inFlight (c : option Call) : bool :=
  match c with
  | Some (Awaiting _) => true
  | _ => false
  end.

Definition starts (c : option Call) : bool :=
  match c with
  | Some (Pending _ _) => true
  | _ => false
  end.

(** Along the schedule no call starts while call number [k] is in
    flight. *)
Fixpoint undisturbed (k : nat) (schedule : list nat) (p : Process) : bool :=
  match schedule with
  | [] => true
  | j :: rest =>
      negb (inFlight (calls p !! k) && starts (calls p !! j)) &&
      match step j p with
      | Some p' => undisturbed k rest p'
      | None => true
      end
  end.

(** The call after a turn that ended with the step [st]. *)
Definition after (options : ScrapeOptions) (st : Step) : Call :=
  match st with
  | Continue s' => Awaiting (localsOf options s')
  | Exit s' => Returned (Ok (results s')) (fetches s')
  | Raise e s' => Returned (Throw e) (fetches s')
  end.

(** The results are the successful fetches, and every fetch recorded what
    [scrapePage] gave. *)
Definition recorded (s : LoopState) : Prop :=
  results s = omap snd (fetches s) /\
  Forall (fun f => snd f = scrapePage http (t_url (fst f))) (fetches s).

(** No URL was fetched twice, and every fetched URL is in the visited
    set. *)
Definition marked (s : LoopState) : Prop :=
  NoDup (fetchedUrls (fetches s)) /\
  forall u, u ∈ fetchedUrls (fetches s) -> u ∈ visited s.

(** The same of a call, as far as it has got. *)
Definition recordedCall (c : Call) : Prop :=
  match c with
  | Pending _ _ => True
  | Awaiting l =>
      c_results l = omap snd (c_fetches l) /\
      Forall (fun f => snd f = scrapePage http (t_url (fst f))) (c_fetches l)
  | Returned o fs =>
      (forall pages, o = Ok pages -> pages = omap snd fs) /\
      Forall (fun f => snd f = scrapePage http (t_url (fst f))) fs
  end.

Definition markedCall (this : FirecrawlService) (c : Call) : Prop :=
  match c with
  | Pending _ _ => True
  | Awaiting l =>
      NoDup (fetchedUrls (c_fetches l)) /\
      forall u, u ∈ fetchedUrls (c_fetches l) -> u ∈ visitedUrls this
  | Returned o fs => NoDup (fetchedUrls fs)
  end.

(** The same of call number [k] of a process. *)
Definition recordedAt (k : nat) (p : Process) : Prop :=
  match calls p !! k with
  | Some c => recordedCall c
  | None => True
  end.

Definition markedAt (k : nat) (p : Process) : Prop :=
  match calls p !! k with
  | Some c => markedCall (service p) c
  | None => True
  end.

End Engine.

End Overlap.

(** ** FirecrawlService.scrapePage: the text it extracts

    JavaScript strings are sequences of UTF-16 code units. [\s] in a
    regular expression and [String.prototype.trim] use one and the same set
    of code units (WhiteSpace and LineTerminator); the functions below take
    that set as a parameter, so they hold for the whole of it. *)

Module Scrape.

Section Text.

Variable Char : Type.

(** The code unit matches [\s]. *)
Variable isSpace : Char -> bool.

(** The code unit of [' '] and the test for [','] *)
Variable space : Char.
Variable isComma : Char -> bool.

(** [s.trimStart()] and [s.trimEnd()] *)
Fixpoint trimStart (s : list Char) : list Char :=
  match s with
  | [] => []
  | c :: s' => if isSpace c then trimStart s' else s
  end.

Fixpoint trimEnd (s : list Char) : list Char :=
  match s with
  | [] => []
  | c :: s' =>
      match trimEnd s' with
      | [] => if isSpace c then [] else [c]
      | kept => c :: kept
      end
  end.

(** [s.trim()] *)
Definition trim (s : list Char) : list Char := trimEnd (trimStart s).

(** [s.replace(/\s+/g, ' ')]: every maximal run of white space becomes one
    [' ']; [inRun] tells that the code unit before was white space. *)
Fixpoint collapseFrom (inRun : bool) (s : list Char) : list Char :=
  match s with
  | [] => []
  | c :: s' =>
      if isSpace c
      then (if inRun then collapseFrom true s' else space :: collapseFrom true s')
      else c :: collapseFrom false s'
  end.

Definition collapse (s : list Char) : list Char := collapseFrom false s.

(** [content.replace(/\s+/g, ' ').trim()] *)
Definition clean (s : list Char) : list Char := trim (collapse s).

(** [content.split(',')] *)
Fixpoint split (s : list Char) : list (list Char) :=
  match s with
  | [] => [[]]
  | c :: s' =>
      if isComma c then [] :: split s'
      else match split s' with
           | part :: parts => (c :: part) :: parts
           | [] => [[c]]
           end
  end.

(** [content?.split(',').map(k => k.trim())] *)
Definition keywordsOf (content : option (list Char)) : option (list (list Char)) :=
  match content with
  | Some s => Some (map trim (split s))
  | None => None
  end.

(** [a || b] on strings *)
Definition orElse (a b : list Char) : list Char :=
  match a with [] => b | _ => a end.

(** The document: for a selector, the text of the elements it selects,
    [None] when it selects none ([element.length === 0]). *)
Variable dom : string -> option (list Char).

(** The same for the first element that a selector selects
    ([$(selector).first()]). *)
Variable domFirst : string -> option (list Char).

(** [$('title').text().trim() || $('h1').first().text().trim()]; the text
    of an empty selection is [""]. *)
Definition titleOf : list Char :=
  orElse (trim (default [] (dom "title"))) (trim (default [] (domFirst "h1"))).

Definition contentSelectors : list string :=
  ["article"; "main"; ".content"; ".post-content"; "#content"; "body"]%string.

(** The loop over the selectors: the text of a selector that selects
    something replaces the content, and the loop stops at the first text
    of more than 100 code units. *)
Fixpoint pickContent (content : list Char) (selectors : list string) : list Char :=
  match selectors with
  | [] => content
  | selector :: rest =>
      match dom selector with
      | Some text =>
          let content := trim text in
          if (100 <? length content)%nat then content else pickContent content rest
      | None => pickContent content rest
      end
  end.

(** The [content] field of the scraped page. *)
Definition contentOf : list Char := clean (pickContent [] contentSelectors).

(** *** Notions used to state the properties *)

(** Between two code units of a tidy text: white space is a single [' ']
    and does not follow white space ([afterSpace]). *)
Fixpoint tidyFrom (afterSpace : bool) (s : list Char) : Prop :=
  match s with
  | [] => True
  | c :: s' =>
      if isSpace c then afterSpace = false /\ c = space /\ tidyFrom true s'
      else tidyFrom false s'
  end.

(** A tidy text: no white space at either end, and inside only single
    [' ']s. *)
Definition tidy (s : list Char) : Prop :=
  tidyFrom true s /\
  match last s with Some c => isSpace c = false | None => True end.

(** The selector selects a text of more than 100 code units, once
    trimmed. *)
Definition long (selector : string) : bool :=
  match dom selector with
  | Some text => (100 <? length (trim text))%nat
  | None => false
  end.

(** The trimmed texts of the selectors that select something, in order. *)
Definition candidates (selectors : list string) : list (list Char) :=
  omap (fun selector => trim <$> dom selector) selectors.

End Text.

End Scrape.

(** ** DatabaseService and RagAgent: reading and deleting documents *)

Module Rows.
Import Database.

(** The tables without the document [i] and without the rows of
    [rag.embeddings] that reference it ([ON DELETE CASCADE] in the
    schema). *)
Definition withoutDocument (t : Tables) (i : Z) : Tables :=
  mkTables (delete i (documents t))
           (filter (fun row => fst row <> i) (embeddings t))
           (documents_id_seq t).

(** [DELETE FROM rag.documents WHERE id = $1], answered by
    [rowCount > 0], for an id that is an integer, as [RagAgent] and the
    tools of the server pass it; [None] when the statement throws, which
    it does for an id that the [integer] column cannot hold, leaving the
    tables as they are. *)
Definition deleteDocument (t : Tables) (i : Z) : option (bool * Tables) :=
  if int4 i
  then Some (bool_decide (is_Some (documents t !! i)), withoutDocument t i)
  else None.

(** [SELECT ... FROM rag.documents WHERE id = $1]: [Some None] for [null],
    [None] when the statement throws. *)
Definition getDocumentById (t : Tables) (i : Z) : option (option Document) :=
  if int4 i then Some (documents t !! i) else None.

(** [SELECT COUNT( * ) FROM rag.documents] *)
Definition getDocumentCount (t : Tables) : Z :=
  Z.of_nat (size (documents t)).

(** *** Notions used to state the properties *)

(** Every document has one row of [rag.embeddings] and every such row
    belongs to a document, and nothing is stored at or above the next
    value of the sequence. *)
Record paired (t : Tables) : Prop := mkPaired {
  p_fresh : fresh t;
  p_nodup : NoDup (map fst (embeddings t));
  p_rows : forall i, is_Some (documents t !! i) <-> i ∈ map fst (embeddings t)
}.

(** The foreign key of [rag.embeddings]: every row of it belongs to a
    document. *)
Definition referenced (t : Tables) : Prop :=
  forall row, row ∈ embeddings t -> is_Some (documents t !! fst row).

(** The ids [first], [first + 1], ... that [n] insertions take from the
    sequence. *)
Definition idsFrom (first : Z) (n : nat) : list Z :=
  map (fun j => first + Z.of_nat j) (seq 0 n).

End Rows.

Module Upkeep.
Import Rag.

Section Agent.

Variable E : Env.

(** [DatabaseService.deleteDocument] and [getDocumentCount]: a connection,
    then the statement. The trace has no entry for these statements. *)
Definition dbDeleteDocument (i : Z) : M bool :=
  if negb (dbConnects E) then throw StoreError
  else
    t <- gets tables ;;
    match Rows.deleteDocument t i with
    | None => throw StoreError
    | Some (deleted, t') => setTables t' ;;; ret deleted
    end.

Definition dbGetDocumentCount : M Z :=
  if negb (dbConnects E) then throw StoreError
  else t <- gets tables ;; ret (Rows.getDocumentCount t).

(** [RagAgent.deleteDocument] and [RagAgent.getDocumentCount] *)
Definition deleteDocument (documentId : Z) : M bool :=
  ensureInitialized E ;;;
  dbDeleteDocument documentId.

Definition getDocumentCount : M Z :=
  ensureInitialized E ;;;
  dbGetDocumentCount.

End Agent.

(** *** Notions used to state the properties *)

(** A list cut into pieces of [size] elements, the last one possibly
    shorter. *)
Fixpoint chunksFrom {A} (fuel size : nat) (l : list A) : list (list A) :=
  match fuel with
  | O => []
  | S fuel' =>
      match l with
      | [] => []
      | _ => take size l :: chunksFrom fuel' size (drop size l)
      end
  end.

Definition chunks {A} (size : nat) (l : list A) : list (list A) :=
  chunksFrom (length l) size l.

(** The sources of the matches that have one. *)
Definition sourcesOf (results : list SimilarityResult) : list string :=
  omap (fun r => match r_source r with
                 | Some s => if JS.truthy s then Some s else None
                 | None => None
                 end) results.

Section Provider.

Variable E : Env.

(** The API answers the request with one embedding for each text. *)
Definition answered (batch : list string) : Prop :=
  exists data, openai E batch = Some data /\ length data = length batch.

End Provider.

(** A text without [':']. *)
Fixpoint colonFree (s : string) : Prop :=
  match s with
  | EmptyString => True
  | String c s' => c <> ":"%char /\ colonFree s'
  end.

End Upkeep.

(** ** The MCP server: the tools that write and read the tables directly *)

Module Tools.
Import Database.

(** [DELETE FROM rag.embeddings WHERE document_id = $1]; [None] when the
    statement throws (an id that the [integer] column cannot hold). *)
Definition deleteEmbeddings (t : Tables) (documentId : Z) : option Tables :=
  if int4 documentId
  then Some (mkTables (documents t)
               (filter (fun row => fst row <> documentId) (embeddings t))
               (documents_id_seq t))
  else None.

(** [rag_delete_document]: that statement, then
    [DELETE FROM rag.documents WHERE id = $1 RETURNING id], outside any
    transaction. [Some (false, _)] stands for the error
    ['Document with ID ... not found'], thrown when the second statement
    returns no row; [None] for a statement that throws. *)
Definition deleteDocumentTool (t : Tables) (documentId : Z) : option (bool * Tables) :=
  match deleteEmbeddings t documentId with
  | None => None
  | Some t1 => Rows.deleteDocument t1 documentId
  end.

(** [rag_get_stats]: [documentCount] and [embeddingCount]. *)
Definition getStats (t : Tables) : Z * Z :=
  (Z.of_nat (size (documents t)), Z.of_nat (length (embeddings t))).

End Tools.

(** ** More runs on the small web and the small deployment *)

Module Cases.
Import Firecrawl Rag.

(** A crawl of the small web that leaves out the URLs with ["/b"]. *)
Definition withoutB : ScrapeOptions :=
  mkScrapeOptions (Some 1) (Some 10) None (Some ["/b"%string]).

(** The crawl that fetches page A only: the run with [withoutB], and the
    run with [maxDepth = 0]. *)
Definition runSeedOnly : Run :=
  mkRun (Ok [Web.pageA]) (mkService {[Web.A]}) [(mkTask Web.A 0, Some Web.pageA)].

(** The crawl with [maxPages = 0]. *)
Definition runNothing : Run := mkRun (Ok []) (mkService ∅) [].

Definition pageC : ScrapedPage :=
  mkScrapedPage Web.C "C" "page c" Web.noMetadata [].

(** Two calls on the idle service, neither started: a crawl of A and a
    crawl of C, both with the default options. *)
Definition twoCalls : Overlap.Process :=
  Overlap.mkProcess Web.idle
    [Overlap.Pending Web.A Firecrawl.noOptions;
     Overlap.Pending Web.C Firecrawl.noOptions].

(** The crawl of A runs its first iteration, then the crawl of C starts;
    the crawl of A runs to its end, then the crawl of C. *)
Definition overlapped : list nat := [0; 1; 0; 0; 0; 1]%nat.

(** The crawl of C starts first. *)
Definition startedBefore : list nat := [1; 0; 1; 0; 0]%nat.

Definition fetchesA : list Fetch :=
  [(mkTask Web.A 0, Some Web.pageA); (mkTask Web.B 1, Some Web.pageB)].

(** The process when the calls of [twoCalls] have returned, under the
    schedule [overlapped] and under the schedule [startedBefore]. *)
Definition afterOverlapped : Overlap.Process :=
  Overlap.mkProcess (mkService {[Web.A; Web.B; Web.C]})
    [Overlap.Returned (Ok [Web.pageA; Web.pageB; Web.pageA])
       (fetchesA ++ [(mkTask Web.A 2, Some Web.pageA)]);
     Overlap.Returned (Ok [pageC]) [(mkTask Web.C 0, Some pageC)]].

Definition afterStartedBefore : Overlap.Process :=
  Overlap.mkProcess (mkService {[Web.A; Web.B]})
    [Overlap.Returned (Ok [Web.pageA; Web.pageB]) fetchesA;
     Overlap.Returned (Ok [pageC]) [(mkTask Web.C 0, Some pageC)]].

(** The crawl of A with the default options when no call overlaps it. *)
Definition runAlone : Run :=
  mkRun (Ok [Web.pageA; Web.pageB]) (mkService {[Web.A; Web.B]}) fetchesA.

(** A text of one no-break space (U+00A0) and one ideographic space
    (U+3000), as the bytes of its UTF-8 encoding. *)
Definition wideBlank : string :=
  String (ascii_of_nat 194) (String (ascii_of_nat 160)
    (String (ascii_of_nat 227) (String (ascii_of_nat 128)
      (String (ascii_of_nat 128) EmptyString)))).

(** A store that refuses a document without content, before it draws an
    id for it. *)
Definition needsContent (d : NewDocument) : bool :=
  negb (String.eqb (n_content d) "").

Definition aMemo : NewDocument := mkNewDocument "a memo" [] None None.
Definition noContent : NewDocument := mkNewDocument "" [] None None.

(** A text as its code units. *)
Definition text (s : string) : list ascii :=
  Stdlib.Strings.String.list_ascii_of_string s.

Definition isComma (c : ascii) : bool := Ascii.eqb c ",".

(** An agent before its first operation. *)
Definition cold : World := mkWorld false false ∅ false Demo.noTables Web.idle [].

Definition memo : DocumentInput := mkInput "a memo" None (Some "memo"%string).

(** The deployment after [memo] was added. *)
Definition wMemo : World := snd (addDocument Demo.E memo Demo.w0).

(** The deployment after the small web was indexed from page A. *)
Definition wIndexed : World :=
  match indexWebsite Demo.E 10 Web.A (Web.budget 1 10) Demo.w0 with
  | Some (_, w) => w
  | None => Demo.w0
  end.

(** The deployment with OpenAI as the provider; it answers every text with
    the same vector. *)
Definition EOpenAI : Env :=
  mkEnv ProviderOpenAI 5 2 true true true Demo.model
    (fun texts => Some (map (fun _ => [1%float]) texts)) true true
    (fun _ => true) (fun _ => true) Demo.nearest Web.http Web.hostname.

(** The same deployment when the API does not answer. *)
Definition EOpenAIDown : Env :=
  mkEnv ProviderOpenAI 5 2 true true true Demo.model (fun _ => None) true true
    (fun _ => true) (fun _ => true) Demo.nearest Web.http Web.hostname.

(** The tables after one insertion. *)
Definition oneRow : Tables :=
  snd (insertOne (fun _ => true) (fun _ => true) Demo.noTables (mkNewDocument "a memo" [] None None)).

(** A site of one page that has neither a title nor a text. *)
Definition blank : string := "https://blank.test/".

Definition httpBlank (u : string) : option Extracted :=
  if String.eqb u blank then Some (mkExtracted "" "" Web.noMetadata []) else None.

Definition pageBlank : ScrapedPage := mkScrapedPage blank "" "" Web.noMetadata [].

Definition runBlank : Run :=
  mkRun (Ok [pageBlank]) (mkService {[blank]}) [(mkTask blank 0, Some pageBlank)].

Definition EBlank : Env :=
  mkEnv ProviderLocal 5 2 true true true Demo.model (fun _ => None) true true
    (fun _ => true) (fun _ => true) Demo.nearest httpBlank Web.hostname.

End Cases.

(** * Properties *)

(** ** The crawl engine *)

Module CrawlFacts.
Import Firecrawl.

Section Engine.

Variable http : string -> option Extracted.
Variable hostname : string -> option string.

Local Abbreviation scrapePage := (Firecrawl.scrapePage http).
Local Abbreviation sameDomain := (Firecrawl.sameDomain hostname).
Local Abbreviation children := (Firecrawl.children hostname).
Local Abbreviation loopStep := (Firecrawl.loopStep http hostname).
Local Abbreviation crawlLoop := (Firecrawl.crawlLoop http hostname).
Local Abbreviation crawlWebsite := (Firecrawl.crawlWebsite http hostname).
Local Abbreviation Inv := (Firecrawl.Inv http hostname).

(** *** The loop: invariants, termination, fuel *)

(** A property that every iteration preserves holds of the state in
    which the loop stops, whatever the fuel. *)
Lemma crawlLoop_invariant (I : LoopState -> Prop) maxD maxP incl excl :
  (forall s, I s -> I (stateOf (loopStep maxD maxP incl excl s))) ->
  forall fuel s r,
    I s -> crawlLoop fuel maxD maxP incl excl s = Some r ->
    exists s', I s' /\ engine r = mkService (visited s') /\ trace r = fetches s' /\
               (outcome r = Ok (results s') \/ exists e, outcome r = Throw e).
Proof.
  intros Hstep fuel. induction fuel as [|fuel IH]; intros s r Hs Hrun; [discriminate|].
  simpl in Hrun. specialize (Hstep s Hs).
  destruct (loopStep maxD maxP incl excl s) as [s'|s'|e s'] eqn:Est; simpl in Hstep.
  - by apply (IH s').
  - inversion Hrun; subst r. exists s'. simpl. eauto.
  - inversion Hrun; subst r. exists s'. simpl. eauto 6.
Qed.

(** More fuel does not change a result. *)
Lemma crawlLoop_fuel_mono maxD maxP incl excl fuel fuel' s r :
  (fuel <= fuel')%nat ->
  crawlLoop fuel maxD maxP incl excl s = Some r ->
  crawlLoop fuel' maxD maxP incl excl s = Some r.
Proof.
  revert fuel' s. induction fuel as [|fuel IH]; intros fuel' s Hle Hrun; [discriminate|].
  destruct fuel' as [|fuel']; [lia|]. simpl in *.
  destruct (loopStep maxD maxP incl excl s); auto. apply IH; [lia|done].
Qed.

(** An iteration that continues either emits a page, or leaves the
    results alone and shortens the queue. *)
Lemma loopStep_progress maxD maxP incl excl s s' :
  loopStep maxD maxP incl excl s = Continue s' ->
  Z.of_nat (length (results s)) < maxP /\
  ((length (results s') = S (length (results s)))
   \/ (results s' = results s /\ S (length (queue s')) = length (queue s))).
Proof.
  unfold loopStep. destruct (queue s) as [|t rest] eqn:Eq; [discriminate|].
  destruct (Z.ltb_spec (Z.of_nat (length (results s))) maxP); simpl; [|discriminate].
  intros Hst. split; [done|].
  repeat (case_match; simplify_eq; simpl; auto);
    left; rewrite length_app; simpl; lia.
Qed.

(** The loop stops: every iteration either emits one of the at most
    [maxPages] pages or consumes a task without adding any. *)
Lemma crawlLoop_terminates maxD maxP incl excl s :
  exists fuel r, crawlLoop fuel maxD maxP incl excl s = Some r.
Proof.
  remember (Z.to_nat (maxP - Z.of_nat (length (results s)))) as budget eqn:Hb.
  revert s Hb. induction (lt_wf budget) as [budget _ IHb]. intros s Hb.
  remember (length (queue s)) as pending eqn:Hq.
  revert s Hb Hq. induction (lt_wf pending) as [pending _ IHq]. intros s Hb Hq.
  destruct (loopStep maxD maxP incl excl s) as [s'|s'|e s'] eqn:Est.
  - destruct (loopStep_progress _ _ _ _ _ _ Est) as [Hlt [Hgrow|[Hsame Hshort]]].
    + destruct (IHb (Z.to_nat (maxP - Z.of_nat (length (results s'))))
                  ltac:(lia) s' eq_refl) as (fuel & r & Hr).
      exists (S fuel), r. simpl. by rewrite Est.
    + destruct (IHq (length (queue s')) ltac:(lia) s'
                  ltac:(rewrite Hsame; done) eq_refl) as (fuel & r & Hr).
      exists (S fuel), r. simpl. by rewrite Est.
  - exists 1%nat. eexists. simpl. by rewrite Est.
  - exists 1%nat. eexists. simpl. by rewrite Est.
Qed.

(** The shapes of the state after one iteration. *)
Lemma loopStep_cases maxD maxP incl excl s :
  stateOf (loopStep maxD maxP incl excl s) = s \/
  exists t rest,
    queue s = t :: rest /\ Z.of_nat (length (results s)) < maxP /\
    (stateOf (loopStep maxD maxP incl excl s)
       = mkLoop (visited s) (results s) rest (fetches s)
     \/ ((t_url t ∉ visited s) /\ t_depth t <= maxD /\
         exists q',
           stateOf (loopStep maxD maxP incl excl s)
             = mkLoop ({[t_url t]} ∪ visited s)
                 (results s ++ option_list (scrapePage (t_url t))) q'
                 (fetches s ++ [(t, scrapePage (t_url t))]) /\
           (q' = rest \/
            exists base page,
              scrapePage (t_url t) = Some page /\ t_depth t < maxD /\
              hostname (t_url t) = Some base /\
              q' = rest ++ children base (t_depth t) page))).
Proof.
  unfold loopStep. destruct (queue s) as [|t rest] eqn:Eq; [by left|].
  destruct (Z.ltb_spec (Z.of_nat (length (results s))) maxP); simpl; [|by left].
  right. exists t, rest. do 2 (split; [done|]).
  destruct (decide (t_url t ∈ visited s)); [by left|].
  destruct (Z.ltb_spec maxD (t_depth t)); [by left|].
  destruct (existsb _ excl); [by left|].
  destruct (_ && _); [by left|].
  right. do 2 (split; [done|]).
  destruct (scrapePage (t_url t)) as [page|] eqn:Epage; simpl.
  - destruct (Z.ltb_spec (t_depth t) maxD).
    + destruct (hostname (t_url t)) as [base|] eqn:Ebase; simpl.
      * eexists. split; [done|]. right. by exists base, page.
      * eexists. split; [done|]. by left.
    + eexists. split; [done|]. by left.
  - rewrite app_nil_r. eexists. split; [done|]. by left.
Qed.

Lemma Inv_initial this seed maxD maxP : Inv seed maxD maxP (initial this seed).
Proof.
  split; simpl; try done.
  - constructor.
  - by repeat constructor.
Qed.

Lemma children_Forall seed base depth page :
  hostname seed = Some base -> 0 <= depth ->
  Forall (fun t => hostname (t_url t) = hostname seed /\ 0 <= t_depth t)
         (children base depth page).
Proof.
  intros Hseed Hd. unfold children. apply Forall_map, Forall_forall.
  intros link Hin. apply list_elem_of_filter in Hin as [Hsame _]. simpl.
  unfold sameDomain in Hsame. destruct (hostname link) as [h|]; [|done].
  apply bool_decide_eq_true in Hsame. split; [congruence|lia].
Qed.

Lemma Inv_step seed maxD maxP incl excl s :
  Inv seed maxD maxP s -> Inv seed maxD maxP (stateOf (loopStep maxD maxP incl excl s)).
Proof.
  intros [Hpages Hres Hvis Hnd Hq Hf].
  destruct (loopStep_cases maxD maxP incl excl s)
    as [->|(t & rest & Eq & Hlt & [->|(Hnew & Hdepth & q' & -> & Hq')])]; [done|..].
  - rewrite Eq in Hq. apply Forall_cons in Hq as [_ Hq]. by split.
  - rewrite Eq in Hq. apply Forall_cons in Hq as [[Hhost Hd0] Hq].
    split; simpl.
    + intros _. rewrite length_app.
      destruct (scrapePage (t_url t)); simpl; lia.
    + rewrite omap_app, <- Hres. simpl.
      by destruct (scrapePage (t_url t)).
    + rewrite Hvis. unfold fetchedUrls.
      rewrite map_app, list_to_set_app_L. simpl.
      rewrite union_empty_r_L. apply (comm_L (∪)).
    + unfold fetchedUrls. rewrite map_app. simpl. apply NoDup_app.
      split; [done|]. split; [|apply NoDup_singleton].
      intros u Hu Hu'. apply list_elem_of_singleton in Hu' as ->.
      apply Hnew. rewrite Hvis. by apply elem_of_list_to_set.
    + destruct Hq' as [->|(base & page & _ & _ & Hbase & ->)]; [done|].
      apply Forall_app. split; [done|].
      apply children_Forall; [congruence|done].
    + apply Forall_app. split; [done|]. constructor; [|constructor].
      simpl. repeat split; first [done|lia].
Qed.

Lemma crawlWebsite_Inv fuel this seed options r :
  crawlWebsite fuel this seed options = Some r ->
  exists s, Inv seed (maxDepthOf options) (maxPagesOf options) s /\
            engine r = mkService (visited s) /\ trace r = fetches s /\
            (outcome r = Ok (results s) \/ exists e, outcome r = Throw e).
Proof.
  apply crawlLoop_invariant; [|apply Inv_initial].
  intros s. apply Inv_step.
Qed.

Lemma crawlWebsite_terminates this seed options :
  exists fuel r, crawlWebsite fuel this seed options = Some r.
Proof. apply crawlLoop_terminates. Qed.

(** *** Properties of a crawl *)

(** C1. A crawl with a page budget [maxPages >= 0] returns (given enough
    fuel the loop stops), and when it returns pages there are at most
    [maxPages] of them; the pages are exactly the successful fetches, in
    order, and every fetch was made for a task dequeued at a depth of at
    most [maxDepth]. *)
Theorem crawl_within_budget this seed options :
  0 <= maxPagesOf options ->
  (exists fuel r, crawlWebsite fuel this seed options = Some r) /\
  (forall fuel r pages,
     crawlWebsite fuel this seed options = Some r ->
     outcome r = Ok pages ->
     Z.of_nat (length pages) <= maxPagesOf options /\
     pages = omap snd (trace r) /\
     Forall (fun f => t_depth (fst f) <= maxDepthOf options) (trace r)).
Proof.
  intros HmaxP. split; [apply crawlWebsite_terminates|].
  intros fuel r pages Hrun Hout.
  destruct (crawlWebsite_Inv _ _ _ _ _ Hrun) as (s & HI & _ & Htr & [Hok|[e He]]);
    [|congruence].
  assert (pages = results s) as -> by congruence.
  destruct HI as [Hpages Hres _ _ _ Hf]. rewrite Htr.
  split; [auto|]. split; [done|].
  eapply Forall_impl; [exact Hf|]. simpl. intros f (_ & Hd & _). lia.
Qed.

(** C6. A URL whose hostname differs from the seed's hostname is never
    passed to [scrapePage] and is not the URL of a returned page: every
    task that enters the queue carries the hostname of the page it was
    found on, which by induction is the seed's. *)
Theorem crawl_same_origin fuel this seed options r link :
  crawlWebsite fuel this seed options = Some r ->
  hostname link <> hostname seed ->
  (link ∉ fetchedUrls (trace r)) /\
  (forall pages, outcome r = Ok pages -> link ∉ map url pages).
Proof.
  intros Hrun Hneq.
  destruct (crawlWebsite_Inv _ _ _ _ _ Hrun) as (s & HI & _ & Htr & Hout).
  destruct HI as [_ Hres _ _ _ Hf]. rewrite Htr.
  assert (Hfetched : link ∉ fetchedUrls (fetches s)).
  { intros Hin. apply list_elem_of_fmap in Hin as (f & -> & Hin).
    rewrite Forall_forall in Hf. destruct (Hf f Hin) as (Hh & _). done. }
  split; [done|]. intros pages Hpages.
  destruct Hout as [Hok|[e He]]; [|congruence].
  assert (pages = results s) as -> by congruence.
  intros Hin. apply list_elem_of_fmap in Hin as (page & -> & Hin).
  rewrite Hres in Hin. apply list_elem_of_omap in Hin as ([t o] & Hin & Ho).
  simpl in Ho. subst o. rewrite Forall_forall in Hf.
  destruct (Hf _ Hin) as (Hh & _ & Hscrape). simpl in *.
  unfold scrapePage in Hscrape. destruct (http (t_url t)); [|done].
  inversion Hscrape; subst page. simpl in Hneq. done.
Qed.

(** C4, as the code has it. The seed is not validated: a seed that the
    URL parser rejects is fetched like any other URL. If an error is
    raised, it is the [TypeError] of [new URL(url)] and it comes after
    the fetch of the seed succeeded; if the fetch fails, the crawl
    returns normally with no page. *)
Theorem crawl_malformed_seed fuel this seed options r :
  hostname seed = None ->
  crawlWebsite fuel this seed options = Some r ->
  (forall e, outcome r = Throw e ->
             e = InvalidURL /\
             exists page, trace r = [(mkTask seed 0, Some page)]) /\
  (http seed = None -> outcome r = Ok []).
Proof.
  intros Hbad. unfold crawlWebsite.
  generalize (maxDepthOf options) (maxPagesOf options)
             (includePathsOf options) (excludePathsOf options).
  intros maxD maxP incl excl Hrun.
  destruct fuel as [|fuel]; [done|]. simpl in Hrun.
  unfold loopStep, initial, scrapePage in Hrun. simpl in Hrun.
  destruct (Z.of_nat 0 <? maxP); simpl in Hrun; [|by inversion Hrun].
  destruct (decide (seed ∈ (∅ : gset string))) as [Hin|_];
    [by apply not_elem_of_empty in Hin|].
  assert (Hstop : forall vis res fs r',
             crawlLoop fuel maxD maxP incl excl (mkLoop vis res [] fs) = Some r' ->
             r' = mkRun (Ok res) (mkService vis) fs).
  { intros vis res fs r' H. destruct fuel; [done|]. simpl in H. by inversion H. }
  destruct (maxD <? 0); [apply Hstop in Hrun; by subst r|].
  destruct (existsb _ excl); [apply Hstop in Hrun; by subst r|].
  destruct (_ && _); [apply Hstop in Hrun; by subst r|].
  destruct (http seed) as [e|].
  - destruct (0 <? maxD).
    + rewrite Hbad in Hrun. inversion Hrun; subst r. simpl.
      split; [|done]. intros e' He'. inversion He'. eauto.
    + apply Hstop in Hrun. by subst r.
  - apply Hstop in Hrun. by subst r.
Qed.

End Engine.

End CrawlFacts.

(** ** Runs of the crawl engine on the small web *)

Module WebRuns.
Import Firecrawl Web CrawlFacts.

(** Scenario A of the specification: seed A, [maxDepth = 1],
    [maxPages = 10]. Pages A and B are returned; C is among A's links and
    is not fetched. *)
Example scenario_A :
  exists r,
    crawlWebsite http hostname 10 idle A (budget 1 10) = Some r /\
    outcome r = Ok [pageA; pageB] /\
    fetchedUrls (trace r) = [A; B] /\
    C ∈ links pageA.
Proof.
  eexists. split; [vm_compute; reflexivity|].
  split; [reflexivity|]. split; [reflexivity|].
  unfold pageA. simpl. set_solver.
Qed.

Lemma runA_eq : crawlWebsite http hostname 10 idle A (budget 1 10) = Some runA.
Proof. vm_compute. reflexivity. Qed.

(** A page budget of 1 stops the crawl after page A. *)
Example budget_of_one :
  outcome <$> crawlWebsite http hostname 10 idle A (budget 1 1) = Some (Ok [pageA]).
Proof. vm_compute. reflexivity. Qed.

(** Below 0 the budget is not a bound: with [maxPages = -1] the loop is not
    entered and the empty result has more than [maxPages] elements. *)
Example negative_budget :
  outcome <$> crawlWebsite http hostname 10 idle A (budget 1 (-1)) = Some (Ok []).
Proof. vm_compute. reflexivity. Qed.

Lemma crawl_within_budget_witness :
  0 <= maxPagesOf (budget 1 10) /\
  Z.of_nat (length [pageA; pageB]) <= maxPagesOf (budget 1 10) /\
  Forall (fun f => t_depth (fst f) <= maxDepthOf (budget 1 10)) (trace runA).
Proof.
  assert (H0 : 0 <= maxPagesOf (budget 1 10)) by (vm_compute; discriminate).
  split; [exact H0|].
  destruct (crawl_within_budget http hostname idle A (budget 1 10) H0) as [_ H].
  destruct (H 10%nat runA [pageA; pageB]) as (Hn & _ & Hd);
    [vm_compute; reflexivity|reflexivity|].
  split; [exact Hn|exact Hd].
Defined.

Lemma crawl_same_origin_witness :
  crawlWebsite http hostname 10 idle A (budget 1 10) = Some runA /\
  hostname C <> hostname A /\
  (C ∉ fetchedUrls (trace runA)) /\
  (C ∉ map url [pageA; pageB]) /\
  C ∈ links pageA.
Proof.
  assert (Hrun : crawlWebsite http hostname 10 idle A (budget 1 10) = Some runA)
    by (vm_compute; reflexivity).
  assert (Hne : hostname C <> hostname A) by (vm_compute; discriminate).
  split; [exact Hrun|]. split; [exact Hne|].
  destruct (crawl_same_origin http hostname 10 idle A (budget 1 10) runA C Hrun Hne)
    as [Hf Hp].
  split; [exact Hf|]. split; [apply Hp; reflexivity|].
  apply list_elem_of_In. simpl. right. left. reflexivity.
Defined.

Lemma crawl_malformed_seed_witness :
  hostname malformed = None /\
  crawlWebsite http hostname 10 idle malformed noOptions = Some runMalformed /\
  http malformed = None /\
  outcome runMalformed = Ok [].
Proof.
  assert (Hbad : hostname malformed = None) by (vm_compute; reflexivity).
  assert (Hrun : crawlWebsite http hostname 10 idle malformed noOptions
                 = Some runMalformed) by (vm_compute; reflexivity).
  assert (Hnet : http malformed = None) by (vm_compute; reflexivity).
  split; [exact Hbad|]. split; [exact Hrun|]. split; [exact Hnet|].
  destruct (crawl_malformed_seed http hostname 10 idle malformed noOptions
              runMalformed Hbad Hrun) as [_ H].
  exact (H Hnet).
Defined.

(** Against C4 as stated: for the malformed seed ["not a url"] the crawl
    returns normally, with no page, and the one thing it did was to try
    and fetch the seed. *)
Lemma malformed_seed_returns_normally :
  hostname malformed = None /\
  exists r,
    crawlWebsite http hostname 10 idle malformed noOptions = Some r /\
    outcome r = Ok [] /\
    trace r = [(mkTask malformed 0, None)].
Proof.
  split; [vm_compute; reflexivity|].
  exists runMalformed. split; [vm_compute; reflexivity|]. split; reflexivity.
Qed.

End WebRuns.

(** ** The store *)

Module StoreFacts.
Import Database.

Section Store.

Variable accepts : NewDocument -> bool.
Variable drawsId : NewDocument -> bool.

Local Abbreviation insertOne := (Database.insertOne accepts drawsId).
Local Abbreviation insertAll := (Database.insertAll accepts drawsId).
Local Abbreviation transaction := (Database.transaction accepts drawsId).

(** *** What a transaction leaves in the tables *)

Lemma insertOne_Some t d i t' :
  insertOne t d = (Some i, t') ->
  i = documents_id_seq t /\ accepts d = true /\
  documents t' = <[i := rowOf i d]> (documents t) /\
  embeddings t' = embeddings t ++ [(i, n_embedding d)] /\
  documents_id_seq t' = i + 1.
Proof.
  unfold insertOne. destruct (int4 (documents_id_seq t)); simpl; [|done].
  destruct (accepts d); simpl; [|done].
  case_bool_decide; [|done]. intros [= <- <-]. done.
Qed.

Lemma insertOne_Some_key t d i t' :
  insertOne t d = (Some i, t') ->
  int4 i = true /\ documents t !! i = None.
Proof.
  unfold insertOne. destruct (int4 (documents_id_seq t)) eqn:Hint; simpl; [|done].
  destruct (accepts d); simpl; [|done].
  case_bool_decide; [|done]. by intros [= <- <-].
Qed.

Lemma int4_room t n : room t (S n) -> int4 (documents_id_seq t) = true.
Proof. unfold room, int4. intros [Hlo Hhi]. apply andb_true_iff. lia. Qed.

Lemma insertAll_Some ds : forall t acc ids t',
  insertAll t ds acc = (Some ids, t') ->
  length ids = (length acc + length ds)%nat /\
  (forall j x, acc !! j = Some x -> ids !! j = Some x) /\
  documents_id_seq t' = documents_id_seq t + Z.of_nat (length ds) /\
  (forall k, k < documents_id_seq t -> documents t' !! k = documents t !! k) /\
  (forall j d, ds !! j = Some d ->
     let i := documents_id_seq t + Z.of_nat j in
     ids !! (length acc + j)%nat = Some i /\
     documents t' !! i = Some (rowOf i d) /\
     (i, n_embedding d) ∈ embeddings t') /\
  (forall row, row ∈ embeddings t -> row ∈ embeddings t') /\
  Forall (fun d => accepts d = true) ds.
Proof.
  induction ds as [|d ds IH]; intros t acc ids t' H; simpl in H.
  - inversion H; subst ids t'.
    split; [simpl; lia|]. split; [done|]. split; [simpl; lia|].
    split; [done|]. split; [done|]. by split.
  - destruct (insertOne t d) as [[i|] t1] eqn:Hone; [|done].
    apply insertOne_Some in Hone as (-> & Hacc & Hdocs & Hemb & Hseq).
    destruct (IH _ _ _ _ H) as (Hlen & Hpre & Hseq' & Hold & Hnew & Hkeep & Hall).
    rewrite length_app in Hlen. simpl in Hlen.
    split; [simpl; lia|].
    split.
    { intros j x Hj. apply Hpre. by apply lookup_app_l_Some. }
    split; [rewrite Hseq', Hseq; simpl; lia|].
    split.
    { intros k Hk. rewrite Hold by lia. rewrite Hdocs.
      apply lookup_insert_ne. lia. }
    split.
    { intros [|j] d' Hj; simpl in Hj.
      - inversion Hj; subst d'. simpl. rewrite Z.add_0_r, Nat.add_0_r.
        split.
        + apply Hpre. rewrite lookup_app_r by lia.
          by rewrite Nat.sub_diag.
        + split.
          * rewrite Hold by lia. rewrite Hdocs. apply lookup_insert_eq.
          * apply Hkeep. rewrite Hemb. apply elem_of_app. right.
            apply list_elem_of_singleton. done.
      - destruct (Hnew j d' Hj) as (Hid & Hrow & Hin). simpl in *.
        rewrite Hseq in Hid, Hrow, Hin.
        replace (documents_id_seq t + Z.of_nat (S j))
          with (documents_id_seq t + 1 + Z.of_nat j) by lia.
        rewrite length_app in Hid. simpl in Hid.
        replace (length acc + S j)%nat with (length acc + 1 + j)%nat by lia.
        done. }
    split.
    { intros row Hrow. apply Hkeep. rewrite Hemb.
      apply elem_of_app. by left. }
    by constructor.
Qed.

(** A transaction that commits returns one id for each document, in the
    order of the documents, and each id is the key of the row of its
    document and of its embedding. *)
Lemma transaction_Ok t ds ids t' :
  transaction t ds = (Ok ids, t') ->
  length ids = length ds /\
  (forall j d, ds !! j = Some d ->
     exists i, ids !! j = Some i /\
               documents t' !! i = Some (rowOf i d) /\
               (i, n_embedding d) ∈ embeddings t').
Proof.
  unfold transaction.
  destruct (insertAll t ds []) as [[ids'|] t1] eqn:Hall; [|done].
  intros [= <- <-].
  destruct (insertAll_Some _ _ _ _ _ Hall) as (Hlen & _ & _ & _ & Hnew & _).
  split; [done|].
  intros j d Hj. destruct (Hnew j d Hj) as (Hid & Hrow & Hin).
  eexists. split; [exact Hid|]. done.
Qed.

(** A transaction that rolls back leaves both tables as they were. *)
Lemma transaction_Throw t ds e t' :
  transaction t ds = (Throw e, t') ->
  documents t' = documents t /\ embeddings t' = embeddings t.
Proof.
  unfold transaction. destruct (insertAll t ds []) as [[ids'|] t1]; [done|].
  by intros [= _ <-].
Qed.

Lemma insertAll_succeeds ds : forall t acc,
  fresh t -> room t (length ds) -> Forall (fun d => accepts d = true) ds ->
  exists ids t', insertAll t ds acc = (Some ids, t').
Proof.
  induction ds as [|d ds IH]; intros t acc Hfresh Hroom Hall; simpl; [eauto|].
  apply Forall_cons in Hall as [Hd Hall].
  unfold insertOne. rewrite (int4_room _ _ Hroom), Hd. simpl.
  rewrite bool_decide_eq_true_2 by (apply Hfresh; lia).
  apply IH; [| |done].
  - intros k Hk. simpl in *.
    rewrite lookup_insert_ne by lia. apply Hfresh. lia.
  - destruct Hroom as [Hlo Hhi]. split; simpl in *; lia.
Qed.

(** On tables whose sequence is ahead of the stored keys and has ids left
    for them, a transaction of acceptable documents commits. *)
Lemma transaction_succeeds t ds :
  fresh t -> room t (length ds) -> Forall (fun d => accepts d = true) ds ->
  exists ids t', transaction t ds = (Ok ids, t').
Proof.
  intros Hfresh Hroom Hall. unfold transaction.
  destruct (insertAll_succeeds ds t [] Hfresh Hroom Hall) as (ids & t' & ->). eauto.
Qed.

End Store.

End StoreFacts.

(** ** The retrieval pipeline *)

Module RagFacts.
Import Rag StoreFacts.

(** *** Reasoning about computations *)

Lemma bind_inv {A B} (m : M A) (k : A -> M B) w r w' :
  bind m k w = (r, w') ->
  (exists a w0, m w = (Ok a, w0) /\ k a w0 = (r, w')) \/
  (exists e, m w = (Throw e, w') /\ r = Throw e).
Proof.
  unfold bind. destruct (m w) as [[a|e] w0]; intros H.
  - left. eauto.
  - right. inversion H. eauto.
Qed.

Lemma framed_refl w : framed w w.
Proof. by split. Qed.

Lemma framed_trans w1 w2 w3 : framed w1 w2 -> framed w2 w3 -> framed w1 w3.
Proof. intros [] []. split; congruence. Qed.

(** *** buildContext *)

Lemma formatResult_entry index m : formatResult index m = entry (S index) m.
Proof.
  unfold formatResult, entry, sourceSuffix.
  replace (Z.of_nat index + 1) with (Z.of_nat (S index)) by lia.
  destruct (r_source m) as [[|c s]|]; done.
Qed.

Lemma imap_formatResult k results :
  imap (fun index => formatResult (k + index)) results = entriesFrom (S k) results.
Proof.
  revert k. induction results as [|m rest IH]; intros k; [done|].
  simpl. rewrite Nat.add_0_r, formatResult_entry. f_equal.
  rewrite <- (IH (S k)). apply imap_ext. intros i x _. simpl.
  by rewrite Nat.add_succ_r.
Qed.

(** C8, as the code has it. For one match or more the context is the
    matches joined in rank order, each as ["[i] <content> [Source:
    <sourceURL>]"] with the suffix left out when the match has no source
    URL; for no match it is the sentence ['No relevant context found.'],
    not the empty join. *)
Theorem buildContext_joins results :
  (results <> [] -> buildContext results = joinedContext results) /\
  buildContext [] = "No relevant context found."%string.
Proof.
  split; [|done]. intros Hne. unfold buildContext, joinedContext.
  destruct results as [|m rest]; [done|]. simpl length. simpl Nat.eqb. cbv iota.
  f_equal. apply (imap_formatResult 0).
Qed.

(** *** averageSimilarity *)

Lemma fold_left_similarity results acc :
  fold_left (fun sum r => (sum + similarity r)%float) results acc
  = fold_left PrimFloat.add (map similarity results) acc.
Proof.
  revert acc. induction results as [|r rest IH]; intros acc; [done|]. apply IH.
Qed.

Lemma averageSimilarityOf_mean results :
  results <> [] -> averageSimilarityOf results = mean (map similarity results).
Proof.
  intros Hne. unfold averageSimilarityOf, mean, lengthNumber.
  destruct results as [|r rest]; [done|].
  rewrite length_map. simpl Nat.ltb. cbv iota. by rewrite fold_left_similarity.
Qed.

Lemma map_similarity_withoutMetadata results :
  map similarity (map withoutMetadata results) = map similarity results.
Proof. rewrite map_map. by apply map_ext. Qed.

(** *** Batches *)

Lemma slice_take_drop {A} i size (l : list A) :
  slice i (i + size) l = take size (drop i l).
Proof. unfold slice. f_equal. lia. Qed.

Lemma forBatches_frame {A} (process : list string -> M (list A)) size texts :
  (forall batch w r w', process batch w = (r, w') -> framed w w') ->
  forall fuel i results w r w',
    forBatches fuel size texts i results process w = (r, w') -> framed w w'.
Proof.
  intros Hp fuel. induction fuel as [|fuel IH]; intros i results w r w' H; simpl in H.
  - destruct (i <? length texts)%nat; inversion H; apply framed_refl.
  - destruct (i <? length texts)%nat; [|inversion H; apply framed_refl].
    apply bind_inv in H as [(a & w0 & Hb & H)|(e & Hb & _)].
    + eapply framed_trans; [eapply Hp; exact Hb|eapply IH; exact H].
    + eapply Hp; exact Hb.
Qed.

Lemma startAll_frame {A} (ps : list (M A)) :
  Forall (fun p => forall w r w', p w = (r, w') -> framed w w') ps ->
  forall w rs w', startAll ps w = (rs, w') -> framed w w'.
Proof.
  induction 1 as [|p ps Hp _ IH]; intros w rs w' H; simpl in H.
  - inversion H. apply framed_refl.
  - destruct (p w) as [r w1] eqn:Hr. destruct (startAll ps w1) as [rs' w2] eqn:Hrs.
    inversion H; subst. eapply framed_trans; [eapply Hp|eapply IH]; eauto.
Qed.

Lemma promiseAll_frame {A} (ps : list (M A)) w r w' :
  Forall (fun p => forall w r w', p w = (r, w') -> framed w w') ps ->
  promiseAll ps w = (r, w') -> framed w w'.
Proof.
  intros Hps. unfold promiseAll. destruct (startAll ps w) as [rs w1] eqn:Hrs.
  intros H. assert (w' = w1) as -> by (destruct (omap rejection rs); by inversion H).
  eapply startAll_frame; eauto.
Qed.

(** *** Pairing documents with embeddings *)

Lemma withEmbeddings_Ok documents : forall index embeddings l,
  withEmbeddings documents index embeddings = Ok l ->
  length l = length documents /\
  (forall j doc, documents !! j = Some doc ->
     exists er, embeddings !! (index + j)%nat = Some er /\
                l !! j = Some (mkNewDocument (d_content doc) (embedding er)
                                 (d_metadata doc) (d_source doc))).
Proof.
  induction documents as [|doc rest IH]; intros index embeddings l H; simpl in H.
  - inversion H. split; [done|]. intros j d Hj. done.
  - destruct (embeddings !! index) as [er|] eqn:Her; [|done].
    destruct (withEmbeddings rest (S index) embeddings) as [l'|] eqn:Hrest; [|done].
    inversion H; subst l. destruct (IH _ _ _ Hrest) as [Hlen Hj].
    split; [simpl; lia|]. intros [|j] d Hd; simpl in Hd.
    + inversion Hd; subst d. exists er. by rewrite Nat.add_0_r.
    + destruct (Hj j d Hd) as (er' & Her' & Hl). exists er'.
      split; [|done]. by replace (index + S j)%nat with (S index + j)%nat by lia.
Qed.

Lemma withEmbeddings_total documents : forall index embeddings,
  (index + length documents <= length embeddings)%nat ->
  exists l, withEmbeddings documents index embeddings = Ok l.
Proof.
  induction documents as [|doc rest IH]; intros index embeddings Hlen; simpl; [eauto|].
  simpl in Hlen.
  destruct (lookup_lt_is_Some_2 embeddings index ltac:(lia)) as [er ->].
  destruct (IH (S index) embeddings ltac:(lia)) as [l ->]. eauto.
Qed.

Section AgentFacts.

Variable E : Env.

Local Abbreviation embedLocal := (Rag.embedLocal E).
Local Abbreviation embeds := (Rag.embeds E).
Local Abbreviation embedded := (Rag.embedded E).
Local Abbreviation acceptable := (Rag.acceptable E).

Lemma batchInsertDocuments_Ok nds w ids w' :
  batchInsertDocuments E nds w = (Ok ids, w') ->
  transaction (accepts E) (drawsId E) (tables w) nds = (Ok ids, tables w').
Proof.
  unfold batchInsertDocuments. unfoldM.
  destruct (dbConnects E); simpl; [|done].
  destruct (transaction (accepts E) (drawsId E) (tables w) nds) as [[ids'|e] t'].
  - by intros [= <- <-].
  - done.
Qed.

Lemma batchInsertDocuments_Throw nds w e w' :
  batchInsertDocuments E nds w = (Throw e, w') ->
  documents (tables w') = documents (tables w) /\
  embeddings (tables w') = embeddings (tables w).
Proof.
  unfold batchInsertDocuments. unfoldM.
  destruct (dbConnects E); simpl; [|by intros [= _ <-]].
  destruct (transaction (accepts E) (drawsId E) (tables w) nds) as [[ids'|e'] t'] eqn:Ht.
  - done.
  - intros [= _ <-]. simpl. by apply transaction_Throw in Ht.
Qed.

Lemma batchInsertDocuments_succeeds nds w :
  dbConnects E = true ->
  fresh (tables w) ->
  room (tables w) (length nds) ->
  Forall (fun d => accepts E d = true) nds ->
  exists ids w', batchInsertDocuments E nds w = (Ok ids, w').
Proof.
  intros Hdb Hfresh Hroom Hall. unfold batchInsertDocuments. unfoldM.
  rewrite Hdb. simpl.
  destruct (transaction_succeeds (accepts E) (drawsId E) (tables w) nds
              Hfresh Hroom Hall) as (ids & t' & ->). eauto.
Qed.

Lemma embeddingInitialize_frame w r w' :
  embeddingInitialize E w = (r, w') -> framed w w'.
Proof.
  unfold embeddingInitialize. unfoldM.
  repeat case_match; intros; simplify_eq; by split.
Qed.

Lemma generateEmbedding_frame text w r w' :
  generateEmbedding E text w = (r, w') -> framed w w'.
Proof.
  unfold generateEmbedding, openaiGenerateEmbedding, embeddingInitialize. unfoldM.
  repeat case_match; intros; simplify_eq; by split.
Qed.

Lemma searchSimilar_frame q k th w r w' :
  searchSimilar E q k th w = (r, w') -> framed w w'.
Proof.
  unfold searchSimilar. unfoldM.
  repeat case_match; intros; simplify_eq; by split.
Qed.

Lemma redisGet_spec key w r w' :
  redisGet E key w = (r, w') ->
  framed w w' /\
  r = Ok (if redisConnected w && redisAnswers E then redisStore w !! key else None) /\
  io w' = io w ++ (if redisConnected w then [RedisGet key] else []).
Proof.
  unfold redisGet. unfoldM.
  repeat case_match; intros; simplify_eq; simpl;
    (split; [by split|]); split; by rewrite ?app_nil_r.
Qed.

Lemma redisSet_spec key value w r w' :
  redisSet E key value w = (r, w') ->
  r = Ok tt /\
  agentInitialized w' = agentInitialized w /\
  redisConnected w' = redisConnected w /\
  tables w' = tables w /\
  redisStore w' = (if redisConnected w && redisAnswers E
                   then <[key := value]> (redisStore w) else redisStore w).
Proof.
  unfold redisSet. unfoldM.
  destruct (redisConnected w) eqn:Hc, (redisAnswers E); simpl;
    intros; simplify_eq; by simpl.
Qed.

Lemma ensureInitialized_spec w r w' :
  ensureInitialized E w = (r, w') ->
  redisStore w' = redisStore w /\ tables w' = tables w /\ crawler w' = crawler w /\
  (r = Ok tt -> agentInitialized w' = true) /\
  (agentInitialized w = true -> r = Ok tt /\ w' = w).
Proof.
  unfold ensureInitialized, initialize, redisConnect, embeddingInitialize,
    initializeSchema. unfoldM.
  repeat case_match; intros; simplify_eq; simpl; repeat split; done.
Qed.

(** A call of [query] that returns either found its result in the cache
    or assembled it and, the cache permitting, stored it. *)
Lemma query_Ok text options w r w' :
  query E text options w = (Ok r, w') ->
  agentInitialized w' = true /\ tables w' = tables w /\
  ((redisConnected w' && redisAnswers E = true /\
    redisStore w !! cacheKeyOf text (topKOf E options) = Some r /\
    redisStore w' = redisStore w)
   \/ (exists er results,
         r = assemble text options er results /\
         redisStore w' =
           if redisConnected w' && redisAnswers E
           then <[cacheKeyOf text (topKOf E options) := r]> (redisStore w)
           else redisStore w)).
Proof.
  unfold query. intros H.
  apply bind_inv in H as [(u & w0 & Hinit & H)|(e & _ & ?)]; [|done].
  destruct (ensureInitialized_spec _ _ _ Hinit) as (Hs0 & Ht0 & _ & Hi0 & _).
  destruct u. specialize (Hi0 eq_refl).
  apply bind_inv in H as [(cached & w1 & Hget & H)|(e & _ & ?)]; [|done].
  destruct (redisGet_spec _ _ _ _ Hget) as ([Ha1 Hc1 Hs1 Ht1 _] & Hcached & _).
  inversion Hcached as [Hc]; clear Hcached.
  destruct cached as [hit|].
  - unfold ret in H. inversion H; subst hit w'.
    split; [congruence|]. split; [congruence|]. left.
    rewrite Hc1. destruct (redisConnected w0 && redisAnswers E); [|done].
    split; [done|]. split; congruence.
  - unfold tryCatch in H.
    match type of H with context [bind ?m ?k w1] =>
      destruct (bind m k w1) as [[r'|e] w2] eqn:Hm end;
      [|unfold throw in H; done].
    inversion H; subst r' w2. clear H.
    apply bind_inv in Hm as [(er & wa & Hemb & Hm)|(e & _ & ?)]; [|done].
    apply bind_inv in Hm as [(results & wb & Hsearch & Hm)|(e & _ & ?)]; [|done].
    apply bind_inv in Hm as [(u & wc & Hset & Hm)|(e & _ & ?)]; [|done].
    unfold ret in Hm. inversion Hm; subst wc. clear Hm.
    destruct (generateEmbedding_frame _ _ _ _ Hemb) as [Ha2 Hc2 Hs2 Ht2 _].
    destruct (searchSimilar_frame _ _ _ _ _ _ Hsearch) as [Ha3 Hc3 Hs3 Ht3 _].
    destruct (redisSet_spec _ _ _ _ _ Hset) as (_ & Ha4 & Hc4 & Ht4 & Hs4).
    split; [congruence|]. split; [congruence|]. right.
    exists er, results. split; [done|].
    rewrite Hs4, Hc4, Hs3, Hs2, Hs1, Hs0. done.
Qed.

(** A cache hit: the stored result is returned as it is, and the
    look-up is the only interaction. *)
Lemma query_hit text options w hit :
  agentInitialized w = true ->
  redisConnected w = true ->
  redisAnswers E = true ->
  redisStore w !! cacheKeyOf text (topKOf E options) = Some hit ->
  exists w',
    query E text options w = (Ok hit, w') /\
    framed w w' /\
    io w' = io w ++ [RedisGet (cacheKeyOf text (topKOf E options))].
Proof.
  intros Hinit Hconn Hans Hhit.
  unfold query, ensureInitialized, redisGet. unfoldM.
  rewrite Hinit, Hconn, Hans. simpl. rewrite Hhit.
  eexists. split; [done|]. split; [by split|done].
Qed.

(** C2. The cache key is computed from the query text and [topK] alone.
    Hence, with a connected cache, (1) when an entry is stored under the
    key, two successive calls return that entry whatever their thresholds
    (and [includeMetadata] flags) are, and (2) after any call that
    returned, a second call with the same text and [topK] returns the
    same result for every threshold: it is read back from the cache, the
    vector store is not searched again and the result is not filtered. *)
Theorem query_cache_ignores_threshold text k th1 th2 im1 im2 w :
  cacheKeyOf text (topKOf E (mkOptions k th1 im1))
    = cacheKeyOf text (topKOf E (mkOptions k th2 im2)) /\
  (forall hit,
     agentInitialized w = true -> redisConnected w = true -> redisAnswers E = true ->
     redisStore w !! cacheKeyOf text (topKOf E (mkOptions k th1 im1)) = Some hit ->
     exists w1 w2,
       query E text (mkOptions k th1 im1) w = (Ok hit, w1) /\
       query E text (mkOptions k th2 im2) w1 = (Ok hit, w2) /\
       framed w w2) /\
  (forall r w1,
     query E text (mkOptions k th1 im1) w = (Ok r, w1) ->
     redisConnected w1 = true -> redisAnswers E = true ->
     exists w2,
       query E text (mkOptions k th2 im2) w1 = (Ok r, w2) /\
       framed w1 w2 /\
       io w2 = io w1 ++ [RedisGet (cacheKeyOf text (topKOf E (mkOptions k th2 im2)))]).
Proof.
  split; [done|]. split.
  - intros hit Hinit Hconn Hans Hhit.
    destruct (query_hit text (mkOptions k th1 im1) w hit) as (w1 & Hq1 & Hf1 & _);
      [done..|].
    destruct Hf1 as [Ha Hc Hs Ht Hcr].
    destruct (query_hit text (mkOptions k th2 im2) w1 hit) as (w2 & Hq2 & Hf2 & _);
      [congruence..| |].
    { rewrite Hs. exact Hhit. }
    exists w1, w2. split; [done|]. split; [done|].
    eapply framed_trans; [|exact Hf2]. by split.
  - intros r w1 Hq1 Hconn Hans.
    destruct (query_Ok _ _ _ _ _ Hq1) as (Hinit & _ & Hcase).
    apply (query_hit text (mkOptions k th2 im2) w1 r); [done..|].
    rewrite Hconn, Hans in Hcase. simpl in Hcase.
    destruct Hcase as [(_ & Hhit & ->)|(er & results & _ & ->)]; [exact Hhit|].
    apply lookup_insert_eq.
Qed.

Lemma assemble_coherent text options er results :
  coherent (assemble text options er results).
Proof.
  unfold coherent, assemble. simpl.
  destruct (default true (includeMetadata options)).
  - split.
    + intros ->. done.
    + apply averageSimilarityOf_mean.
  - split.
    + intros Hnil. apply fmap_nil_inv in Hnil. subst results. done.
    + intros Hne. rewrite map_similarity_withoutMetadata.
      apply averageSimilarityOf_mean. by intros ->.
Qed.

(** C7. Every result that [query] returns reports an average similarity
    of 0 (which is not NaN) when it has no match, and the arithmetic mean
    of the similarities of its matches otherwise; this holds of the
    results it assembles, hence of the results it reads back from a
    cache that holds such results, and the cache stays that way. *)
Theorem query_average_similarity text options w r w' :
  (forall key hit, redisStore w !! key = Some hit -> coherent hit) ->
  query E text options w = (Ok r, w') ->
  (q_results r = [] ->
   averageSimilarity (q_metadata r) = 0%float /\
   PrimFloat.is_nan (averageSimilarity (q_metadata r)) = false) /\
  (q_results r <> [] ->
   averageSimilarity (q_metadata r) = mean (map similarity (q_results r))) /\
  (forall key hit, redisStore w' !! key = Some hit -> coherent hit).
Proof.
  intros Hcache Hq.
  destruct (query_Ok _ _ _ _ _ Hq) as (_ & _ & [(_ & Hhit & Hs)|(er & results & -> & Hs)]).
  - destruct (Hcache _ _ Hhit) as [H0 Hmean].
    split; [done|]. split; [done|]. rewrite Hs. done.
  - destruct (assemble_coherent text options er results) as [H0 Hmean].
    split; [done|]. split; [done|]. rewrite Hs.
    intros key hit. destruct (_ && _); [|apply Hcache].
    rewrite lookup_insert. case_decide.
    + intros [= <-]. apply assemble_coherent.
    + apply Hcache.
Qed.

Lemma trimIsEmpty_rejected text w :
  JS.trimIsEmpty text = true ->
  generateEmbedding E text w = (Throw TextEmpty, w).
Proof.
  intros Hblank. unfold generateEmbedding. by rewrite Hblank, orb_true_r.
Qed.

(** C3, as the code has it. An empty (or blank) query text is rejected
    by the embedding service, after the cache was looked up: with an
    initialised agent and no cache entry under the key of the call, the
    call throws ['RAG query failed: Error: Text cannot be empty'], the
    look-up is the only interaction it makes, and neither the embedding
    provider nor the vector store is called. *)
Theorem query_empty_text text options w :
  JS.trimIsEmpty text = true ->
  agentInitialized w = true ->
  redisStore w !! cacheKeyOf text (topKOf E options) = None ->
  exists w',
    query E text options w = (Throw (QueryFailed TextEmpty), w') /\
    io w' = io w ++ (if redisConnected w
                     then [RedisGet (cacheKeyOf text (topKOf E options))]
                     else []) /\
    tables w' = tables w /\ redisStore w' = redisStore w.
Proof.
  intros Hblank Hinit Hmiss. unfold query, ensureInitialized, redisGet. unfoldM.
  rewrite Hinit. simpl.
  destruct (redisConnected w) eqn:Hconn; simpl.
  - destruct (redisAnswers E); simpl.
    + rewrite Hmiss. rewrite trimIsEmpty_rejected by done.
      eexists. split; [done|]. by simpl.
    + rewrite trimIsEmpty_rejected by done.
      eexists. split; [done|]. by simpl.
  - rewrite trimIsEmpty_rejected by done.
    eexists. split; [done|]. by rewrite app_nil_r.
Qed.

(** *** The embedding service on a batch *)

Lemma processBatch_frame texts w r w' :
  processBatch E texts w = (r, w') -> framed w w'.
Proof.
  unfold processBatch. unfoldM.
  repeat case_match; intros; simplify_eq; by split.
Qed.

Lemma generateEmbeddings_frame texts w r w' :
  generateEmbeddings E texts w = (r, w') -> framed w w'.
Proof.
  unfold generateEmbeddings, openaiGenerateEmbeddings.
  destruct (length texts =? 0)%nat; [intros [= _ <-]; apply framed_refl|].
  destruct (EMBEDDING_PROVIDER E).
  - intros H.
    apply bind_inv in H as [(b & w0 & Hg & H)|(e & Hg & _)]; [|by inversion Hg].
    inversion Hg; subst b w0. clear Hg.
    apply bind_inv in H as [(u & w0 & Hinit & H)|(e & Hinit & _)].
    + eapply framed_trans.
      * unfold unless in Hinit. destruct (embeddingInitialized w).
        -- inversion Hinit. apply framed_refl.
        -- eapply embeddingInitialize_frame. exact Hinit.
      * eapply forBatches_frame; [|exact H].
        intros batch w1 r1 w1' Hp. eapply promiseAll_frame; [|exact Hp].
        apply Forall_forall. intros p Hin.
        apply list_elem_of_fmap in Hin as (text & -> & _).
        intros ? ? ?. apply generateEmbedding_frame.
    + unfold unless in Hinit. destruct (embeddingInitialized w); [by inversion Hinit|].
      eapply embeddingInitialize_frame. exact Hinit.
  - destruct (length texts <=? maxBatchSize)%nat.
    + apply processBatch_frame.
    + apply forBatches_frame. intros ? ? ? ?. apply processBatch_frame.
Qed.

Lemma generateEmbedding_local text w :
  EMBEDDING_PROVIDER E = ProviderLocal ->
  embeddingInitialized w = true ->
  exists w', generateEmbedding E text w = (embedLocal text, w') /\
             framed w w' /\ embeddingInitialized w' = true.
Proof.
  intros Hp Hi. unfold generateEmbedding, embedLocal.
  destruct (_ || _); [exists w; by repeat split|].
  rewrite Hp. unfoldM. rewrite Hi. simpl.
  destruct (model E text); eexists; (split; [done|]); by repeat split.
Qed.

Lemma startAll_local batch : forall w,
  EMBEDDING_PROVIDER E = ProviderLocal ->
  embeddingInitialized w = true ->
  exists w', startAll (map (generateEmbedding E) batch) w = (map embedLocal batch, w') /\
             framed w w' /\ embeddingInitialized w' = true.
Proof.
  induction batch as [|text batch IH]; intros w Hp Hi; simpl.
  - exists w. split; [done|]. split; [apply framed_refl|done].
  - destruct (generateEmbedding_local text w Hp Hi) as (w1 & -> & Hf1 & Hi1).
    destruct (IH w1 Hp Hi1) as (w2 & -> & Hf2 & Hi2).
    exists w2. split; [done|]. split; [by eapply framed_trans|done].
Qed.

Lemma settle_embeds batch :
  forallb embeds batch = true ->
  omap rejection (map embedLocal batch) = [] /\
  omap fulfilment (map embedLocal batch) = omap embedded batch.
Proof.
  induction batch as [|text batch IH]; simpl; [done|].
  intros H. apply andb_true_iff in H as [Ht Hb]. destruct (IH Hb) as [IH1 IH2].
  unfold embeds, embedded in *. destruct (embedLocal text); [|done]. simpl.
  split; [exact IH1|]. f_equal. exact IH2.
Qed.

Lemma settle_rejects batch :
  forallb embeds batch = false ->
  omap rejection (map embedLocal batch) <> [].
Proof.
  induction batch as [|text batch IH]; simpl; [done|].
  intros H. apply andb_false_iff in H. unfold embeds in *.
  destruct (embedLocal text); simpl; [|done].
  destruct H as [?|H]; [done|]. by apply IH.
Qed.

Lemma promiseAll_local batch w :
  EMBEDDING_PROVIDER E = ProviderLocal ->
  embeddingInitialized w = true ->
  exists w',
    framed w w' /\ embeddingInitialized w' = true /\
    if forallb embeds batch
    then promiseAll (map (generateEmbedding E) batch) w = (Ok (omap embedded batch), w')
    else exists e, promiseAll (map (generateEmbedding E) batch) w = (Throw e, w').
Proof.
  intros Hp Hi. destruct (startAll_local batch w Hp Hi) as (w' & Hs & Hf & Hi').
  exists w'. split; [done|]. split; [done|]. unfold promiseAll. rewrite Hs.
  destruct (forallb embeds batch) eqn:Hall.
  - destruct (settle_embeds batch Hall) as [-> ->]. done.
  - apply settle_rejects in Hall.
    destruct (omap rejection (map embedLocal batch)); [done|]. eauto.
Qed.

Lemma forBatches_local size texts :
  EMBEDDING_PROVIDER E = ProviderLocal ->
  (0 < size)%nat ->
  forall fuel i results w,
    (length texts <= i + fuel)%nat ->
    embeddingInitialized w = true ->
    exists w',
      framed w w' /\
      if forallb embeds (drop i texts)
      then forBatches fuel size texts i results
             (fun batch => promiseAll (map (generateEmbedding E) batch)) w
           = (Ok (results ++ omap embedded (drop i texts)), w')
      else exists e,
             forBatches fuel size texts i results
               (fun batch => promiseAll (map (generateEmbedding E) batch)) w
             = (Throw e, w').
Proof.
  intros Hp Hsize fuel. induction fuel as [|fuel IH]; intros i results w Hfuel Hi.
  - exists w. split; [apply framed_refl|]. simpl.
    rewrite (proj2 (Nat.ltb_ge _ _)) by lia.
    rewrite drop_ge by lia. simpl. by rewrite app_nil_r.
  - simpl. destruct (Nat.ltb_spec i (length texts)) as [Hlt|Hge].
    + rewrite slice_take_drop. set (rest := drop i texts).
      assert (Hsplit : forallb embeds rest
                       = forallb embeds (take size rest) && forallb embeds (drop size rest)).
      { rewrite <- forallb_app. by rewrite take_drop. }
      destruct (promiseAll_local (take size rest) w Hp Hi) as (w1 & Hf1 & Hi1 & Hb).
      destruct (IH (i + size)%nat (results ++ omap embedded (take size rest)) w1
                  ltac:(lia) Hi1) as (w2 & Hf2 & Hrec).
      replace (drop (i + size) texts) with (drop size rest) in Hrec
        by (unfold rest; apply drop_drop).
      rewrite Hsplit. unfold bind.
      destruct (forallb embeds (take size rest)); simpl.
      * rewrite Hb. exists w2. split; [by eapply framed_trans|].
        destruct (forallb embeds (drop size rest)).
        -- rewrite Hrec. rewrite <- app_assoc, <- omap_app. by rewrite take_drop.
        -- done.
      * destruct Hb as (e & ->). exists w1. split; [done|]. eauto.
    + exists w. split; [apply framed_refl|].
      rewrite drop_ge by lia. simpl. by rewrite app_nil_r.
Qed.

Lemma embedded_lookup texts j text :
  forallb embeds texts = true ->
  texts !! j = Some text ->
  exists er, omap embedded texts !! j = Some er.
Proof.
  revert j. induction texts as [|t texts IH]; intros j Hall Hj; [done|].
  simpl in Hall. apply andb_true_iff in Hall as [Ht Hall].
  unfold embeds in Ht. unfold embedded at 1. simpl.
  destruct (embedLocal t) as [er|]; [|done]. simpl.
  destruct j as [|j]; simpl in *; [eauto|]. by apply IH.
Qed.

Lemma embedded_length texts :
  forallb embeds texts = true -> length (omap embedded texts) = length texts.
Proof.
  induction texts as [|t texts IH]; [done|]. simpl.
  intros Hall. apply andb_true_iff in Hall as [Ht Hall].
  unfold embeds in Ht. unfold embedded at 1.
  destruct (embedLocal t) as [er|]; [|done]. simpl. f_equal. by apply IH.
Qed.

(** With the local provider, a batch of texts that the model embeds gives
    one embedding for each text, in the order of the texts, however the
    batch is cut into chunks. *)
Lemma generateEmbeddings_local_Ok texts w :
  EMBEDDING_PROVIDER E = ProviderLocal ->
  texts <> [] ->
  embeddingInitialized w = true ->
  forallb embeds texts = true ->
  exists w', generateEmbeddings E texts w = (Ok (omap embedded texts), w') /\
             framed w w'.
Proof.
  intros Hp Hne Hi Hall.
  destruct (forBatches_local (Pos.to_nat (MAX_BATCH_SIZE E)) texts Hp
              ltac:(lia) (length texts) 0%nat [] w ltac:(lia) Hi)
    as (w' & Hf & Hrun).
  rewrite drop_0, Hall in Hrun. simpl app in Hrun.
  exists w'. split; [|done]. unfold generateEmbeddings.
  destruct (length texts =? 0)%nat eqn:Hlen.
  { apply Nat.eqb_eq, nil_length_inv in Hlen. by subst texts. }
  rewrite Hp. unfold bind at 1, gets. unfold bind at 1. rewrite Hi.
  unfold unless, ret. exact Hrun.
Qed.

(** With the local provider, one text that is blank or that the model
    fails on makes the whole batch fail. *)
Lemma generateEmbeddings_local_Throw texts w :
  EMBEDDING_PROVIDER E = ProviderLocal ->
  forallb embeds texts = false ->
  exists e w', generateEmbeddings E texts w = (Throw e, w') /\ framed w w'.
Proof.
  intros Hp Hbad.
  assert (exists e w', generateEmbeddings E texts w = (Throw e, w')) as (e & w' & H).
  { unfold generateEmbeddings.
    destruct (length texts =? 0)%nat eqn:Hlen.
    { apply Nat.eqb_eq, nil_length_inv in Hlen. by subst texts. }
    rewrite Hp. unfold bind at 1, gets. unfold bind at 1.
    destruct (unless (embeddingInitialized w) (embeddingInitialize E) w)
      as [[u|e] w0] eqn:Hinit; [|eauto].
    assert (Hi0 : embeddingInitialized w0 = true).
    { revert Hinit. unfold unless, embeddingInitialize. rewrite Hp.
      destruct (embeddingInitialized w) eqn:Hi.
      - intros H. inversion H. by subst w0.
      - unfoldM. rewrite Hi. simpl.
        destruct (modelLoads E); intros H; inversion H. by subst w0. }
    destruct (forBatches_local (Pos.to_nat (MAX_BATCH_SIZE E)) texts Hp
                ltac:(lia) (length texts) 0%nat [] w0 ltac:(lia) Hi0)
      as (w' & Hf & Hrun).
    rewrite drop_0, Hbad in Hrun. destruct Hrun as (e & Hrun). eauto. }
  exists e, w'. split; [done|]. by eapply generateEmbeddings_frame.
Qed.

(** *** addDocuments *)

Lemma addDocuments_initialized documents w :
  agentInitialized w = true ->
  addDocuments E documents w =
  (embeddings <- generateEmbeddings E (map d_content documents) ;;
   match withEmbeddings documents 0 embeddings with
   | Throw e => throw e
   | Ok documentsWithEmbeddings => batchInsertDocuments E documentsWithEmbeddings
   end) w.
Proof.
  intros Hinit. unfold addDocuments, ensureInitialized.
  unfold bind at 1. unfold bind at 1. unfold gets, unless. by rewrite Hinit.
Qed.

(** C10. [addDocuments([])] throws: with an initialised agent the error is
    ['Texts array cannot be empty'] of the embedding service, raised before
    anything is sent to a provider (the call makes no interaction at all).
    Hence [indexWebsite] throws whenever its crawl returns no page; in both
    cases the tables stay as they were. *)
Theorem addDocuments_empty_throws :
  (forall w,
     exists e w',
       addDocuments E [] w = (Throw e, w') /\ tables w' = tables w /\
       (agentInitialized w = true -> e = TextsEmpty /\ io w' = io w)) /\
  (forall fuel url options w run,
     Firecrawl.crawlWebsite (http E) (hostname E) fuel (crawler w) url options = Some run ->
     Firecrawl.outcome run = Ok [] ->
     exists e w',
       indexWebsite E fuel url options w = Some (Throw e, w') /\ tables w' = tables w).
Proof.
  assert (Hempty : forall w,
             exists e w',
               addDocuments E [] w = (Throw e, w') /\ tables w' = tables w /\
               (agentInitialized w = true -> e = TextsEmpty /\ io w' = io w)).
  { intros w. unfold addDocuments. unfold bind at 1.
    destruct (ensureInitialized E w) as [[u|e] w0] eqn:Hinit.
    - destruct (ensureInitialized_spec _ _ _ Hinit) as (_ & Ht & _ & _ & Hsame).
      exists TextsEmpty, w0. split; [done|]. split; [done|].
      intros Hi. destruct (Hsame Hi) as [_ ->]. done.
    - destruct (ensureInitialized_spec _ _ _ Hinit) as (_ & Ht & _ & _ & Hsame).
      exists e, w0. split; [done|]. split; [done|].
      intros Hi. by destruct (Hsame Hi). }
  split; [exact Hempty|].
  intros fuel url options w run Hrun Hout. unfold indexWebsite.
  destruct (ensureInitialized E w) as [[u|e] w0] eqn:Hinit.
  - destruct (ensureInitialized_spec _ _ _ Hinit) as (_ & Ht & Hc & _ & _).
    unfold crawl. rewrite Hc, Hrun, Hout. simpl pagesToDocuments. unfold bind.
    match goal with |- context [addDocuments E [] ?w2] =>
      destruct (Hempty w2) as (e & w' & Hadd & Ht' & _) end.
    exists e, w'. rewrite Hadd. split; [done|]. by rewrite Ht'.
  - destruct (ensureInitialized_spec _ _ _ Hinit) as (_ & Ht & _).
    exists e, w0. done.
Qed.

End AgentFacts.

End RagFacts.

(** ** Runs of the pipeline on the small deployment *)

Module DemoRuns.
Import Rag RagFacts Demo.

(** *** query *)

(** Against C3 as stated: the empty query is rejected only after the cache
    was asked for ["rag:query::5"]. *)
Lemma empty_query_reads_cache_first :
  fst (query E "" noOptions w0) = Throw (QueryFailed TextEmpty) /\
  io (snd (query E "" noOptions w0)) = [RedisGet "rag:query::5"].
Proof. split; vm_compute; reflexivity. Qed.

Lemma query_empty_text_witness :
  JS.trimIsEmpty "" = true /\
  agentInitialized w0 = true /\
  redisStore w0 !! cacheKeyOf "" (topKOf E noOptions) = None /\
  exists w',
    query E "" noOptions w0 = (Throw (QueryFailed TextEmpty), w') /\
    io w' = io w0 ++ (if redisConnected w0
                      then [RedisGet (cacheKeyOf "" (topKOf E noOptions))]
                      else []) /\
    tables w' = tables w0 /\ redisStore w' = redisStore w0.
Proof.
  assert (H1 : JS.trimIsEmpty "" = true) by reflexivity.
  assert (H2 : agentInitialized w0 = true) by reflexivity.
  assert (H3 : redisStore w0 !! cacheKeyOf "" (topKOf E noOptions) = None)
    by (vm_compute; reflexivity).
  split; [exact H1|]. split; [exact H2|]. split; [exact H3|].
  exact (query_empty_text E "" noOptions w0 H1 H2 H3).
Defined.

(** An entry under the key of the empty query is returned to the empty
    query: whether the call is rejected depends on the look-up. *)
Example empty_query_on_a_hit hit :
  fst (query E "" noOptions
         (mkWorld true true {[ "rag:query::5"%string := hit ]} true noTables Web.idle []))
  = Ok hit.
Proof.
  destruct (query_hit E "" noOptions
              (mkWorld true true {[ "rag:query::5"%string := hit ]} true noTables
                 Web.idle []) hit) as (w' & -> & _); reflexivity.
Qed.

Lemma first_call : query E "hello" (options 2 0) w0 = (Ok answer, w1).
Proof. vm_compute. reflexivity. Qed.

(** The second call asks for a similarity of at least 0.75, which no document
    has: on the cache left by the first call it still returns both. *)
Lemma query_cache_ignores_threshold_witness :
  query E "hello" (options 2 0) w0 = (Ok answer, w1) /\
  redisConnected w1 = true /\
  redisAnswers E = true /\
  exists w2,
    query E "hello" (options 2 0.75) w1 = (Ok answer, w2) /\
    framed w1 w2 /\
    io w2 = io w1 ++ [RedisGet (cacheKeyOf "hello" (topKOf E (options 2 0.75)))].
Proof.
  assert (H1 : query E "hello" (options 2 0) w0 = (Ok answer, w1))
    by (vm_compute; reflexivity).
  assert (H2 : redisConnected w1 = true) by (vm_compute; reflexivity).
  assert (H3 : redisAnswers E = true) by reflexivity.
  split; [exact H1|]. split; [exact H2|]. split; [exact H3|].
  destruct (query_cache_ignores_threshold E "hello" (Some 2) (Some 0%float)
              (Some 0.75%float) None None w0) as (_ & _ & H).
  exact (H answer w1 H1 H2 H3).
Defined.

(** The same call on an empty cache finds nothing. *)
Example threshold_on_cold_cache :
  q_results <$> fulfilment (fst (query E "hello" (options 2 0.75) w0)) = Some [].
Proof. vm_compute. reflexivity. Qed.

Lemma query_average_similarity_witness :
  (forall key hit, redisStore w0 !! key = Some hit -> coherent hit) /\
  query E "hello" (options 2 0) w0 = (Ok answer, w1) /\
  averageSimilarity (q_metadata answer) = mean (map similarity (q_results answer)) /\
  averageSimilarity (q_metadata answer) = 0.375%float.
Proof.
  assert (H1 : forall key hit, redisStore w0 !! key = Some hit -> coherent hit).
  { intros key hit H. simpl in H. rewrite lookup_empty in H. discriminate H. }
  assert (H2 : query E "hello" (options 2 0) w0 = (Ok answer, w1))
    by (vm_compute; reflexivity).
  split; [exact H1|]. split; [exact H2|].
  destruct (query_average_similarity E "hello" (options 2 0) w0 answer w1 H1 H2)
    as (_ & Hmean & _).
  split; [|reflexivity]. apply Hmean. discriminate.
Defined.

(** No match: the average is 0. *)
Example average_of_no_match :
  averageSimilarity <$> (q_metadata <$> fulfilment (fst (query E "hello" (options 2 0.75) w0)))
  = Some 0%float.
Proof. vm_compute. reflexivity. Qed.

(** *** buildContext *)

Example context_of_two :
  buildContext [rowA; rowB]
  = ("[1] alpha [Source: https://example.test/]" +:+ blankLine +:+ "[2] beta")%string.
Proof. vm_compute. reflexivity. Qed.

Lemma buildContext_joins_witness :
  [rowA; rowB] <> [] /\ buildContext [rowA; rowB] = joinedContext [rowA; rowB].
Proof.
  assert (H : [rowA; rowB] <> []) by discriminate.
  split; [exact H|].
  destruct (buildContext_joins [rowA; rowB]) as [Hjoin _]. exact (Hjoin H).
Defined.

(** Against C8 as stated: for no match the context is a sentence, the join
    of no entry is the empty string. *)
Lemma context_of_no_match :
  buildContext [] = "No relevant context found."%string /\
  joinedContext [] = ""%string /\
  buildContext [] <> joinedContext [].
Proof. split; [reflexivity|]. split; [reflexivity|]. discriminate. Qed.

(** *** addDocuments and indexWebsite *)

(** Three documents, embedded in chunks of two, get the ids 1, 2, 3. *)
Example three_documents :
  fst (addDocuments E docs3 w0) = Ok [1; 2; 3] /\
  content <$> (documents (tables (snd (addDocuments E docs3 w0))) !! 2)
  = Some "two"%string.
Proof. split; vm_compute; reflexivity. Qed.


(** Scenario C of the specification: a document without content is
    rejected before anything is sent to the embedding provider. *)
Example empty_document :
  fst (addDocument E (mkInput "" None None) w0) = Throw TextEmpty /\
  io (snd (addDocument E (mkInput "" None None) w0)) = [].
Proof. split; vm_compute; reflexivity. Qed.

(** A crawl that returns no page makes [indexWebsite] throw. *)
Example index_of_nothing :
  fst <$> indexWebsite E 10 Web.malformed Firecrawl.noOptions w0
  = Some (Throw TextsEmpty).
Proof. vm_compute. reflexivity. Qed.

Lemma addDocuments_empty_throws_witness :
  Firecrawl.crawlWebsite (http E) (hostname E) 10 (crawler w0) Web.malformed
    Firecrawl.noOptions = Some Web.runMalformed /\
  Firecrawl.outcome Web.runMalformed = Ok [] /\
  exists e w',
    indexWebsite E 10 Web.malformed Firecrawl.noOptions w0 = Some (Throw e, w') /\
    tables w' = tables w0.
Proof.
  assert (H1 : Firecrawl.crawlWebsite (http E) (hostname E) 10 (crawler w0)
                 Web.malformed Firecrawl.noOptions = Some Web.runMalformed)
    by (vm_compute; reflexivity).
  assert (H2 : Firecrawl.outcome Web.runMalformed = Ok []) by reflexivity.
  split; [exact H1|]. split; [exact H2|].
  destruct (addDocuments_empty_throws E) as [_ H].
  exact (H 10%nat Web.malformed Firecrawl.noOptions w0 Web.runMalformed H1 H2).
Defined.

End DemoRuns.

(** ** Lists without repetitions *)

Module JSFacts.

Lemma uniqueFrom_spec l : forall seen,
  NoDup (JS.uniqueFrom seen l) /\
  (forall x, x ∈ JS.uniqueFrom seen l <-> x ∈ l /\ x ∉ seen) /\
  JS.uniqueFrom seen l `sublist_of` l.
Proof.
  induction l as [|y l IH]; intros seen; simpl.
  - split; [constructor|]. split; [|done].
    intros x. rewrite elem_of_nil. tauto.
  - destruct (decide (y ∈ seen)) as [Hin|Hout].
    + destruct (IH seen) as (Hnd & Hmem & Hsub). split; [done|]. split.
      * intros x. rewrite Hmem, elem_of_cons. split; [tauto|].
        intros [[->|Hx] Hs]; [done|tauto].
      * by apply sublist_cons.
    + destruct (IH ({[y]} ∪ seen)) as (Hnd & Hmem & Hsub). split; [|split].
      * constructor; [|done]. rewrite Hmem. intros [_ Hy]. apply Hy.
        apply elem_of_union_l. by apply elem_of_singleton.
      * intros x. rewrite !elem_of_cons, Hmem, elem_of_union, elem_of_singleton.
        destruct (decide (x = y)) as [->|Hxy]; intuition congruence.
      * by apply sublist_skip.
Qed.

End JSFacts.

(** ** Further properties of the crawl engine *)

Module CrawlMore.
Import Firecrawl CrawlNotions CrawlFacts.

Section Engine.

Variable http : string -> option Extracted.
Variable hostname : string -> option string.

Local Abbreviation scrapePage := (Firecrawl.scrapePage http).
Local Abbreviation children := (Firecrawl.children hostname).
Local Abbreviation loopStep := (Firecrawl.loopStep http hostname).
Local Abbreviation crawlLoop := (Firecrawl.crawlLoop http hostname).
Local Abbreviation crawlWebsite := (Firecrawl.crawlWebsite http hostname).
Local Abbreviation Inv := (Firecrawl.Inv http hostname).

(** One iteration, case by case, with the conditions under which each case
    is taken. *)
Lemma loopStep_spec maxD maxP incl excl s :
  loopStep maxD maxP incl excl s = Exit s \/
  exists t rest,
    queue s = t :: rest /\ Z.of_nat (length (results s)) < maxP /\
    (loopStep maxD maxP incl excl s
       = Continue (mkLoop (visited s) (results s) rest (fetches s))
     \/ ((t_url t ∉ visited s) /\ t_depth t <= maxD /\ inScope incl excl (t_url t) /\
         ((scrapePage (t_url t) = None /\
           loopStep maxD maxP incl excl s
             = Continue (mkLoop ({[t_url t]} ∪ visited s) (results s) rest
                           (fetches s ++ [(t, None)])))
          \/ exists page,
               scrapePage (t_url t) = Some page /\
               ((maxD <= t_depth t /\
                 loopStep maxD maxP incl excl s
                   = Continue (mkLoop ({[t_url t]} ∪ visited s) (results s ++ [page])
                                 rest (fetches s ++ [(t, Some page)])))
                \/ (t_depth t < maxD /\
                    exists base,
                      hostname (t_url t) = Some base /\
                      loopStep maxD maxP incl excl s
                        = Continue (mkLoop ({[t_url t]} ∪ visited s) (results s ++ [page])
                                      (rest ++ children base (t_depth t) page)
                                      (fetches s ++ [(t, Some page)])))
                \/ (t_depth t < maxD /\ hostname (t_url t) = None /\
                    loopStep maxD maxP incl excl s
                      = Raise InvalidURL
                          (mkLoop ({[t_url t]} ∪ visited s) (results s ++ [page])
                             rest (fetches s ++ [(t, Some page)]))))))).
Proof.
  unfold Firecrawl.loopStep. destruct (queue s) as [|t rest] eqn:Eq; [by left|].
  destruct (Z.ltb_spec (Z.of_nat (length (results s))) maxP); simpl; [|by left].
  right. exists t, rest. do 2 (split; [done|]).
  destruct (decide (t_url t ∈ visited s)); [by left|].
  destruct (Z.ltb_spec maxD (t_depth t)); [by left|].
  destruct (existsb _ excl) eqn:Hexcl; [by left|].
  destruct (_ && _) eqn:Hincl; [by left|].
  right. do 2 (split; [done|]). split.
  { split; [done|]. apply andb_false_iff in Hincl as [Hlen|Hsome].
    - left. apply Z.ltb_ge in Hlen. destruct incl; [done|]. simpl in Hlen. lia.
    - right. by apply negb_false_iff in Hsome. }
  destruct (Firecrawl.scrapePage http (t_url t)) as [page|] eqn:Epage; [|by left].
  right. exists page. split; [done|].
  destruct (Z.ltb_spec (t_depth t) maxD).
  - destruct (hostname (t_url t)) as [base|] eqn:Ebase.
    + right. left. split; [done|]. by exists base.
    + right. right. done.
  - left. done.
Qed.

Ltac step_cases maxD maxP incl excl s :=
  let t := fresh "t" in
  let rest := fresh "rest" in
  let page := fresh "page" in
  let base := fresh "base" in
  let Eq := fresh "Eq" in
  let Hlt := fresh "Hlt" in
  let Hnew := fresh "Hnew" in
  let Hd := fresh "Hd" in
  let Hscope := fresh "Hscope" in
  let Hpage := fresh "Hpage" in
  let Hdeep := fresh "Hdeep" in
  let Hbase := fresh "Hbase" in
  destruct (loopStep_spec maxD maxP incl excl s)
    as [->|(t & rest & Eq & Hlt &
            [->|(Hnew & Hd & Hscope &
                 [[Hpage ->]
                 |(page & Hpage &
                   [[Hdeep ->]
                   |[(Hdeep & base & Hbase & ->)
                    |(Hdeep & Hbase & ->)]])])])];
  simpl.

Lemma crawlWebsite_invariant (I : LoopState -> Prop) fuel this seed options r :
  I (initial this seed) ->
  (forall s, I s ->
     I (stateOf (loopStep (maxDepthOf options) (maxPagesOf options)
                   (includePathsOf options) (excludePathsOf options) s))) ->
  crawlWebsite fuel this seed options = Some r ->
  exists s, I s /\ trace r = fetches s /\
            (outcome r = Ok (results s) \/ exists e, outcome r = Throw e).
Proof.
  intros H0 Hstep Hrun.
  destruct (crawlLoop_invariant http hostname I _ _ _ _ Hstep _ _ _ H0 Hrun)
    as (s & HI & _ & Htr & Hout).
  eauto.
Qed.

(** *** No page twice *)

Lemma pages_of_fetches (fs : list Fetch) :
  Forall (fun f => snd f = scrapePage (t_url (fst f))) fs ->
  map url (omap snd fs) `sublist_of` fetchedUrls fs /\
  Forall (fun p => scrapePage (url p) = Some p) (omap snd fs).
Proof.
  induction 1 as [|[t o] fs Hf _ [IH1 IH2]]; simpl; [by split|].
  simpl in Hf. destruct o as [page|]; simpl.
  - assert (Hurl : url page = t_url t).
    { unfold Firecrawl.scrapePage in Hf. destruct (http (t_url t)); [|done].
      by inversion Hf. }
    split.
    + rewrite Hurl. by apply sublist_skip.
    + constructor; [by rewrite Hurl|done].
  - split; [by apply sublist_cons|done].
Qed.

(** *** The path filters *)

(** X2. Every URL that a crawl passes to [scrapePage], the seed included, has
    got through the path filters. *)
Theorem crawl_respects_filters fuel this seed options r :
  crawlWebsite fuel this seed options = Some r ->
  Forall (inScope (includePathsOf options) (excludePathsOf options))
         (fetchedUrls (trace r)).
Proof.
  intros Hrun.
  set (I := fun s : LoopState =>
              Forall (inScope (includePathsOf options) (excludePathsOf options))
                     (fetchedUrls (fetches s))).
  assert (Hstep : forall s, I s ->
            I (stateOf (loopStep (maxDepthOf options) (maxPagesOf options)
                          (includePathsOf options) (excludePathsOf options) s))).
  { intros s HI. unfold I in *.
    step_cases (maxDepthOf options) (maxPagesOf options)
               (includePathsOf options) (excludePathsOf options) s;
      try done;
      unfold fetchedUrls; rewrite map_app; apply Forall_app; split; try done;
      (constructor; [assumption|constructor]). }
  destruct (crawlWebsite_invariant I fuel this seed options r ltac:(constructor) Hstep Hrun)
    as (s & HI & -> & _).
  exact HI.
Qed.

(** *** Level order *)

Lemma nondecreasing_snoc l d :
  nondecreasing l -> Forall (fun x => x <= d) l -> nondecreasing (l ++ [d]).
Proof.
  induction l as [|x l IH]; simpl; [by repeat constructor|].
  intros [Hx Hl] Hd. apply Forall_cons in Hd as [Hxd Hd]. split.
  - apply Forall_app. split; [done|]. by repeat constructor.
  - by apply IH.
Qed.

Lemma children_depth base d page :
  Forall (fun t => t_depth t = d + 1 /\ t_url t ∈ links page) (children base d page).
Proof.
  unfold Firecrawl.children. apply Forall_map, Forall_forall.
  intros link Hin. apply list_elem_of_filter in Hin as [_ Hin]. by simpl.
Qed.

Lemma levelled_head s t rest :
  levelled s -> queue s = t :: rest ->
  exists q1 q2,
    rest = q1 ++ q2 /\
    Forall (fun u => t_depth u = t_depth t) q1 /\
    Forall (fun u => t_depth u = t_depth t + 1) q2 /\
    Forall (fun x => x <= t_depth t) (fetchDepths (fetches s)) /\
    nondecreasing (fetchDepths (fetches s)).
Proof.
  intros (d & q1 & q2 & Hq & H1 & H2 & Hle & Hsorted) Eq. rewrite Eq in Hq.
  destruct q1 as [|u q1]; simpl in Hq.
  - subst q2. apply Forall_cons in H2 as [Ht H2]. exists rest, [].
    rewrite app_nil_r. split; [done|]. split.
    { eapply Forall_impl; [exact H2|]. simpl. intros; lia. }
    split; [constructor|]. split; [|done].
    eapply Forall_impl; [exact Hle|]. simpl. intros; lia.
  - inversion Hq; subst u rest. apply Forall_cons in H1 as [Ht H1]. subst d.
    exists q1, q2. done.
Qed.

Lemma levelled_step maxD maxP incl excl s :
  levelled s -> levelled (stateOf (loopStep maxD maxP incl excl s)).
Proof.
  intros Hlev.
  step_cases maxD maxP incl excl s; try done;
    destruct (levelled_head s _ _ Hlev ltac:(eassumption))
      as (q1 & q2 & -> & H1 & H2 & Hle & Hsorted).
  - by exists (t_depth t), q1, q2.
  - exists (t_depth t), q1, q2. cbn [queue fetches]. unfold fetchDepths. rewrite map_app. simpl.
    repeat split; try done.
    + apply Forall_app. split; [done|]. repeat constructor. lia.
    + by apply nondecreasing_snoc.
  - exists (t_depth t), q1, q2. cbn [queue fetches]. unfold fetchDepths. rewrite map_app. simpl.
    repeat split; try done.
    + apply Forall_app. split; [done|]. repeat constructor. lia.
    + by apply nondecreasing_snoc.
  - exists (t_depth t), q1, (q2 ++ children base (t_depth t) page).
    cbn [queue fetches]. unfold fetchDepths. rewrite map_app. simpl.
    split; [by rewrite app_assoc|]. split; [done|]. split.
    { apply Forall_app. split; [done|].
      eapply Forall_impl; [apply children_depth|]. by intros u [? _]. }
    split.
    + apply Forall_app. split; [done|]. repeat constructor. lia.
    + by apply nondecreasing_snoc.
  - exists (t_depth t), q1, q2. cbn [queue fetches]. unfold fetchDepths. rewrite map_app. simpl.
    repeat split; try done.
    + apply Forall_app. split; [done|]. repeat constructor. lia.
    + by apply nondecreasing_snoc.
Qed.

(** X3. A crawl visits the site level by level: along the calls of
    [scrapePage], hence along the returned pages, the depth never
    decreases. *)
Theorem crawl_level_order fuel this seed options r :
  crawlWebsite fuel this seed options = Some r ->
  nondecreasing (fetchDepths (trace r)).
Proof.
  intros Hrun.
  assert (H0 : levelled (initial this seed)).
  { exists 0, [mkTask seed 0], []. simpl. by repeat constructor. }
  destruct (crawlWebsite_invariant levelled fuel this seed options r H0
              (fun s => levelled_step _ _ _ _ s) Hrun)
    as (s & (d & q1 & q2 & _ & _ & _ & _ & Hsorted) & -> & _).
  exact Hsorted.
Qed.

(** *** Only links are followed *)

Lemma foundFrom_mono seed fs fs' t :
  foundFrom seed fs t -> foundFrom seed (fs ++ fs') t.
Proof.
  intros [->|(parent & page & Hin & Hd & Hl)]; [by left|].
  right. exists parent, page. split; [|done]. apply elem_of_app. by left.
Qed.

Lemma linked_step seed maxD maxP incl excl s :
  linked seed s -> linked seed (stateOf (loopStep maxD maxP incl excl s)).
Proof.
  intros [Hq Hf].
  step_cases maxD maxP incl excl s; try done;
    rewrite Eq in Hq; apply Forall_cons in Hq as [Ht Hq].
  - by split.
  - split.
    + eapply Forall_impl; [exact Hq|]. intros ?. apply foundFrom_mono.
    + apply Forall_app. split.
      * eapply Forall_impl; [exact Hf|]. simpl. intros ?. apply foundFrom_mono.
      * constructor; [|constructor]. simpl. by apply foundFrom_mono.
  - split.
    + eapply Forall_impl; [exact Hq|]. intros ?. apply foundFrom_mono.
    + apply Forall_app. split.
      * eapply Forall_impl; [exact Hf|]. simpl. intros ?. apply foundFrom_mono.
      * constructor; [|constructor]. simpl. by apply foundFrom_mono.
  - split.
    + apply Forall_app. split.
      * eapply Forall_impl; [exact Hq|]. intros ?. apply foundFrom_mono.
      * eapply Forall_impl; [apply children_depth|]. simpl. intros u [Hdu Hlu].
        right. exists t, page. split; [|done].
        apply elem_of_app. right. by apply list_elem_of_singleton.
    + apply Forall_app. split.
      * eapply Forall_impl; [exact Hf|]. simpl. intros ?. apply foundFrom_mono.
      * constructor; [|constructor]. simpl. by apply foundFrom_mono.
  - split.
    + eapply Forall_impl; [exact Hq|]. intros ?. apply foundFrom_mono.
    + apply Forall_app. split.
      * eapply Forall_impl; [exact Hf|]. simpl. intros ?. apply foundFrom_mono.
      * constructor; [|constructor]. simpl. by apply foundFrom_mono.
Qed.

Lemma linked_initial this seed : linked seed (initial this seed).
Proof. split; simpl; repeat constructor. Qed.

(** X4. A crawl fetches nothing but the seed and what it finds among the links
    of a fetched page, one level below that page. *)
Theorem crawl_follows_links fuel this seed options r :
  crawlWebsite fuel this seed options = Some r ->
  Forall (fun f => foundFrom seed (trace r) (fst f)) (trace r).
Proof.
  intros Hrun.
  destruct (crawlWebsite_invariant (linked seed) fuel this seed options r
              (linked_initial this seed) (fun s => linked_step seed _ _ _ _ s) Hrun)
    as (s & [_ Hf] & -> & _).
  exact Hf.
Qed.

(** *** Budgets that leave nothing to do *)

Lemma crawlLoop_empty_queue fuel maxD maxP incl excl vis res fs r :
  crawlLoop fuel maxD maxP incl excl (mkLoop vis res [] fs) = Some r ->
  r = mkRun (Ok res) (mkService vis) fs.
Proof. destruct fuel; [done|]. simpl. by intros [= <-]. Qed.

(** X5. With a page budget of 0 or less, or with a negative depth limit, a
    crawl returns no page and fetches nothing, not even the seed. *)
Theorem crawl_empty_budget fuel this seed options r :
  maxPagesOf options <= 0 \/ maxDepthOf options < 0 ->
  crawlWebsite fuel this seed options = Some r ->
  outcome r = Ok [] /\ trace r = [] /\ visitedUrls (engine r) = ∅.
Proof.
  unfold Firecrawl.crawlWebsite.
  generalize (maxDepthOf options) (maxPagesOf options)
             (includePathsOf options) (excludePathsOf options).
  intros maxD maxP incl excl Hbudget Hrun.
  destruct fuel as [|fuel]; [done|]. simpl in Hrun.
  unfold Firecrawl.loopStep, initial in Hrun. simpl in Hrun.
  destruct (Z.ltb_spec (Z.of_nat 0) maxP) as [HP|HP]; simpl in Hrun;
    [|by inversion Hrun].
  destruct (decide (seed ∈ (∅ : gset string))) as [Hin|_];
    [by apply not_elem_of_empty in Hin|].
  destruct (Z.ltb_spec maxD 0) as [HD|HD]; [|simpl in HP; lia].
  apply crawlLoop_empty_queue in Hrun. by subst r.
Qed.

(** *** A crawl of a seed that parses does not throw *)

Lemma crawlLoop_returns (I : LoopState -> Prop) maxD maxP incl excl :
  (forall s, I s -> I (stateOf (loopStep maxD maxP incl excl s))) ->
  (forall s e s', I s -> loopStep maxD maxP incl excl s <> Raise e s') ->
  forall fuel s r,
    I s -> crawlLoop fuel maxD maxP incl excl s = Some r ->
    exists pages, outcome r = Ok pages.
Proof.
  intros Hstep Hsafe fuel. induction fuel as [|fuel IH]; intros s r Hs Hrun; [done|].
  simpl in Hrun. specialize (Hstep s Hs). specialize (Hsafe s).
  destruct (Firecrawl.loopStep http hostname maxD maxP incl excl s) as [s'|s'|e s'].
  - by apply (IH s').
  - inversion Hrun. simpl. eauto.
  - by destruct (Hsafe e s' Hs).
Qed.

(** X6. When the URL parser accepts the seed, a crawl returns a list of pages
    whatever the network does: a page that cannot be fetched is left out,
    and no URL that reaches [new URL] is rejected by it. *)
Theorem crawl_never_throws fuel this seed options r :
  is_Some (hostname seed) ->
  crawlWebsite fuel this seed options = Some r ->
  exists pages, outcome r = Ok pages.
Proof.
  intros [h Hseed].
  apply (crawlLoop_returns (Inv seed (maxDepthOf options) (maxPagesOf options)));
    [apply Inv_step| |apply Inv_initial].
  intros s e s' HI Hraise.
  destruct HI as [_ _ _ _ Hq _].
  destruct (loopStep_spec (maxDepthOf options) (maxPagesOf options)
              (includePathsOf options) (excludePathsOf options) s)
    as [Hx|(t & rest & Eq & _ &
            [Hx|(_ & _ & _ &
                 [[_ Hx]|(page & _ & [[_ Hx]|[(_ & base & _ & Hx)|(_ & Hbad & _)]])])])];
    try congruence.
  rewrite Eq in Hq. apply Forall_cons in Hq as [[Hhost _] _]. congruence.
Qed.

(** *** Depth 0 *)

(** X7. With [maxDepth = 0] a crawl fetches at most the seed: no link is
    followed. *)
Theorem crawl_depth_zero fuel this seed options r :
  maxDepthOf options = 0 ->
  crawlWebsite fuel this seed options = Some r ->
  trace r = [] \/ exists o, trace r = [(mkTask seed 0, o)].
Proof.
  intros Hzero Hrun.
  set (I := fun s => Inv seed (maxDepthOf options) (maxPagesOf options) s /\ linked seed s).
  assert (Hstep : forall s, I s ->
            I (stateOf (loopStep (maxDepthOf options) (maxPagesOf options)
                          (includePathsOf options) (excludePathsOf options) s))).
  { intros s [H1 H2]. split; [by apply Inv_step|by apply linked_step]. }
  destruct (crawlWebsite_invariant I fuel this seed options r
              (conj (Inv_initial http hostname this seed _ _) (linked_initial this seed))
              Hstep Hrun)
    as (s & [HI [_ Hlinked]] & -> & _).
  destruct HI as [_ _ _ Hnd _ Hf]. rewrite Hzero in Hf.
  assert (Hseed : Forall (fun f => fst f = mkTask seed 0) (fetches s)).
  { apply Forall_forall. intros f Hin.
    rewrite Forall_forall in Hlinked, Hf.
    destruct (Hlinked f Hin) as [?|(parent & page & Hp & Hd & _)]; [done|].
    destruct (Hf f Hin) as (_ & Hdf & _).
    destruct (Hf _ Hp) as (_ & Hdp & _). simpl in *. lia. }
  destruct (fetches s) as [|[t o] [|[t' o'] fs]]; [by left|right; eauto|].
  - apply Forall_cons in Hseed as [Ht _]. simpl in Ht. subst t. eauto.
  - apply Forall_cons in Hseed as [Ht Hseed].
    apply Forall_cons in Hseed as [Ht' _]. simpl in *. subst t t'.
    apply NoDup_cons in Hnd as [Hnotin _]. simpl in Hnotin.
    exfalso. apply Hnotin. apply list_elem_of_here.
Qed.

End Engine.

(** *** The links of a scraped page *)

Section Page.

Variable http : string -> option Extracted.

Local Abbreviation scrapePage := (Firecrawl.scrapePage http).

(** X8. A scraped page carries the URL it was asked for, and its links are the
    resolved [href]s of the page with the repetitions removed: the same
    URLs, each once, in the order of the page. *)
Theorem scrapePage_links u page :
  scrapePage u = Some page ->
  url page = u /\
  NoDup (links page) /\
  exists e, http u = Some e /\
    (forall x, x ∈ links page <-> x ∈ e_hrefs e) /\
    links page `sublist_of` e_hrefs e.
Proof.
  unfold Firecrawl.scrapePage. destruct (http u) as [e|]; [|done].
  intros [= <-]. simpl.
  destruct (JSFacts.uniqueFrom_spec (e_hrefs e) ∅) as (Hnd & Hmem & Hsub).
  split; [done|]. split; [done|]. exists e. split; [done|]. split; [|done].
  intros x. unfold JS.unique. rewrite Hmem. split; [tauto|].
  intros Hx. split; [done|]. apply not_elem_of_empty.
Qed.

End Page.

End CrawlMore.

(** ** Calls of [crawlWebsite] that overlap *)

Module OverlapFacts.
Import Firecrawl Overlap CrawlFacts CrawlMore.

Section Engine.

Variable http : string -> option Extracted.
Variable hostname : string -> option string.

Local Abbreviation scrapePage := (Firecrawl.scrapePage http).
Local Abbreviation loopStep := (Firecrawl.loopStep http hostname).
Local Abbreviation crawlLoop := (Firecrawl.crawlLoop http hostname).
Local Abbreviation crawlWebsite := (Firecrawl.crawlWebsite http hostname).
Local Abbreviation upToAwait := (Overlap.upToAwait http hostname).
Local Abbreviation turn := (Overlap.turn http hostname).
Local Abbreviation advance := (Overlap.advance http hostname).
Local Abbreviation step := (Overlap.step http hostname).
Local Abbreviation run := (Overlap.run http hostname).
Local Abbreviation undisturbed := (Overlap.undisturbed http hostname).
Local Abbreviation recorded := (Overlap.recorded http).
Local Abbreviation recordedCall := (Overlap.recordedCall http).
Local Abbreviation recordedAt := (Overlap.recordedAt http).

Local Abbreviation stepOf options s :=
  (loopStep (maxDepthOf options) (maxPagesOf options)
     (includePathsOf options) (excludePathsOf options) s).

(** *** A turn *)

(** An iteration that does not call [scrapePage] takes a task off the
    queue. *)
Lemma loopStep_skip options s s' :
  stepOf options s = Continue s' ->
  (length (fetches s) <? length (fetches s'))%nat = false ->
  S (length (queue s')) = length (queue s).
Proof.
  intros Hst Hsame.
  destruct (loopStep_cases http hostname (maxDepthOf options) (maxPagesOf options)
              (includePathsOf options) (excludePathsOf options) s)
    as [Heq|(t & rest & Eq & Hlt & [Heq|(_ & _ & q' & Heq & _)])];
    rewrite Hst in Heq; simpl in Heq.
  - subst s'.
    destruct (loopStep_progress http hostname _ _ _ _ _ _ Hst)
      as [_ [Hgrow|[_ Hshort]]]; [lia|done].
  - subst s'. by rewrite Eq.
  - subst s'. simpl in Hsame. rewrite length_app in Hsame. simpl in Hsame.
    apply Nat.ltb_ge in Hsame. lia.
Qed.

(** The fuel of a turn is enough. *)
Lemma upToAwait_total options fuel s :
  (length (queue s) < fuel)%nat -> is_Some (upToAwait fuel options s).
Proof.
  revert s. induction fuel as [|fuel IH]; intros s Hfuel; [lia|].
  simpl. destruct (stepOf options s) as [s'|s'|e s'] eqn:Est; [|done..].
  destruct (length (fetches s) <? length (fetches s'))%nat eqn:Hgrow; [done|].
  apply IH. pose proof (loopStep_skip _ _ _ Est Hgrow). lia.
Qed.

Lemma turn_total options s : is_Some (turn options s).
Proof.
  unfold Overlap.turn.
  destruct (upToAwait_total options (S (length (queue s))) s ltac:(lia))
    as [st ->].
  by destruct st.
Qed.

(** A schedule is run to its end. *)
Lemma run_total schedule p : is_Some (run schedule p).
Proof.
  revert p. induction schedule as [|k rest IH]; intros p; simpl; [done|].
  unfold Overlap.step. destruct (calls p !! k) as [c|]; [|apply IH].
  assert (is_Some (advance (service p) c)) as [[this' c'] ->]; [|apply IH].
  destruct c; simpl; [apply turn_total..|done].
Qed.

Lemma turn_inv options s this' c' :
  turn options s = Some (this', c') ->
  exists st,
    upToAwait (S (length (queue s))) options s = Some st /\
    this' = mkService (visited (stateOf st)) /\
    c' = after options st.
Proof.
  unfold Overlap.turn.
  destruct (upToAwait (S (length (queue s))) options s) as [[s'|s'|e s']|];
    [| | |done]; intros [= <- <-]; eauto.
Qed.

(** A property that every iteration preserves holds when the turn ends. *)
Lemma upToAwait_invariant (I : LoopState -> Prop) options :
  (forall s, I s -> I (stateOf (stepOf options s))) ->
  forall fuel s st, I s -> upToAwait fuel options s = Some st -> I (stateOf st).
Proof.
  intros Hstep. induction fuel as [|fuel IH]; intros s st Hs Hrun; [done|].
  simpl in Hrun. specialize (Hstep s Hs).
  destruct (stepOf options s) as [s'|s'|e s'] eqn:Est; simpl in Hstep.
  - destruct (length (fetches s) <? length (fetches s'))%nat.
    + by inversion Hrun.
    + by apply (IH s').
  - by inversion Hrun.
  - by inversion Hrun.
Qed.

(** *** What a call keeps whatever the other calls do *)

Lemma recorded_step options s :
  recorded s -> recorded (stateOf (stepOf options s)).
Proof.
  intros [Hres Hf].
  destruct (loopStep_cases http hostname (maxDepthOf options) (maxPagesOf options)
              (includePathsOf options) (excludePathsOf options) s)
    as [->|(t & rest & Eq & Hlt & [->|(_ & _ & q' & -> & _)])]; [done..|].
  split; simpl.
  - rewrite omap_app, <- Hres. simpl. by destruct (scrapePage (t_url t)).
  - apply Forall_app. split; [done|]. by repeat constructor.
Qed.

Lemma marked_step options s :
  marked s -> marked (stateOf (stepOf options s)).
Proof.
  intros [Hnd Hin].
  destruct (loopStep_cases http hostname (maxDepthOf options) (maxPagesOf options)
              (includePathsOf options) (excludePathsOf options) s)
    as [->|(t & rest & Eq & Hlt & [->|(Hnew & _ & q' & -> & _)])]; [done..|].
  split; simpl; unfold fetchedUrls; rewrite map_app; simpl.
  - apply NoDup_app. split; [done|]. split; [|apply NoDup_singleton].
    intros u Hu Hu'. apply list_elem_of_singleton in Hu' as ->. by apply Hnew, Hin.
  - intros u Hu. apply elem_of_app in Hu as [Hu|Hu].
    + apply elem_of_union_r. by apply Hin.
    + apply list_elem_of_singleton in Hu as ->.
      apply elem_of_union_l. by apply elem_of_singleton.
Qed.

(** An iteration takes nothing out of the visited set. *)
Lemma kept_step (X : list string) options s :
  (forall u, u ∈ X -> u ∈ visited s) ->
  forall u, u ∈ X -> u ∈ visited (stateOf (stepOf options s)).
Proof.
  intros Hin.
  destruct (loopStep_cases http hostname (maxDepthOf options) (maxPagesOf options)
              (includePathsOf options) (excludePathsOf options) s)
    as [->|(t & rest & Eq & Hlt & [->|(_ & _ & q' & -> & _)])]; [done..|].
  simpl. intros u Hu. apply elem_of_union_r. by apply Hin.
Qed.

Lemma after_recorded options st :
  recorded (stateOf st) -> recordedCall (after options st).
Proof.
  destruct st as [s'|s'|e s']; intros [Hres Hf]; simpl in *; split; try done.
  by intros pages [= <-].
Qed.

Lemma after_marked options st :
  marked (stateOf st) ->
  markedCall (mkService (visited (stateOf st))) (after options st).
Proof. destruct st as [s'|s'|e s']; intros [Hnd Hin]; simpl in *; done. Qed.

Lemma advance_recorded this c this' c' :
  recordedCall c -> advance this c = Some (this', c') -> recordedCall c'.
Proof.
  destruct c as [u options|l|o fs]; simpl; intros Hc Hadv.
  - apply turn_inv in Hadv as (st & Hst & _ & ->).
    apply after_recorded.
    eapply (upToAwait_invariant recorded options (recorded_step options));
      [|exact Hst].
    by split.
  - apply turn_inv in Hadv as (st & Hst & _ & ->).
    apply after_recorded.
    eapply (upToAwait_invariant recorded (c_options l)
              (recorded_step (c_options l))); [|exact Hst].
    exact Hc.
  - by inversion Hadv; subst.
Qed.

Lemma advance_marked this c this' c' :
  markedCall this c -> advance this c = Some (this', c') -> markedCall this' c'.
Proof.
  destruct c as [u options|l|o fs]; simpl; intros Hc Hadv.
  - apply turn_inv in Hadv as (st & Hst & -> & ->).
    apply after_marked.
    eapply (upToAwait_invariant marked options (marked_step options));
      [|exact Hst].
    split; [constructor|]. by intros ? ?%elem_of_nil.
  - apply turn_inv in Hadv as (st & Hst & -> & ->).
    apply after_marked.
    eapply (upToAwait_invariant marked (c_options l)
              (marked_step (c_options l))); [|exact Hst].
    exact Hc.
  - by inversion Hadv; subst.
Qed.

(** A call that does not start leaves in the field what it found there. *)
Lemma advance_keeps this c this' c' (X : list string) :
  starts (Some c) = false ->
  advance this c = Some (this', c') ->
  (forall u, u ∈ X -> u ∈ visitedUrls this) ->
  forall u, u ∈ X -> u ∈ visitedUrls this'.
Proof.
  destruct c as [u0 options|l|o fs]; simpl; intros Hns Hadv HX; [done| |].
  - apply turn_inv in Hadv as (st & Hst & -> & _). simpl.
    eapply (upToAwait_invariant (fun s => forall u, u ∈ X -> u ∈ visited s)
              (c_options l) (kept_step X (c_options l))); [|exact Hst].
    exact HX.
  - by inversion Hadv; subst.
Qed.

Lemma step_recorded k j p p' :
  step j p = Some p' -> recordedAt k p -> recordedAt k p'.
Proof.
  unfold Overlap.step, recordedAt.
  destruct (calls p !! j) as [c|] eqn:Hj; [|by intros [= <-]].
  destruct (advance (service p) c) as [[this' c']|] eqn:Hadv; [|done].
  intros [= <-]. simpl. destruct (decide (j = k)) as [->|Hne].
  - rewrite Hj, list_lookup_insert_eq by (by eapply lookup_lt_Some).
    intros Hc. by eapply advance_recorded.
  - by rewrite list_lookup_insert_ne.
Qed.

Lemma step_marked k j p p' :
  step j p = Some p' ->
  inFlight (calls p !! k) && starts (calls p !! j) = false ->
  markedAt k p -> markedAt k p'.
Proof.
  unfold Overlap.step, markedAt.
  destruct (calls p !! j) as [c|] eqn:Hj; [|by intros [= <-]].
  destruct (advance (service p) c) as [[this' c']|] eqn:Hadv; [|done].
  intros [= <-] Hquiet. simpl. destruct (decide (j = k)) as [->|Hne].
  - rewrite Hj, list_lookup_insert_eq by (by eapply lookup_lt_Some).
    intros Hc. by eapply advance_marked.
  - rewrite list_lookup_insert_ne by done.
    destruct (calls p !! k) as [[u options|l|o fs]|]; simpl in *; try done.
    intros [Hnd Hin]. split; [done|].
    by eapply advance_keeps.
Qed.

Lemma run_recorded k schedule p p' :
  run schedule p = Some p' -> recordedAt k p -> recordedAt k p'.
Proof.
  revert p. induction schedule as [|j rest IH]; intros p; simpl.
  - by intros [= <-].
  - destruct (step j p) as [p1|] eqn:Hstep; [|done].
    intros Hrun Hp. apply (IH p1 Hrun). by eapply step_recorded.
Qed.

Lemma run_marked k schedule p p' :
  run schedule p = Some p' ->
  undisturbed k schedule p = true ->
  markedAt k p -> markedAt k p'.
Proof.
  revert p. induction schedule as [|j rest IH]; intros p; simpl.
  - by intros [= <-].
  - destruct (step j p) as [p1|] eqn:Hstep; [|done].
    intros Hrun [Hquiet Hrest]%andb_true_iff Hp.
    apply negb_true_iff in Hquiet.
    apply (IH p1 Hrun Hrest). by eapply step_marked.
Qed.

(** *** The call that no other call overlaps *)

Lemma upToAwait_crawlLoop options f s st :
  upToAwait f options s = Some st ->
  forall fuel r,
    crawlLoop fuel (maxDepthOf options) (maxPagesOf options)
      (includePathsOf options) (excludePathsOf options) s = Some r ->
    match st with
    | Continue s' =>
        exists fuel', (fuel' < fuel)%nat /\
          crawlLoop fuel' (maxDepthOf options) (maxPagesOf options)
            (includePathsOf options) (excludePathsOf options) s' = Some r
    | Exit s' => r = finish (Ok (results s')) s'
    | Raise e s' => r = finish (Throw e) s'
    end.
Proof.
  revert s. induction f as [|f IH]; intros s Hst fuel r Hrun; [done|].
  destruct fuel as [|fuel]; [done|]. simpl in Hst, Hrun.
  destruct (stepOf options s) as [s1|s1|e s1].
  - destruct (length (fetches s) <? length (fetches s1))%nat.
    + inversion Hst; subst st. exists fuel. split; [lia|done].
    + specialize (IH s1 Hst fuel r Hrun). destruct st; [|done..].
      destruct IH as (fuel' & Hlt & Hrun'). exists fuel'. split; [lia|done].
  - inversion Hst; subst st. by inversion Hrun.
  - inversion Hst; subst st. by inversion Hrun.
Qed.

Lemma alone_from options :
  forall fuel s r this c,
    crawlLoop fuel (maxDepthOf options) (maxPagesOf options)
      (includePathsOf options) (excludePathsOf options) s = Some r ->
    advance this c = turn options s ->
    exists n,
      run (replicate n 0%nat) (mkProcess this [c])
      = Some (mkProcess (engine r) [Returned (outcome r) (trace r)]).
Proof.
  intros fuel. induction (lt_wf fuel) as [fuel _ IH].
  intros s r this c Hrun Hadv.
  destruct (turn_total options s) as [[this' c'] Hturn].
  destruct (turn_inv _ _ _ _ Hturn) as (st & Hst & -> & ->).
  pose proof (upToAwait_crawlLoop _ _ _ _ Hst _ _ Hrun) as Hlink.
  destruct st as [s'|s'|e s']; simpl in *.
  - destruct Hlink as (fuel' & Hlt & Hrun').
    destruct (IH fuel' Hlt s' r (mkService (visited s'))
                (Awaiting (localsOf options s')) Hrun') as [n Hn].
    { simpl. by destruct s'. }
    exists (S n). simpl. unfold Overlap.step. simpl. by rewrite Hadv, Hturn.
  - subst r. exists 1%nat. simpl. unfold Overlap.step. simpl.
    by rewrite Hadv, Hturn.
  - subst r. exists 1%nat. simpl. unfold Overlap.step. simpl.
    by rewrite Hadv, Hturn.
Qed.

(** The run of [Firecrawl.crawlWebsite] is the run of the call when it is
    the only one on the service. *)
Lemma alone_crawlWebsite fuel this startUrl options r :
  crawlWebsite fuel this startUrl options = Some r ->
  exists n,
    run (replicate n 0%nat) (mkProcess this [Pending startUrl options])
    = Some (mkProcess (engine r) [Returned (outcome r) (trace r)]).
Proof. intros Hrun. by eapply alone_from. Qed.

(** *** No page twice *)

(** X1. A call of [crawlWebsite] returns pages that are each what
    [scrapePage] gave for its URL, whatever the calls that run with it on
    the service. When no call starts while it is in flight, it fetched no
    URL twice and the pages it returns have pairwise distinct URLs. *)
Theorem crawl_pages_distinct schedule k p p' startUrl options o fs :
  calls p !! k = Some (Pending startUrl options) ->
  run schedule p = Some p' ->
  calls p' !! k = Some (Returned o fs) ->
  (forall pages, o = Ok pages ->
     pages = omap snd fs /\
     Forall (fun page => scrapePage (url page) = Some page) pages) /\
  (undisturbed k schedule p = true ->
   NoDup (fetchedUrls fs) /\
   forall pages, o = Ok pages -> NoDup (map url pages)).
Proof.
  intros Hk Hrun Hk'.
  assert (Hrec : recordedAt k p') by
    (apply (run_recorded k _ _ _ Hrun); unfold recordedAt; by rewrite Hk).
  unfold recordedAt in Hrec. rewrite Hk' in Hrec. destruct Hrec as [Hres Hf].
  destruct (pages_of_fetches http fs Hf) as [Hsub Hall].
  split.
  - intros pages ->%Hres. done.
  - intros Hquiet.
    assert (Hm : markedAt k p') by
      (apply (run_marked k _ _ _ Hrun Hquiet); unfold markedAt; by rewrite Hk).
    unfold markedAt in Hm. rewrite Hk' in Hm. simpl in Hm.
    split; [done|]. intros pages ->%Hres. by eapply sublist_NoDup.
Qed.

End Engine.

End OverlapFacts.

(** ** The text that scrapePage extracts *)

Module ScrapeFacts.
Import Scrape.

Section Text.

Variable Char : Type.
Variable isSpace : Char -> bool.
Variable space : Char.
Variable isComma : Char -> bool.
Variable dom : string -> option (list Char).
Variable domFirst : string -> option (list Char).

Local Abbreviation trimStart := (Scrape.trimStart Char isSpace).
Local Abbreviation trimEnd := (Scrape.trimEnd Char isSpace).
Local Abbreviation trim := (Scrape.trim Char isSpace).
Local Abbreviation collapseFrom := (Scrape.collapseFrom Char isSpace space).
Local Abbreviation collapse := (Scrape.collapse Char isSpace space).
Local Abbreviation clean := (Scrape.clean Char isSpace space).
Local Abbreviation split := (Scrape.split Char isComma).
Local Abbreviation keywordsOf := (Scrape.keywordsOf Char isSpace isComma).
Local Abbreviation pickContent := (Scrape.pickContent Char isSpace dom).
Local Abbreviation titleOf := (Scrape.titleOf Char isSpace dom domFirst).
Local Abbreviation contentOf := (Scrape.contentOf Char isSpace space dom).
Local Abbreviation tidyFrom := (Scrape.tidyFrom Char isSpace space).
Local Abbreviation tidy := (Scrape.tidy Char isSpace space).
Local Abbreviation long := (Scrape.long Char isSpace dom).
Local Abbreviation candidates := (Scrape.candidates Char isSpace dom).

(** The code units that are not white space. *)
Local Abbreviation ink := (filter (fun c => isSpace c = false)).

(** *** trim *)

Lemma trimStart_head s :
  match trimStart s with c :: _ => isSpace c = false | [] => True end.
Proof.
  induction s as [|c s IH]; simpl; [done|].
  destruct (isSpace c) eqn:Hc; [done|]. by rewrite Hc.
Qed.

Lemma trimEnd_last s :
  match last (trimEnd s) with Some c => isSpace c = false | None => True end.
Proof.
  induction s as [|c s IH]; simpl; [done|].
  destruct (trimEnd s) as [|k ks] eqn:Hk.
  - destruct (isSpace c) eqn:Hc; simpl; done.
  - exact IH.
Qed.

Lemma trimEnd_id s :
  match last s with Some c => isSpace c = false | None => True end ->
  trimEnd s = s.
Proof.
  induction s as [|c s IH]; [done|]. intros Hlast. simpl.
  destruct s as [|c' s'].
  - simpl in *. by rewrite Hlast.
  - rewrite IH by exact Hlast. done.
Qed.

Lemma trimEnd_head c s :
  isSpace c = false -> exists kept, trimEnd (c :: s) = c :: kept.
Proof.
  intros Hc. simpl. destruct (trimEnd s); [rewrite Hc|]; eauto.
Qed.

Lemma trimStart_id s :
  match s with c :: _ => isSpace c = false | [] => True end -> trimStart s = s.
Proof. destruct s as [|c s]; [done|]. simpl. by intros ->. Qed.

Lemma trim_trim s : trim (trim s) = trim s.
Proof.
  unfold Scrape.trim.
  assert (Hstart : trimStart (trimEnd (trimStart s)) = trimEnd (trimStart s)).
  { apply trimStart_id. pose proof (trimStart_head s) as Hh.
    destruct (trimStart s) as [|c s']; [done|].
    destruct (trimEnd_head c s' Hh) as [kept ->]. done. }
  rewrite Hstart. apply trimEnd_id, trimEnd_last.
Qed.

Lemma Forall_trimStart (P : Char -> Prop) s : Forall P s -> Forall P (trimStart s).
Proof.
  induction 1 as [|c s Hc Hs IH]; simpl; [done|].
  destruct (isSpace c); [done|by constructor].
Qed.

Lemma Forall_trimEnd (P : Char -> Prop) s : Forall P s -> Forall P (trimEnd s).
Proof.
  induction 1 as [|c s Hc Hs IH]; simpl; [done|].
  destruct (trimEnd s).
  - destruct (isSpace c); by repeat constructor.
  - by constructor.
Qed.

Lemma ink_trimStart s : ink (trimStart s) = ink s.
Proof.
  induction s as [|c s IH]; simpl; [done|].
  destruct (isSpace c) eqn:Hc; [|done].
  rewrite IH. rewrite filter_cons_False; [done|]. by rewrite Hc.
Qed.

Lemma ink_trimEnd s : ink (trimEnd s) = ink s.
Proof.
  induction s as [|c s IH]; simpl; [done|].
  destruct (trimEnd s) as [|k ks] eqn:Hk.
  - destruct (isSpace c) eqn:Hc.
    + rewrite filter_cons_False by (by rewrite Hc). by rewrite <- IH.
    + rewrite !filter_cons_True by done. by rewrite <- IH.
  - rewrite (filter_cons _ c (k :: ks)), (filter_cons _ c s), IH. done.
Qed.

(** *** The title *)

(** X29. The title of a scraped page is trimmed; it is the text of the
    [title] element unless that is blank, and it is empty exactly when
    that text and the text of the first [h1] are both blank. *)
Theorem titleOf_trimmed :
  trim titleOf = titleOf /\
  (trim (default [] (dom "title")) <> [] ->
   titleOf = trim (default [] (dom "title"))) /\
  (titleOf = [] <->
   trim (default [] (dom "title")) = [] /\
   trim (default [] (domFirst "h1")) = []).
Proof.
  unfold Scrape.titleOf, Scrape.orElse.
  destruct (trim (default [] (dom "title"))) as [|c title] eqn:Htitle.
  - split; [apply trim_trim|]. split; [done|]. tauto.
  - split; [by rewrite <- Htitle, trim_trim|]. split; [done|].
    split; [done|]. by intros [? _].
Qed.

(** *** The keywords *)

Lemma split_nonempty s : split s <> [].
Proof.
  induction s as [|c s IH]; simpl; [done|].
  destruct (isComma c); [done|]. by destruct (split s).
Qed.

Lemma split_length s :
  length (split s) = S (length (filter (fun c => isComma c = true) s)).
Proof.
  induction s as [|c s IH]; simpl; [done|].
  destruct (isComma c) eqn:Hc.
  - rewrite filter_cons_True by done. simpl. by rewrite IH.
  - rewrite filter_cons_False by (by rewrite Hc).
    pose proof (split_nonempty s) as Hne.
    destruct (split s) as [|part parts]; [done|]. exact IH.
Qed.

Lemma split_no_comma s :
  Forall (Forall (fun c => isComma c = false)) (split s).
Proof.
  induction s as [|c s IH]; simpl; [by repeat constructor|].
  destruct (isComma c) eqn:Hc; [by constructor|].
  destruct (split s) as [|part parts]; [by repeat constructor|].
  inversion IH; subst. constructor; [by constructor|done].
Qed.

(** X9. The keywords of a page: none when the page has no keywords tag;
    otherwise one more keyword than the tag's content has commas, each of
    them without a comma and trimmed. *)
Theorem keywords_of_tag :
  keywordsOf None = None /\
  forall s, exists ks, keywordsOf (Some s) = Some ks /\
    length ks = S (length (filter (fun c => isComma c = true) s)) /\
    Forall (fun k => trim k = k /\ Forall (fun c => isComma c = false) k) ks.
Proof.
  split; [done|]. intros s. eexists. split; [reflexivity|]. split.
  - by rewrite length_map, split_length.
  - apply Forall_map. eapply Forall_impl; [apply split_no_comma|].
    intros part Hpart. simpl. split; [apply trim_trim|].
    by apply Forall_trimEnd, Forall_trimStart.
Qed.

(** *** The selector loop *)

Lemma last_cons_default {A} (x y : A) (l : list A) :
  default y (last (x :: l)) = default x (last l).
Proof.
  destruct l as [|z l]; [done|]. change (last (x :: z :: l)) with (last (z :: l)).
  destruct (last (z :: l)) eqn:Hlast; [done|]. by apply last_None in Hlast.
Qed.

Lemma pickContent_short selectors :
  forall content,
  Forall (fun selector => long selector = false) selectors ->
  pickContent content selectors = default content (last (candidates selectors)).
Proof.
  induction selectors as [|selector rest IH]; intros content Hshort; [done|].
  inversion Hshort as [|? ? Hsel Hrest]; subst.
  unfold Scrape.long in Hsel. simpl. unfold Scrape.candidates. simpl.
  destruct (dom selector) as [text|] eqn:Hdom; simpl.
  - rewrite Hsel. rewrite (IH _ Hrest). by rewrite last_cons_default.
  - by apply IH.
Qed.

Lemma pickContent_long pre :
  forall content selector post,
  Forall (fun selector => long selector = false) pre ->
  long selector = true ->
  exists text, dom selector = Some text /\
    pickContent content (pre ++ selector :: post) = trim text.
Proof.
  induction pre as [|s0 pre IH]; intros content selector post Hpre Hlong.
  - unfold Scrape.long in Hlong. simpl.
    destruct (dom selector) as [text|]; [|done].
    exists text. by rewrite Hlong.
  - inversion Hpre as [|? ? Hs0 Hrest]; subst.
    unfold Scrape.long in Hs0. simpl.
    destruct (dom s0) as [text0|]; [rewrite Hs0|]; by apply IH.
Qed.

(** X10. The content of a page comes from the first of the six selectors whose
    trimmed text has more than 100 code units; when no selector has such a
    text, from the last selector that selects anything, and it is empty
    when none does. *)
Theorem content_selection :
  (forall pre selector post,
     contentSelectors = pre ++ selector :: post ->
     Forall (fun selector => long selector = false) pre ->
     long selector = true ->
     exists text, dom selector = Some text /\ contentOf = clean (trim text)) /\
  (Forall (fun selector => long selector = false) contentSelectors ->
   contentOf = clean (default [] (last (candidates contentSelectors)))).
Proof.
  split.
  - intros pre selector post Hsel Hpre Hlong. unfold Scrape.contentOf.
    rewrite Hsel.
    destruct (pickContent_long pre [] selector post Hpre Hlong) as (text & Hdom & ->).
    by exists text.
  - intros Hshort. unfold Scrape.contentOf. by rewrite pickContent_short.
Qed.

(** *** Cleaning the content *)

Hypothesis space_isSpace : isSpace space = true.

Lemma tidyFrom_weaken b s : tidyFrom true s -> tidyFrom b s.
Proof.
  destruct s as [|c s]; [done|]. simpl.
  destruct (isSpace c); [by intros [? _]|done].
Qed.

Lemma collapseFrom_tidy s : forall b, tidyFrom b (collapseFrom b s).
Proof.
  induction s as [|c s IH]; intros b; simpl; [done|].
  destruct (isSpace c) eqn:Hc.
  - destruct b; [apply IH|]. simpl. rewrite space_isSpace. by repeat split.
  - simpl. rewrite Hc. apply IH.
Qed.

Lemma trimStart_tidy s : forall b, tidyFrom b s -> tidyFrom true (trimStart s).
Proof.
  induction s as [|c s IH]; intros b; simpl; [done|].
  destruct (isSpace c) eqn:Hc.
  - intros (_ & _ & Hs). by apply (IH true).
  - intros Hs. simpl. by rewrite Hc.
Qed.

Lemma trimEnd_tidy s : forall b, tidyFrom b s -> tidyFrom b (trimEnd s).
Proof.
  induction s as [|c s IH]; intros b; simpl; [done|].
  destruct (isSpace c) eqn:Hc.
  - intros (Hb & Hsp & Hs). specialize (IH true Hs).
    destruct (trimEnd s) as [|k ks]; [done|].
    simpl tidyFrom at 1. rewrite Hc. done.
  - intros Hs. specialize (IH false Hs).
    destruct (trimEnd s) as [|k ks]; simpl; by rewrite Hc.
Qed.

Lemma ink_collapseFrom s : forall b, ink (collapseFrom b s) = ink s.
Proof.
  induction s as [|c s IH]; intros b; simpl; [done|].
  destruct (isSpace c) eqn:Hc.
  - rewrite (filter_cons_False _ c) by (by rewrite Hc).
    destruct b; [apply IH|].
    rewrite filter_cons_False by (by rewrite space_isSpace). apply IH.
  - rewrite !filter_cons_True by done. by rewrite IH.
Qed.

Lemma collapseFrom_id s : forall b, tidyFrom b s -> collapseFrom b s = s.
Proof.
  induction s as [|c s IH]; intros b; simpl; [done|].
  destruct (isSpace c) eqn:Hc.
  - intros (-> & -> & Hs). by rewrite (IH true Hs).
  - intros Hs. by rewrite (IH false Hs).
Qed.

Lemma clean_id s : tidy s -> clean s = s.
Proof.
  intros [Hmid Hlast]. unfold Scrape.clean, Scrape.collapse, Scrape.trim.
  rewrite collapseFrom_id by (by apply tidyFrom_weaken).
  rewrite trimStart_id.
  - by apply trimEnd_id.
  - destruct s as [|c s]; [done|]. simpl in Hmid.
    destruct (isSpace c); [by destruct Hmid|done].
Qed.

Lemma clean_is_tidy s : tidy (clean s).
Proof.
  split.
  - apply trimEnd_tidy. eapply trimStart_tidy. apply collapseFrom_tidy.
  - apply trimEnd_last.
Qed.

(** X11. The content of a scraped page is tidy: it has no white space at either
    end, and inside it white space is a single [' ']; the cleaning keeps
    every other code unit, in order; it leaves a tidy text as it is, so
    cleaning twice is cleaning once. *)
Theorem clean_tidies s :
  tidy (clean s) /\
  ink (clean s) = ink s /\
  (tidy s -> clean s = s) /\
  clean (clean s) = clean s.
Proof.
  split; [apply clean_is_tidy|]. split.
  - unfold Scrape.clean, Scrape.trim, Scrape.collapse.
    by rewrite ink_trimEnd, ink_trimStart, ink_collapseFrom.
  - split; [apply clean_id|]. apply clean_id, clean_is_tidy.
Qed.

End Text.

End ScrapeFacts.

(** ** The store: deleting, counting, and the pairing of the two tables *)

Module RowFacts.
Import Database Rows.

Lemma filter_others {A} (i : Z) (l : list (Z * A)) :
  i ∉ map fst l -> filter (fun row => fst row <> i) l = l.
Proof.
  induction l as [|row l IH]; [done|]. simpl. intros Hi.
  rewrite filter_cons_True.
  - f_equal. apply IH. intros Hin. apply Hi. by right.
  - intros Heq. apply Hi. rewrite Heq. by left.
Qed.

Lemma map_fst_filter {A} (i : Z) (l : list (Z * A)) :
  map fst (filter (fun row => fst row <> i) l) = filter (fun j => j <> i) (map fst l).
Proof.
  induction l as [|row l IH]; [done|]. simpl.
  rewrite !filter_cons. destruct (decide (row.1 <> i)); simpl; by rewrite IH.
Qed.

Lemma idsFrom_S first n : idsFrom first (S n) = first :: idsFrom (first + 1) n.
Proof.
  unfold idsFrom. simpl. f_equal; [lia|].
  rewrite <- seq_shift, map_map. apply map_ext. intros j. lia.
Qed.

Lemma idsFrom_bounds first n i : i ∈ idsFrom first n -> first <= i < first + Z.of_nat n.
Proof.
  unfold idsFrom. rewrite list_elem_of_In, in_map_iff.
  intros (j & <- & Hj). apply in_seq in Hj. lia.
Qed.

Lemma idsFrom_NoDup n : forall first, NoDup (idsFrom first n).
Proof.
  induction n as [|n IH]; intros first; [constructor|].
  rewrite idsFrom_S. constructor; [|apply IH].
  intros Hin. apply idsFrom_bounds in Hin. lia.
Qed.

(** *** deleteDocument *)

Lemma withoutDocument_count t i :
  getDocumentCount (withoutDocument t i)
  = getDocumentCount t - (if bool_decide (is_Some (documents t !! i)) then 1 else 0).
Proof.
  unfold getDocumentCount, withoutDocument. simpl.
  destruct (decide (is_Some (documents t !! i))) as [Hsome|Hnone].
  - rewrite bool_decide_eq_true_2 by done.
    rewrite map_size_delete_Some by done.
    destruct Hsome as [row Hrow].
    assert (size (documents t) <> 0%nat).
    { intros Hsize. apply map_size_empty_inv in Hsize.
      rewrite Hsize in Hrow. by rewrite lookup_empty in Hrow. }
    lia.
  - rewrite bool_decide_eq_false_2 by done.
    rewrite map_size_delete_None; [lia|].
    by apply eq_None_not_Some.
Qed.

Lemma withoutDocument_twice t i :
  withoutDocument (withoutDocument t i) i = withoutDocument t i.
Proof.
  unfold withoutDocument. simpl. f_equal.
  - apply delete_id, lookup_delete_eq.
  - apply filter_others. rewrite map_fst_filter, list_elem_of_filter. tauto.
Qed.

(** X12. [deleteDocument] and [getDocumentById] throw for an id that the
    integer column cannot hold. For any other id, deleting answers whether
    the document existed; afterwards the document and its embedding rows
    are gone, every other row is as before, the count has gone down by one
    if the document existed, the sequence has not moved, the foreign key
    still holds if it held, nothing is stored at or above the next id if
    nothing was, and deleting the document again answers no and changes
    nothing. *)
Theorem deleteDocument_removes t i :
  (int4 i = false ->
   deleteDocument t i = None /\ getDocumentById t i = None) /\
  (int4 i = true ->
   exists b t',
     deleteDocument t i = Some (b, t') /\
     (b = true <-> getDocumentById t i <> Some None) /\
     getDocumentById t' i = Some None /\
     (forall j, j <> i -> getDocumentById t' j = getDocumentById t j) /\
     (forall row, row ∈ embeddings t' <-> row ∈ embeddings t /\ fst row <> i) /\
     getDocumentCount t' = getDocumentCount t - (if b then 1 else 0) /\
     documents_id_seq t' = documents_id_seq t /\
     (referenced t -> referenced t') /\
     (fresh t -> fresh t') /\
     deleteDocument t' i = Some (false, t')).
Proof.
  unfold deleteDocument, getDocumentById. split; intros Hint; rewrite Hint; [done|].
  eexists _, _. split; [reflexivity|].
  split.
  { rewrite bool_decide_eq_true. split.
    - intros [row Hrow] [= Hnone]. congruence.
    - intros Hne. destruct (documents t !! i); [by eexists|done]. }
  split; [simpl; by rewrite lookup_delete_eq|].
  split.
  { intros j Hj. simpl. destruct (int4 j); [|done].
    by rewrite lookup_delete_ne. }
  split; [intros row; simpl; rewrite list_elem_of_filter; tauto|].
  split; [apply withoutDocument_count|].
  split; [done|].
  split.
  { intros Href row [Hne Hrow]%list_elem_of_filter. simpl.
    rewrite lookup_delete_ne by done. by apply Href. }
  split.
  { intros Hfresh j Hj. simpl in *. rewrite lookup_delete_None. right.
    by apply Hfresh. }
  rewrite withoutDocument_twice. do 2 f_equal.
  apply bool_decide_eq_false_2. simpl. rewrite lookup_delete_eq. by intros [? ?].
Qed.

Lemma paired_withoutDocument t i : paired t -> paired (withoutDocument t i).
Proof.
  intros [Hfresh Hnodup Hrows]. split; simpl.
  - intros j Hj. simpl in *. rewrite lookup_delete_None. right. by apply Hfresh.
  - rewrite map_fst_filter. by apply NoDup_filter.
  - intros j. rewrite map_fst_filter, list_elem_of_filter, <- Hrows.
    destruct (decide (i = j)) as [->|Hij].
    + rewrite lookup_delete_eq. split; [by intros [? ?]|tauto].
    + rewrite lookup_delete_ne by done. split; [|tauto].
      intros Hsome. split; [congruence|done].
Qed.

(** *** The tools of the server *)

Lemma filter_filter_others {A} (i : Z) (l : list (Z * A)) :
  filter (fun row => fst row <> i) (filter (fun row => fst row <> i) l)
  = filter (fun row => fst row <> i) l.
Proof.
  apply filter_others. rewrite map_fst_filter, list_elem_of_filter. tauto.
Qed.

Lemma paired_counts t : paired t -> length (embeddings t) = size (documents t).
Proof.
  intros [_ Hnodup Hrows].
  rewrite <- (length_map fst), <- (size_list_to_set (C := gset Z)) by done.
  rewrite <- (size_dom (D := gset Z)). f_equal. apply set_eq. intros i.
  by rewrite elem_of_list_to_set, elem_of_dom, Hrows.
Qed.

(** X26. The [rag_delete_document] tool leaves the tables as
    [DatabaseService.deleteDocument] does, throws where that throws, and
    reports 'not found' exactly when that returns false: with the cascade
    of the schema its first statement removes nothing the second would
    not. When the tables are paired, a deletion that reports 'not found'
    has changed nothing. *)
Theorem deleteDocumentTool_agrees t documentId :
  paired t ->
  Tools.deleteDocumentTool t documentId = deleteDocument t documentId /\
  (forall t', Tools.deleteDocumentTool t documentId = Some (false, t') -> t' = t).
Proof.
  intros Hp.
  assert (Heq : Tools.deleteDocumentTool t documentId = deleteDocument t documentId).
  { unfold Tools.deleteDocumentTool, Tools.deleteEmbeddings, deleteDocument.
    destruct (int4 documentId); [|done]. unfold withoutDocument. simpl.
    by rewrite filter_filter_others. }
  split; [done|]. rewrite Heq. unfold deleteDocument.
  destruct (int4 documentId); [|done]. intros t' [= Hnone <-].
  apply bool_decide_eq_false in Hnone.
  destruct t as [docs embs next]. unfold withoutDocument. simpl in *. f_equal.
  - apply delete_id. by apply eq_None_not_Some.
  - apply filter_others. intros Hin. apply Hnone.
    by apply (p_rows _ Hp documentId).
Qed.

(** X27. On paired tables the two counts of [rag_get_stats] are equal, and
    they are the count of [DatabaseService.getDocumentCount]. *)
Theorem getStats_counts t :
  paired t ->
  fst (Tools.getStats t) = snd (Tools.getStats t) /\
  fst (Tools.getStats t) = getDocumentCount t.
Proof.
  intros Hp. unfold Tools.getStats, getDocumentCount. simpl.
  by rewrite (paired_counts t Hp).
Qed.

Section Store.

Variable accepts : NewDocument -> bool.
Variable drawsId : NewDocument -> bool.

Local Abbreviation insertOne := (Database.insertOne accepts drawsId).
Local Abbreviation insertAll := (Database.insertAll accepts drawsId).
Local Abbreviation transaction := (Database.transaction accepts drawsId).

(** *** The sequence and the ids *)

(** An insertion that is refused leaves both tables and moves the sequence
    by one step at most. *)
Lemma insertOne_None t d t' :
  insertOne t d = (None, t') ->
  documents t' = documents t /\ embeddings t' = embeddings t /\
  documents_id_seq t <= documents_id_seq t' <= documents_id_seq t + 1.
Proof.
  unfold Database.insertOne.
  destruct (int4 (documents_id_seq t)); simpl;
    [|intros [= <-]; repeat split; (done || lia)].
  destruct (accepts d); simpl.
  - case_bool_decide; [done|]. intros [= <-]. simpl. repeat split; (done || lia).
  - intros [= <-]. simpl. destruct (drawsId d); repeat split; (done || lia).
Qed.

Lemma insertAll_ids ds : forall t acc,
  documents_id_seq t <= documents_id_seq (snd (insertAll t ds acc))
    <= documents_id_seq t + Z.of_nat (length ds) /\
  (forall ids, fst (insertAll t ds acc) = Some ids ->
     ids = acc ++ idsFrom (documents_id_seq t) (length ds) /\
     Forall (fun i => int4 i = true) (idsFrom (documents_id_seq t) (length ds)) /\
     size (documents (snd (insertAll t ds acc))) = (size (documents t) + length ds)%nat /\
     documents_id_seq (snd (insertAll t ds acc))
       = documents_id_seq t + Z.of_nat (length ds)).
Proof.
  induction ds as [|d ds IH]; intros t acc.
  - simpl. split; [lia|].
    intros ids [= <-]. unfold idsFrom. simpl. rewrite app_nil_r.
    split; [done|]. split; [constructor|]. split; lia.
  - simpl. destruct (insertOne t d) as [[i|] t1] eqn:Hone.
    + destruct (IH t1 (acc ++ [i])) as (Hbounds & Hsome).
      destruct (StoreFacts.insertOne_Some_key _ _ _ _ _ _ Hone) as [Hint Hkey].
      apply StoreFacts.insertOne_Some in Hone
        as (Hi & Hacc & Hdocs & Hemb & Hnext).
      subst i. split; [lia|].
      intros ids Hids. destruct (Hsome ids Hids) as (-> & Hall & Hsize & Hlast).
      rewrite idsFrom_S, <- Hnext, <- app_assoc. simpl.
      split; [done|]. split; [by constructor|]. split; [|lia].
      rewrite Hsize, Hdocs, map_size_insert_None by done. lia.
    + apply insertOne_None in Hone as (_ & _ & Hseq). simpl.
      split; [lia|done].
Qed.

Lemma transaction_Ok_ids t ds ids t' :
  transaction t ds = (Ok ids, t') ->
  ids = idsFrom (documents_id_seq t) (length ds).
Proof.
  destruct (insertAll_ids ds t []) as (_ & Hsome).
  unfold Database.transaction.
  destruct (insertAll t ds []) as [[ids0|] t0]; [|done].
  intros [= <- <-]. by destruct (Hsome ids0 eq_refl) as (-> & _).
Qed.


(** *** The pairing of the two tables *)

Lemma fresh_not_row t : paired t -> documents_id_seq t ∉ map fst (embeddings t).
Proof.
  intros [Hfresh _ Hrows] Hin. apply Hrows in Hin.
  rewrite (Hfresh (documents_id_seq t)) in Hin by lia. by destruct Hin.
Qed.

Lemma paired_later t next :
  paired t -> documents_id_seq t <= next ->
  paired (mkTables (documents t) (embeddings t) next).
Proof.
  intros [Hfresh Hnodup Hrows] Hle. split; simpl; [|done|done].
  intros j Hj. simpl in *. apply Hfresh. lia.
Qed.

Lemma paired_insertOne t d : paired t -> paired (snd (insertOne t d)).
Proof.
  intros Hp. destruct (insertOne t d) as [[i|] t1] eqn:Hone; simpl.
  - pose proof (fresh_not_row t Hp) as Hnew.
    apply StoreFacts.insertOne_Some in Hone as (-> & _ & Hdocs & Hemb & Hnext).
    destruct Hp as [Hfresh Hnodup Hrows]. split.
    + intros j Hj. rewrite Hdocs, lookup_insert_ne by lia. apply Hfresh. lia.
    + rewrite Hemb, map_app. simpl. apply NoDup_app. split; [done|]. split.
      * intros j Hj Hj'. apply list_elem_of_singleton in Hj'. by subst.
      * apply NoDup_singleton.
    + intros j. rewrite Hdocs, Hemb, map_app, elem_of_app,
        lookup_insert_is_Some, <- Hrows.
      simpl. rewrite list_elem_of_singleton.
      destruct (decide (documents_id_seq t = j)); intuition congruence.
  - apply insertOne_None in Hone as (Hdocs & Hemb & Hseq).
    destruct t1 as [docs1 embs1 next1]. simpl in *. subst docs1 embs1.
    apply paired_later; [done|lia].
Qed.

Lemma paired_insertAll ds : forall t acc,
  paired t -> paired (snd (insertAll t ds acc)).
Proof.
  induction ds as [|d ds IH]; intros t acc Hp; [done|].
  pose proof (paired_insertOne t d Hp) as Hp1. simpl.
  destruct (insertOne t d) as [[i|] t1]; [by apply IH|done].
Qed.

(** X13. The pairing of the two tables is kept by every operation that writes
    them: a transaction of insertions, whether it commits or rolls back,
    and a deletion, whether it answers or throws. *)
Theorem paired_kept t :
  paired t ->
  (forall ds, paired (snd (transaction t ds))) /\
  (forall i deleted t', deleteDocument t i = Some (deleted, t') -> paired t') /\
  (forall E i w r w',
     Rag.tables w = t -> Upkeep.dbDeleteDocument E i w = (r, w') ->
     paired (Rag.tables w')).
Proof.
  intros Hp.
  assert (Hdel : forall i deleted t',
            deleteDocument t i = Some (deleted, t') -> paired t').
  { intros i deleted t'. unfold deleteDocument.
    destruct (int4 i); [|done]. intros [= _ <-]. by apply paired_withoutDocument. }
  split; [|split; [exact Hdel|]].
  2:{ intros E i w r w' Ht. unfold Upkeep.dbDeleteDocument.
      destruct (Rag.dbConnects E); simpl.
      - Rag.unfoldM. rewrite Ht.
        destruct (deleteDocument t i) as [[deleted t']|] eqn:Hrun.
        + intros [= _ <-]. simpl. by eapply Hdel.
        + intros [= _ <-]. by rewrite Ht.
      - Rag.unfoldM. intros [= _ <-]. by rewrite Ht. }
  {
    intros ds. pose proof (paired_insertAll ds t [] Hp) as Hp'.
    destruct (insertAll_ids ds t []) as (Hbounds & _).
    unfold Database.transaction.
    destruct (insertAll t ds []) as [[ids|] t'] eqn:Hall; simpl in *; [done|].
    apply paired_later; [done|lia]. }
Qed.

(** *** Inserting and deleting again *)

Lemma insert_delete_restores t d ids t1 :
  referenced t ->
  transaction t [d] = (Ok ids, t1) ->
  ids = [documents_id_seq t] /\
  exists t2,
    deleteDocument t1 (documents_id_seq t) = Some (true, t2) /\
    documents t2 = documents t /\
    embeddings t2 = embeddings t /\
    documents_id_seq t2 = documents_id_seq t + 1.
Proof.
  intros Href. unfold Database.transaction. simpl.
  destruct (insertOne t d) as [[i|] t'] eqn:Hone; [|done].
  intros [= <- <-].
  destruct (StoreFacts.insertOne_Some_key _ _ _ _ _ _ Hone) as [Hint Hkey].
  apply StoreFacts.insertOne_Some in Hone as (-> & Hacc & Hdocs & Hemb & Hnext).
  assert (Hnew : documents_id_seq t ∉ map fst (embeddings t)).
  { intros Hin. apply list_elem_of_fmap in Hin as (row & Hrow & Hin).
    apply Href in Hin. rewrite <- Hrow, Hkey in Hin. by destruct Hin. }
  split; [done|]. unfold deleteDocument. rewrite Hint.
  eexists. split.
  { do 2 f_equal. apply bool_decide_eq_true_2. rewrite Hdocs, lookup_insert_eq.
    by eexists. }
  unfold withoutDocument. simpl. rewrite Hdocs, Hemb.
  split; [by apply delete_insert_id|]. split; [|done].
  rewrite filter_app, filter_others by done.
  rewrite filter_cons_False by (simpl; tauto). by rewrite app_nil_r.
Qed.

End Store.

End RowFacts.

(** ** Further properties of the retrieval pipeline *)

Module AgentMore.
Import Rag Upkeep RagFacts.

(** *** The cache key *)

Lemma append_nil s : "" +:+ s = s.
Proof. reflexivity. Qed.

Lemma append_cons c s t : String c s +:+ t = String c (s +:+ t).
Proof. reflexivity. Qed.

Lemma append_inj_l p a b : p +:+ a = p +:+ b -> a = b.
Proof.
  induction p as [|c p IH]; [done|]. rewrite !append_cons. intros [= Heq]. auto.
Qed.

Lemma colonFree_not_app a b : ~ colonFree (a +:+ ":" +:+ b).
Proof.
  induction a as [|c a IH].
  - rewrite append_nil, append_cons. by intros [Hc _].
  - rewrite append_cons. intros [_ Ha]. by apply IH.
Qed.

Lemma app_colon_inj s1 : forall s2 d1 d2,
  colonFree d1 -> colonFree d2 ->
  s1 +:+ ":" +:+ d1 = s2 +:+ ":" +:+ d2 -> s1 = s2 /\ d1 = d2.
Proof.
  induction s1 as [|c s1 IH]; intros [|c' s2] d1 d2 H1 H2;
    rewrite ?append_nil, ?append_cons, ?append_nil.
  - by intros [= ->].
  - intros [= <- ->]. by apply colonFree_not_app in H1.
  - intros [= -> <-]. by apply colonFree_not_app in H2.
  - intros [= <- Heq]. destruct (IH _ _ _ H1 H2 Heq) as [-> ->]. done.
Qed.

Lemma colonFree_uint d : colonFree (NilEmpty.string_of_uint d).
Proof. induction d; simpl; (split; [discriminate|done]) || done. Qed.

Lemma colonFree_toString n : colonFree (JS.toString n).
Proof.
  unfold JS.toString, NilZero.string_of_int, NilZero.string_of_uint.
  destruct (Z.to_int n) as [d|d]; destruct d; simpl;
    repeat (split; [discriminate|]); try done; apply colonFree_uint.
Qed.

Lemma toString_inj n n' : JS.toString n = JS.toString n' -> n = n'.
Proof.
  unfold JS.toString. intros Heq. apply DecimalZ.to_int_inj.
  assert (Hnil : forall z, Z.to_int z <> Decimal.Pos Decimal.Nil /\
                           Z.to_int z <> Decimal.Neg Decimal.Nil).
  { intros [|p|p]; simpl; split; try discriminate;
      intros [= Hp]; by apply DecimalPos.Unsigned.to_uint_nonnil in Hp. }
  destruct (Hnil n) as [Hn1 Hn2]. destruct (Hnil n') as [Hn1' Hn2'].
  pose proof (NilZero.isi _ Hn1 Hn2) as H1.
  pose proof (NilZero.isi _ Hn1' Hn2') as H2.
  rewrite Heq in H1. rewrite H1 in H2. by injection H2.
Qed.

(** X15. Two queries share a cache key only if they have the same text and the
    same number of results asked for. *)
Theorem cacheKey_injective text topK text' topK' :
  cacheKeyOf text topK = cacheKeyOf text' topK' ->
  text = text' /\ topK = topK'.
Proof.
  unfold cacheKeyOf, RedisCache.generateKey. simpl. intros Heq.
  do 3 apply append_inj_l in Heq.
  apply app_colon_inj in Heq as [-> Hk]; try apply colonFree_toString.
  split; [done|]. by apply toString_inj.
Qed.

(** *** extractCitations *)

Lemma indexOf_first (p s : list string) (x : string) :
  indexOf (p ++ x :: s) x = Some (length p) <-> x ∉ p.
Proof.
  unfold indexOf. split.
  - intros Hfind Hin.
    destruct (list_find (fun y => y = x) (p ++ x :: s)) as [[i y]|] eqn:Hf; [|done].
    simpl in Hfind. injection Hfind as ->.
    apply list_find_Some in Hf as (_ & _ & Hbefore).
    apply list_elem_of_lookup in Hin as [j Hj].
    apply (Hbefore j x); [|by eapply lookup_lt_Some|done].
    by apply lookup_app_l_Some.
  - intros Hout.
    assert (Hf : list_find (fun y => y = x) (p ++ x :: s) = Some (length p, x)).
    { apply list_find_Some. split; [by apply list_lookup_middle|].
      split; [done|]. intros j y Hj Hlt ->.
      rewrite lookup_app_l in Hj by done. apply Hout.
      by eapply list_elem_of_lookup_2. }
    by rewrite Hf.
Qed.

Lemma firsts_unique (l : list string) : forall p s,
  l = p ++ s ->
  omap (fun iv : nat * string =>
          if bool_decide (indexOf l (snd iv) = Some (fst iv))
          then Some (snd iv) else None)
       (imap (fun index value => ((length p + index)%nat, value)) s)
  = JS.uniqueFrom (list_to_set p) s.
Proof.
  intros p s. revert p. induction s as [|x s IH]; intros p Hl; [done|].
  rewrite imap_cons. cbn [omap list_omap fst snd JS.uniqueFrom].
  rewrite Nat.add_0_r.
  assert (Htail :
    omap (fun iv : nat * string =>
            if bool_decide (indexOf l (snd iv) = Some (fst iv))
            then Some (snd iv) else None)
         (imap ((fun index value => ((length p + index)%nat, value)) ∘ S) s)
    = JS.uniqueFrom (list_to_set (p ++ [x])) s).
  { rewrite <- (IH (p ++ [x])) by (by rewrite <- app_assoc).
    f_equal. apply imap_ext. intros i y _. simpl. rewrite length_app. simpl.
    f_equal. lia. }
  change (list_omap ?f ?l) with (omap f l). rewrite Htail.
  rewrite list_to_set_snoc_L.
  destruct (decide (x ∈ (list_to_set p : gset string))) as [Hin|Hout].
  - rewrite bool_decide_eq_false_2.
    + f_equal. apply set_eq. intros y.
      rewrite elem_of_union, elem_of_singleton. split; [|by left].
      intros [Hy| ->]; done.
    + rewrite Hl, indexOf_first. rewrite elem_of_list_to_set in Hin. tauto.
  - rewrite bool_decide_eq_true_2.
    + f_equal. f_equal. apply set_eq. intros y.
      rewrite !elem_of_union, elem_of_singleton. tauto.
    + rewrite Hl. apply indexOf_first. by rewrite elem_of_list_to_set in Hout.
Qed.

Lemma sourcesOf_elem results s :
  s ∈ sourcesOf results <->
  s <> ""%string /\ exists r, r ∈ results /\ r_source r = Some s.
Proof.
  unfold sourcesOf. rewrite list_elem_of_omap. split.
  - intros (r & Hr & Hs). destruct (r_source r) as [s'|] eqn:Hsrc; [|done].
    destruct s'; simpl in Hs; [done|]. injection Hs as <-.
    split; [done|]. by exists r.
  - intros (Hne & r & Hr & Hsrc). exists r. split; [done|]. rewrite Hsrc.
    by destruct s.
Qed.

(** X16. The citations of a result are the sources of its matches, in the
    order of the matches, each once and none empty: filtering by first
    index does what [...new Set] does for the links of a page. *)
Theorem extractCitations_unique results :
  extractCitations results = JS.unique (sourcesOf results) /\
  NoDup (extractCitations results) /\
  extractCitations results `sublist_of` sourcesOf results /\
  (forall s, s ∈ extractCitations results <->
     s <> ""%string /\ exists r, r ∈ results /\ r_source r = Some s).
Proof.
  assert (Heq : extractCitations results = JS.unique (sourcesOf results)).
  { exact (firsts_unique (sourcesOf results) [] (sourcesOf results) eq_refl). }
  rewrite Heq. split; [done|]. unfold JS.unique.
  destruct (JSFacts.uniqueFrom_spec (sourcesOf results) ∅) as (Hnd & Hmem & Hsub).
  split; [done|]. split; [done|].
  intros s. rewrite Hmem, <- sourcesOf_elem. split; [tauto|].
  intros Hs. split; [done|]. apply not_elem_of_empty.
Qed.

Section Agent.

Variable E : Env.

Local Abbreviation query := (Rag.query E).
Local Abbreviation initialize := (Rag.initialize E).
Local Abbreviation addDocument := (Rag.addDocument E).
Local Abbreviation addDocuments := (Rag.addDocuments E).
Local Abbreviation deleteDocument := (Upkeep.deleteDocument E).
Local Abbreviation getDocumentCount := (Upkeep.getDocumentCount E).
Local Abbreviation generateEmbeddings := (Rag.generateEmbeddings E).
Local Abbreviation indexWebsite := (Rag.indexWebsite E).

(** *** What the operations leave alone *)

Lemma batchInsertDocuments_keeps nds w r w' :
  batchInsertDocuments E nds w = (r, w') ->
  agentInitialized w' = agentInitialized w /\
  redisConnected w' = redisConnected w /\
  redisStore w' = redisStore w /\
  crawler w' = crawler w.
Proof.
  unfold batchInsertDocuments. unfoldM.
  repeat case_match; intros; simplify_eq; done.
Qed.

Lemma redisSet_crawler key value w r w' :
  redisSet E key value w = (r, w') -> crawler w' = crawler w.
Proof.
  unfold redisSet. unfoldM.
  repeat case_match; intros; simplify_eq; done.
Qed.

(** X17. [query] never writes the tables or the crawler, and of the cache it
    changes at most the entry of its own key, and that only when it
    returns; once the agent is initialised, whatever goes wrong comes out
    as ['RAG query failed: ...']. *)
Theorem query_touches_one_key text options w r w' :
  query text options w = (r, w') ->
  tables w' = tables w /\
  crawler w' = crawler w /\
  (forall key, key <> cacheKeyOf text (topKOf E options) ->
     redisStore w' !! key = redisStore w !! key) /\
  (forall e, r = Throw e ->
     redisStore w' = redisStore w /\
     (agentInitialized w = true -> exists cause, e = QueryFailed cause)).
Proof.
  unfold Rag.query. intros H.
  apply bind_inv in H as [(u & w0 & Hinit & H)|(e & Hinit & ->)].
  2:{ destruct (ensureInitialized_spec E _ _ _ Hinit) as (Hs & Ht & Hc & _ & Hi).
      split; [done|]. split; [done|]. split; [by rewrite Hs|].
      intros e' [= <-]. split; [done|]. intros Ha. by destruct (Hi Ha). }
  destruct (ensureInitialized_spec E _ _ _ Hinit) as (Hs0 & Ht0 & Hc0 & _ & _).
  apply bind_inv in H as [(cached & w1 & Hget & H)|(e & Hget & _)].
  2:{ by destruct (redisGet_spec E _ _ _ _ Hget) as (_ & ? & _). }
  destruct (redisGet_spec E _ _ _ _ Hget) as ([_ _ Hs1 Ht1 Hc1] & _ & _).
  destruct cached as [hit|].
  { unfold ret in H. inversion H; subst r w'.
    split; [congruence|]. split; [congruence|]. split; [intros; congruence|done]. }
  unfold tryCatch in H.
  match type of H with context [bind ?m ?k w1] =>
    destruct (bind m k w1) as [[r'|e] w2] eqn:Hm end.
  - inversion H; subst r w2. clear H.
    apply bind_inv in Hm as [(er & wa & Hemb & Hm)|(e & _ & ?)]; [|done].
    apply bind_inv in Hm as [(results & wb & Hsearch & Hm)|(e & _ & ?)]; [|done].
    apply bind_inv in Hm as [(u' & wc & Hset & Hm)|(e & _ & ?)]; [|done].
    unfold ret in Hm. inversion Hm; subst wc. clear Hm.
    destruct (generateEmbedding_frame E _ _ _ _ Hemb) as [_ _ Hs2 Ht2 Hc2].
    destruct (searchSimilar_frame E _ _ _ _ _ _ Hsearch) as [_ _ Hs3 Ht3 Hc3].
    destruct (redisSet_spec E _ _ _ _ _ Hset) as (_ & _ & _ & Ht4 & Hs4).
    pose proof (redisSet_crawler _ _ _ _ _ Hset) as Hc4.
    split; [congruence|]. split; [congruence|]. split; [|done].
    intros key Hkey. rewrite Hs4.
    destruct (redisConnected wb && redisAnswers E).
    + rewrite lookup_insert_ne by done. congruence.
    + congruence.
  - unfold throw in H. inversion H; subst r w2. clear H.
    assert (Hf : framed w1 w').
    { apply bind_inv in Hm as [(er & wa & Hemb & Hm)|(e' & Hemb & _)];
        [|by eapply generateEmbedding_frame].
      eapply framed_trans; [by eapply generateEmbedding_frame|].
      apply bind_inv in Hm as [(results & wb & Hsearch & Hm)|(e' & Hsearch & _)];
        [|by eapply searchSimilar_frame].
      apply bind_inv in Hm as [(u' & wc & Hset & Hm)|(e' & Hset & _)]; [done|].
      by destruct (redisSet_spec E _ _ _ _ _ Hset) as (? & _). }
    destruct Hf as [_ _ Hs2 Ht2 Hc2].
    split; [congruence|]. split; [congruence|]. split; [intros; congruence|].
    intros e' [= <-]. split; [congruence|]. by eexists.
Qed.

(** *** initialize *)

(** X18. The agent counts as initialised exactly when [initialize] has returned:
    that needs the embedding service (with the local provider, a model that
    is loaded or loads) and the schema, not Redis, whose connection is
    tried once and may fail; after a failure the agent is still
    uninitialised, so the next operation tries again. An initialised agent
    is left as it is. *)
Theorem initialize_outcome w r w' :
  initialize w = (r, w') ->
  (agentInitialized w = true -> r = Ok tt /\ w' = w) /\
  (agentInitialized w = false ->
     (r = Ok tt <->
        (EMBEDDING_PROVIDER E = ProviderOpenAI \/ embeddingInitialized w = true \/
         modelLoads E = true) /\
        dbConnects E = true /\ schemaApplies E = true) /\
     agentInitialized w' = match r with Ok _ => true | Throw _ => false end /\
     redisConnected w' = redisConnected w || redisReachable E) /\
  redisStore w' = redisStore w /\ tables w' = tables w /\ crawler w' = crawler w.
Proof.
  unfold Rag.initialize, redisConnect, embeddingInitialize, initializeSchema.
  unfoldM.
  destruct (agentInitialized w) eqn:Ha.
  { intros [= <- <-]. repeat split; done. }
  destruct (redisConnected w) eqn:Hc, (EMBEDDING_PROVIDER E) eqn:Hp,
    (embeddingInitialized w) eqn:He, (modelLoads E) eqn:Hm,
    (dbConnects E) eqn:Hd, (schemaApplies E) eqn:Hs; simpl;
    intros [= <- <-]; simpl;
    (split; [done|]); (split; [|done]); intros _;
    (split; [|by rewrite ?orb_true_r, ?orb_false_r]);
    (split; [intros Hr; try discriminate Hr; repeat split; auto
            |intros ([?|[?|?]] & ? & ?); done]).
Qed.

(** *** addDocument, deleteDocument and getDocumentCount *)

Lemma ensureInitialized_skip {A} (k : M A) w :
  agentInitialized w = true -> (ensureInitialized E ;;; k) w = k w.
Proof.
  intros Hinit. unfold ensureInitialized.
  unfold bind at 1. unfold bind at 1. unfold gets, unless. by rewrite Hinit.
Qed.

Lemma insertDocument_Ok nd w i w' :
  insertDocument E nd w = (Ok i, w') ->
  dbConnects E = true /\
  transaction (accepts E) (drawsId E) (tables w) [nd] = (Ok [i], tables w').
Proof.
  unfold insertDocument. intros H.
  apply bind_inv in H as [(ids & w1 & Hins & H)|(e & _ & ?)]; [|done].
  assert (Hdb : dbConnects E = true).
  { unfold batchInsertDocuments in Hins. unfoldM.
    destruct (dbConnects E); [done|]. by simpl in Hins. }
  split; [done|].
  pose proof (batchInsertDocuments_Ok E _ _ _ _ Hins) as Htr.
  destruct (StoreFacts.transaction_Ok _ _ _ _ _ _ Htr) as [Hlen _].
  destruct ids as [|i0 [|? ?]]; try done.
  unfold ret in H. by inversion H; subst.
Qed.

Lemma insertDocument_Throw nd w e w' :
  insertDocument E nd w = (Throw e, w') ->
  documents (tables w') = documents (tables w) /\
  embeddings (tables w') = embeddings (tables w).
Proof.
  unfold insertDocument. intros H.
  apply bind_inv in H as [(ids & w1 & Hins & H)|(e' & Hins & _)].
  - pose proof (batchInsertDocuments_Ok E _ _ _ _ Hins) as Htr.
    destruct (StoreFacts.transaction_Ok _ _ _ _ _ _ Htr) as [Hlen _].
    destruct ids as [|i0 ids]; [done|]. by unfold ret in H.
  - by eapply batchInsertDocuments_Throw.
Qed.

Lemma insertDocument_keeps nd w r w' :
  insertDocument E nd w = (r, w') ->
  agentInitialized w' = agentInitialized w /\
  redisConnected w' = redisConnected w /\
  redisStore w' = redisStore w /\
  crawler w' = crawler w.
Proof.
  unfold insertDocument. intros H.
  apply bind_inv in H as [(ids & w1 & Hins & H)|(e' & Hins & _)].
  - destruct (batchInsertDocuments_keeps _ _ _ _ Hins) as (? & ? & ? & ?).
    destruct ids; unfold ret, throw in H; inversion H; subst; done.
  - by eapply batchInsertDocuments_keeps.
Qed.

Lemma addDocument_Ok document w i w' :
  agentInitialized w = true ->
  addDocument document w = (Ok i, w') ->
  dbConnects E = true /\
  agentInitialized w' = true /\
  i = documents_id_seq (tables w) /\
  exists er,
    transaction (accepts E) (drawsId E) (tables w)
      [mkNewDocument (d_content document) (embedding er) (d_metadata document)
         (d_source document)] = (Ok [i], tables w').
Proof.
  intros Hinit. unfold Rag.addDocument. rewrite ensureInitialized_skip by done.
  intros H.
  apply bind_inv in H as [(er & w1 & Hemb & H)|(e & _ & ?)]; [|done].
  destruct (generateEmbedding_frame E _ _ _ _ Hemb) as [Ha _ _ Ht _].
  destruct (insertDocument_keeps _ _ _ _ H) as (Ha1 & _).
  apply insertDocument_Ok in H as [Hdb Htr]. rewrite Ht in Htr.
  split; [done|]. split; [congruence|]. split; [|by exists er].
  unfold transaction in Htr. simpl in Htr.
  destruct (insertOne _ _ _) as [[i0|] t1] eqn:Hone; [|done].
  inversion Htr; subst.
  by apply StoreFacts.insertOne_Some in Hone as (Hi & _).
Qed.


Lemma deleteDocument_run i w deleted t' :
  agentInitialized w = true ->
  dbConnects E = true ->
  Rows.deleteDocument (tables w) i = Some (deleted, t') ->
  deleteDocument i w =
    (Ok deleted,
     mkWorld (agentInitialized w) (redisConnected w) (redisStore w)
       (embeddingInitialized w) t' (crawler w) (io w)).
Proof.
  intros Hinit Hdb Hdel. unfold Upkeep.deleteDocument.
  rewrite ensureInitialized_skip by done.
  unfold dbDeleteDocument. rewrite Hdb. unfoldM. by rewrite Hdel.
Qed.


(** *** Writes and the cache *)

Lemma addDocuments_keeps documents w r w' :
  agentInitialized w = true ->
  addDocuments documents w = (r, w') ->
  agentInitialized w' = true /\
  redisConnected w' = redisConnected w /\
  redisStore w' = redisStore w.
Proof.
  intros Hinit. rewrite (addDocuments_initialized E documents w Hinit). intros H.
  apply bind_inv in H as [(embs & w1 & Hgen & H)|(e & Hgen & _)].
  - destruct (generateEmbeddings_frame E _ _ _ _ Hgen) as [Ha Hc Hs _ _].
    destruct (withEmbeddings documents 0 embs).
    + destruct (batchInsertDocuments_keeps _ _ _ _ H) as (? & ? & ? & _).
      repeat split; congruence.
    + unfold throw in H. inversion H; subst. repeat split; congruence.
  - destruct (generateEmbeddings_frame E _ _ _ _ Hgen) as [Ha Hc Hs _ _].
    repeat split; congruence.
Qed.

Lemma deleteDocument_keeps i w r w' :
  agentInitialized w = true ->
  deleteDocument i w = (r, w') ->
  agentInitialized w' = true /\
  redisConnected w' = redisConnected w /\
  redisStore w' = redisStore w.
Proof.
  intros Hinit. unfold Upkeep.deleteDocument.
  rewrite ensureInitialized_skip by done.
  unfold dbDeleteDocument. unfoldM.
  repeat case_match; intros; simplify_eq; done.
Qed.

(** X21. No write reaches the cache: after documents are added or a document is
    deleted, a query whose answer is cached still gets that answer, with
    the matches it had. *)
Theorem writes_keep_cached_answers text options w hit :
  agentInitialized w = true ->
  redisConnected w = true ->
  redisAnswers E = true ->
  redisStore w !! cacheKeyOf text (topKOf E options) = Some hit ->
  (forall documents r w1,
     addDocuments documents w = (r, w1) ->
     fst (query text options w1) = Ok hit) /\
  (forall i r w1,
     deleteDocument i w = (r, w1) ->
     fst (query text options w1) = Ok hit).
Proof.
  intros Hinit Hconn Hans Hhit. split.
  - intros documents r w1 H.
    destruct (addDocuments_keeps _ _ _ _ Hinit H) as (Ha & Hc & Hs).
    destruct (query_hit E text options w1 hit) as (w2 & Hq & _); try congruence.
    by rewrite Hq.
  - intros i r w1 H.
    destruct (deleteDocument_keeps _ _ _ _ Hinit H) as (Ha & Hc & Hs).
    destruct (query_hit E text options w1 hit) as (w2 & Hq & _); try congruence.
    by rewrite Hq.
Qed.

(** *** The requests to OpenAI *)

Lemma chunksFrom_nil {A} fuel size : chunksFrom fuel size (@nil A) = [].
Proof. by destruct fuel. Qed.

Lemma chunksFrom_S {A} fuel size (l : list A) :
  l <> [] ->
  chunksFrom (S fuel) size l = take size l :: chunksFrom fuel size (drop size l).
Proof. by destruct l. Qed.

Lemma chunksFrom_concat {A} size fuel : forall l : list A,
  (0 < size)%nat -> (length l <= fuel)%nat -> concat (chunksFrom fuel size l) = l.
Proof.
  induction fuel as [|fuel IH]; intros l Hsize Hlen.
  - destruct l; [done|simpl in Hlen; lia].
  - destruct l as [|x l]; [done|].
    cbn [chunksFrom concat]. rewrite IH; [apply take_drop|done|].
    rewrite length_drop. simpl in *. lia.
Qed.

Lemma chunksFrom_bounds {A} size fuel : forall l : list A,
  (0 < size)%nat ->
  Forall (fun batch => (0 < length batch <= size)%nat) (chunksFrom fuel size l).
Proof.
  induction fuel as [|fuel IH]; intros l Hsize; [constructor|].
  destruct l as [|x l]; [constructor|].
  cbn [chunksFrom]. constructor; [|by apply IH].
  rewrite length_take. simpl. lia.
Qed.

Lemma chunks_short {A} size (l : list A) :
  l <> [] -> (length l <= size)%nat -> chunks size l = [l].
Proof.
  intros Hne Hlen. unfold chunks. destruct l as [|x l]; [done|].
  cbn [length chunksFrom]. rewrite take_ge, drop_ge by done.
  by rewrite chunksFrom_nil.
Qed.

Lemma processBatch_Ok texts w rs w' :
  processBatch E texts w = (Ok rs, w') ->
  io w' = io w ++ [OpenAICall texts] /\
  exists data, openai E texts = Some data /\ rs = map embeddingResult data.
Proof.
  unfold processBatch. unfoldM.
  destruct (openai E texts) as [data|]; [|done].
  intros [= <- <-]. simpl. split; [done|]. by exists data.
Qed.

Lemma forBatches_openai size texts :
  (0 < size)%nat ->
  forall fuel i results w rs w',
    forBatches fuel size texts i results (processBatch E) w = (Ok rs, w') ->
    io w' = io w ++ map OpenAICall (chunksFrom fuel size (drop i texts)) /\
    exists datas,
      Forall2 (fun batch data => openai E batch = Some data)
        (chunksFrom fuel size (drop i texts)) datas /\
      rs = results ++ map embeddingResult (concat datas).
Proof.
  intros Hsize. induction fuel as [|fuel IH]; intros i results w rs w' H.
  - simpl in H.
    assert (Hret : rs = results /\ w' = w).
    { destruct (i <? length texts)%nat; unfold ret in H; by inversion H. }
    destruct Hret as [-> ->]. simpl. rewrite !app_nil_r. split; [done|].
    exists []. split; [constructor|]. by rewrite app_nil_r.
  - cbn [forBatches] in H.
    destruct (i <? length texts)%nat eqn:Hi.
    + apply Nat.ltb_lt in Hi.
      apply bind_inv in H as [(batch & w1 & Hp & H)|(e & _ & ?)]; [|done].
      rewrite slice_take_drop in Hp.
      apply processBatch_Ok in Hp as (Hio & data & Hdata & ->).
      destruct (IH _ _ _ _ _ H) as (Hio' & datas & Hall & ->).
      assert (Hne : drop i texts <> []).
      { intros Hnil. apply (f_equal length) in Hnil.
        rewrite length_drop in Hnil. simpl in Hnil. lia. }
      rewrite chunksFrom_S, drop_drop by done.
      split.
      * rewrite Hio', Hio, <- app_assoc. done.
      * exists (data :: datas). split; [by constructor|].
        simpl. by rewrite map_app, app_assoc.
    + apply Nat.ltb_ge in Hi. unfold ret in H. inversion H; subst.
      rewrite drop_ge by done. rewrite chunksFrom_nil. simpl.
      rewrite app_nil_r. split; [done|].
      exists []. split; [constructor|]. by rewrite app_nil_r.
Qed.

(** X22. With OpenAI as the provider, the embeddings of a list of texts are
    asked for in requests of at most 2048 texts that carry the texts in
    their order, nothing twice and nothing left out; the result is what the
    requests returned, in that order. *)
Theorem openai_batches texts w rs w' :
  EMBEDDING_PROVIDER E = ProviderOpenAI ->
  generateEmbeddings texts w = (Ok rs, w') ->
  texts <> [] /\
  io w' = io w ++ map OpenAICall (chunks maxBatchSize texts) /\
  (exists datas,
     Forall2 (fun batch data => openai E batch = Some data)
       (chunks maxBatchSize texts) datas /\
     rs = map embeddingResult (concat datas)) /\
  concat (chunks maxBatchSize texts) = texts /\
  Forall (fun batch => (0 < length batch <= 2048)%nat) (chunks maxBatchSize texts).
Proof.
  intros Hp H.
  assert (Hsize : (0 < maxBatchSize)%nat) by (unfold maxBatchSize; lia).
  unfold Rag.generateEmbeddings in H. rewrite Hp in H.
  unfold openaiGenerateEmbeddings in H.
  destruct (length texts =? 0)%nat eqn:Hlen; [done|].
  apply Nat.eqb_neq in Hlen.
  assert (Hne : texts <> []) by (by intros ->).
  split; [done|].
  split; [|split; [|split]].
  3: by apply chunksFrom_concat.
  3: by apply (chunksFrom_bounds maxBatchSize).
  - destruct (length texts <=? maxBatchSize)%nat eqn:Hle.
    + apply Nat.leb_le in Hle. rewrite chunks_short by done.
      by apply processBatch_Ok in H as [-> _].
    + by apply forBatches_openai in H as [-> _].
  - destruct (length texts <=? maxBatchSize)%nat eqn:Hle.
    + apply Nat.leb_le in Hle. rewrite chunks_short by done.
      apply processBatch_Ok in H as (_ & data & Hdata & ->).
      exists [data]. split; [by repeat constructor|].
      simpl. by rewrite app_nil_r.
    + apply forBatches_openai in H as (_ & datas & Hall & ->); [|done].
      by exists datas.
Qed.

Lemma processBatch_Throw texts w e w' :
  processBatch E texts w = (Throw e, w') ->
  e = EmbeddingFailed /\ openai E texts = None /\
  io w' = io w ++ [OpenAICall texts].
Proof.
  unfold processBatch. unfoldM.
  destruct (openai E texts) as [data|]; [done|].
  by intros [= <- <-].
Qed.

Lemma forBatches_openai_Throw size texts :
  (0 < size)%nat ->
  forall fuel i results w e w',
    forBatches fuel size texts i results (processBatch E) w = (Throw e, w') ->
    e = EmbeddingFailed /\
    exists k batch,
      chunksFrom fuel size (drop i texts) !! k = Some batch /\
      openai E batch = None /\
      io w' = io w ++ map OpenAICall (take (S k) (chunksFrom fuel size (drop i texts))).
Proof.
  intros Hsize. induction fuel as [|fuel IH]; intros i results w e w' H.
  - simpl in H. destruct (i <? length texts)%nat; by unfold ret in H.
  - cbn [forBatches] in H.
    destruct (i <? length texts)%nat eqn:Hi; [|by unfold ret in H].
    apply Nat.ltb_lt in Hi.
    assert (Hne : drop i texts <> []).
    { intros Hnil. apply (f_equal length) in Hnil.
      rewrite length_drop in Hnil. simpl in Hnil. lia. }
    rewrite chunksFrom_S, drop_drop by done.
    rewrite slice_take_drop in H.
    apply bind_inv in H as [(batch & w1 & Hp & H)|(e' & Hp & [= <-])].
    + apply processBatch_Ok in Hp as (Hio & _).
      destruct (IH _ _ _ _ _ H) as (-> & k & failed & Hk & Hnone & Hio').
      split; [done|]. exists (S k), failed. split; [done|]. split; [done|].
      rewrite Hio', Hio, <- app_assoc. done.
    + apply processBatch_Throw in Hp as (-> & Hnone & Hio).
      split; [done|]. exists 0%nat, (take size (drop i texts)).
      split; [done|]. split; [done|]. cbn [take map]. by rewrite take_0.
Qed.

(** X28. With OpenAI as the provider, [generateEmbeddings] fails either on
    the empty list, without a request, or because a request failed: then
    the requests before it were sent and answered, no request after it was
    sent, and the embeddings already received are dropped. *)
Theorem openai_batches_abort texts w e w' :
  EMBEDDING_PROVIDER E = ProviderOpenAI ->
  generateEmbeddings texts w = (Throw e, w') ->
  (texts = [] /\ e = TextsEmpty /\ w' = w) \/
  (e = EmbeddingFailed /\
   exists k batch,
     chunks maxBatchSize texts !! k = Some batch /\
     openai E batch = None /\
     io w' = io w ++ map OpenAICall (take (S k) (chunks maxBatchSize texts))).
Proof.
  intros Hp H.
  assert (Hsize : (0 < maxBatchSize)%nat) by (unfold maxBatchSize; lia).
  unfold Rag.generateEmbeddings in H.
  destruct (length texts =? 0)%nat eqn:Hlen.
  { apply Nat.eqb_eq, nil_length_inv in Hlen. unfold throw in H.
    left. by inversion H. }
  apply Nat.eqb_neq in Hlen.
  assert (Hne : texts <> []) by (by intros ->).
  rewrite Hp in H. unfold openaiGenerateEmbeddings in H.
  rewrite (proj2 (Nat.eqb_neq _ _) Hlen) in H. right.
  destruct (length texts <=? maxBatchSize)%nat eqn:Hle.
  - apply Nat.leb_le in Hle. rewrite chunks_short by done.
    apply processBatch_Throw in H as (-> & Hnone & Hio).
    split; [done|]. by exists 0%nat, texts.
  - apply forBatches_openai_Throw in H as (-> & k & batch & Hk & Hnone & Hio);
      [|done].
    rewrite drop_0 in Hk, Hio. split; [done|]. by exists k, batch.
Qed.

(** *** The calls of the local model *)

Lemma generateEmbedding_call text w :
  EMBEDDING_PROVIDER E = ProviderLocal ->
  embeddingInitialized w = true ->
  embeds E text = true ->
  exists w', Rag.generateEmbedding E text w = (embedLocal E text, w') /\
             io w' = io w ++ [ModelCall text] /\ embeddingInitialized w' = true.
Proof.
  intros Hp Hi. unfold Rag.generateEmbedding, embeds, embedLocal.
  destruct (_ || _); [done|].
  rewrite Hp. unfoldM. rewrite Hi. simpl.
  destruct (model E text); [|done]. intros _. by eexists.
Qed.

Lemma startAll_calls batch : forall w,
  EMBEDDING_PROVIDER E = ProviderLocal ->
  embeddingInitialized w = true ->
  forallb (embeds E) batch = true ->
  exists w', startAll (map (Rag.generateEmbedding E) batch) w
               = (map (embedLocal E) batch, w') /\
             io w' = io w ++ map ModelCall batch /\ embeddingInitialized w' = true.
Proof.
  induction batch as [|text batch IH]; intros w Hp Hi Hall; simpl.
  - exists w. by rewrite app_nil_r.
  - simpl in Hall. apply andb_true_iff in Hall as [Ht Hall].
    destruct (generateEmbedding_call text w Hp Hi Ht) as (w1 & -> & Hio1 & Hi1).
    destruct (IH w1 Hp Hi1 Hall) as (w2 & -> & Hio2 & Hi2).
    exists w2. split; [done|]. split; [|done].
    rewrite Hio2, Hio1, <- app_assoc. done.
Qed.

Lemma forBatches_calls size texts :
  EMBEDDING_PROVIDER E = ProviderLocal ->
  (0 < size)%nat ->
  forall fuel i results w,
    (length texts <= i + fuel)%nat ->
    embeddingInitialized w = true ->
    forallb (embeds E) (drop i texts) = true ->
    exists w',
      forBatches fuel size texts i results
        (fun batch => promiseAll (map (Rag.generateEmbedding E) batch)) w
      = (Ok (results ++ omap (embedded E) (drop i texts)), w') /\
      io w' = io w ++ map ModelCall (drop i texts).
Proof.
  intros Hp Hsize fuel. induction fuel as [|fuel IH]; intros i results w Hfuel Hi Hall.
  - exists w. simpl. rewrite (proj2 (Nat.ltb_ge _ _)) by lia.
    rewrite drop_ge by lia. simpl. by rewrite !app_nil_r.
  - simpl. destruct (Nat.ltb_spec i (length texts)) as [Hlt|Hge].
    + rewrite slice_take_drop.
      rewrite <- (take_drop size (drop i texts)), forallb_app in Hall.
      apply andb_true_iff in Hall as [Hhead Htail].
      rewrite drop_drop in Htail.
      destruct (startAll_calls _ w Hp Hi Hhead) as (w1 & Hs & Hio1 & Hi1).
      destruct (IH (i + size)%nat
                  (results ++ omap (embedded E) (take size (drop i texts))) w1
                  ltac:(lia) Hi1 Htail) as (w2 & Hrec & Hio2).
      assert (Hall : promiseAll (map (Rag.generateEmbedding E) (take size (drop i texts))) w
                     = (Ok (omap (embedded E) (take size (drop i texts))), w1)).
      { unfold promiseAll. rewrite Hs.
        by destruct (settle_embeds E _ Hhead) as [-> ->]. }
      exists w2. unfold bind. rewrite Hall, Hrec. split.
      * rewrite <- app_assoc, <- omap_app, <- drop_drop. by rewrite take_drop.
      * rewrite Hio2, Hio1, <- app_assoc, <- map_app, <- drop_drop.
        by rewrite take_drop.
    + exists w. rewrite drop_ge by lia. simpl. by rewrite !app_nil_r.
Qed.

Lemma embedded_model texts : forall j text,
  forallb (embeds E) texts = true ->
  texts !! j = Some text ->
  exists e, model E text = Some e /\ JS.trimIsEmpty text = false /\
            omap (embedded E) texts !! j = Some (embeddingResult e).
Proof.
  induction texts as [|t texts IH]; intros j text Hall Hj; [done|].
  simpl in Hall. apply andb_true_iff in Hall as [Ht Hall].
  unfold embeds in Ht. unfold embedded at 1. simpl.
  destruct (embedLocal E t) as [er|] eqn:Hloc; [|done]. simpl.
  destruct j as [|j]; simpl in *; [|by apply IH].
  injection Hj as ->. unfold embedLocal in Hloc.
  destruct (negb (JS.truthy text) || JS.trimIsEmpty text) eqn:Hblank; [done|].
  apply orb_false_iff in Hblank as [_ Hblank].
  destruct (model E text) as [e|]; [|done]. injection Hloc as <-.
  by exists e.
Qed.

(** X23. With the local provider, a call of [generateEmbeddings] that returns
    has loaded the model if it was not loaded and then called it once for
    each text, in the order of the texts; no text was blank, and the result
    has the embedding of each text at the index of the text, with its
    length as dimension. *)
Theorem local_model_calls texts w rs w' :
  EMBEDDING_PROVIDER E = ProviderLocal ->
  generateEmbeddings texts w = (Ok rs, w') ->
  io w' = io w ++ (if embeddingInitialized w then [] else [ModelLoad])
            ++ map ModelCall texts /\
  length rs = length texts /\
  (forall j text, texts !! j = Some text ->
     exists e, model E text = Some e /\ JS.trimIsEmpty text = false /\
               rs !! j = Some (mkEmbeddingResult e (Z.of_nat (length e)))).
Proof.
  intros Hp H.
  destruct (forallb (embeds E) texts) eqn:Hall.
  2:{ destruct (generateEmbeddings_local_Throw E texts w Hp Hall)
        as (e & w1 & Hthrow & _).
      rewrite Hthrow in H. done. }
  unfold Rag.generateEmbeddings in H.
  destruct (length texts =? 0)%nat eqn:Hlen; [done|].
  rewrite Hp in H. unfold bind at 1, gets in H. unfold bind at 1 in H.
  destruct (unless (embeddingInitialized w) (embeddingInitialize E) w)
    as [[u|e] w0] eqn:Hinit; [|done].
  assert (Hw0 : embeddingInitialized w0 = true /\
                io w0 = io w ++ (if embeddingInitialized w then [] else [ModelLoad])).
  { revert Hinit. unfold unless, embeddingInitialize. rewrite Hp.
    destruct (embeddingInitialized w) eqn:Hi.
    - intros Hret. inversion Hret; subst w0. by rewrite app_nil_r.
    - unfoldM. rewrite Hi. simpl.
      destruct (modelLoads E); intros Hret; inversion Hret. by subst w0. }
  destruct Hw0 as [Hi0 Hio0].
  destruct (forBatches_calls (Pos.to_nat (MAX_BATCH_SIZE E)) texts Hp
              ltac:(lia) (length texts) 0%nat [] w0 ltac:(lia) Hi0
              ltac:(by rewrite drop_0))
    as (w1 & Hrun & Hio1).
  rewrite Hrun in H. rewrite drop_0 in H, Hio1. simpl app in H.
  inversion H; subst rs w1. clear H.
  split; [by rewrite Hio1, Hio0, <- app_assoc|].
  split; [by apply embedded_length|].
  intros j text Hj. by apply embedded_model.
Qed.

(** *** indexWebsite *)

Lemma trimIsEmpty_append b : forall n a,
  (String.length a <= n)%nat ->
  JS.trimIsEmpty a = true -> JS.trimIsEmpty b = true ->
  JS.trimIsEmpty (a +:+ b) = true.
Proof.
  induction n as [|n IH]; intros a Hlen Ha Hb.
  - destruct a; [done|simpl in Hlen; lia].
  - destruct a as [|c1 a1]; [done|]. rewrite append_cons.
    simpl in Ha, Hlen. cbn [JS.trimIsEmpty].
    destruct (JS.isWhiteSpace c1); [apply IH; [lia|done|done]|].
    destruct a1 as [|c2 a2]; [done|]. rewrite append_cons.
    simpl in Hlen. destruct (JS.isWhiteSpace2 c1 c2); [apply IH; [lia|done|done]|].
    destruct a2 as [|c3 a3]; [done|]. rewrite append_cons.
    simpl in Hlen. apply andb_true_iff in Ha as [H3 Ha]. rewrite H3. simpl.
    apply IH; [lia|done|done].
Qed.

Lemma addDocuments_Ok documents w ids w' :
  agentInitialized w = true ->
  addDocuments documents w = (Ok ids, w') ->
  length ids = length documents /\
  crawler w' = crawler w /\
  forall j doc, documents !! j = Some doc ->
    exists i er,
      ids !! j = Some i /\
      Database.documents (tables w') !! i =
        Some (rowOf i (mkNewDocument (d_content doc) (embedding er)
                         (d_metadata doc) (d_source doc))).
Proof.
  intros Hinit. rewrite (addDocuments_initialized E documents w Hinit). intros H.
  apply bind_inv in H as [(embs & w1 & Hgen & H)|(e & _ & ?)]; [|done].
  destruct (generateEmbeddings_frame E _ _ _ _ Hgen) as [_ _ _ _ Hc].
  destruct (withEmbeddings documents 0 embs) as [nds|] eqn:Hwith; [|done].
  destruct (batchInsertDocuments_keeps _ _ _ _ H) as (_ & _ & _ & Hc').
  apply batchInsertDocuments_Ok, StoreFacts.transaction_Ok in H as [Hlen Hrows].
  destruct (withEmbeddings_Ok _ _ _ _ Hwith) as [Hlen' Hnds].
  split; [congruence|]. split; [congruence|]. intros j doc Hj.
  destruct (Hnds j doc Hj) as (er & _ & Hnd).
  destruct (Hrows j _ Hnd) as (i & Hid & Hrow & _).
  by exists i, er.
Qed.

Lemma indexWebsite_inv fuel url options w r w' :
  indexWebsite fuel url options w = Some (r, w') ->
  (exists e, r = Throw e /\ ensureInitialized E w = (Throw e, w')) \/
  exists w1 run w2,
    ensureInitialized E w = (Ok tt, w1) /\
    agentInitialized w1 = true /\ tables w1 = tables w /\
    Firecrawl.crawlWebsite (http E) (hostname E) fuel (crawler w) url options
      = Some run /\
    agentInitialized w2 = true /\ tables w2 = tables w /\
    crawler w2 = Firecrawl.engine run /\
    match Firecrawl.outcome run with
    | Throw e => r = Throw e /\ w' = w2
    | Ok pages =>
        (documentIds <- addDocuments (pagesToDocuments pages) ;;
         ret (documentIds, Z.of_nat (length pages))) w2 = (r, w')
    end.
Proof.
  unfold Rag.indexWebsite, crawl.
  destruct (ensureInitialized E w) as [[[]|e] w1] eqn:Hinit.
  2:{ intros [= <- <-]. left. by exists e. }
  destruct (ensureInitialized_spec E _ _ _ Hinit) as (_ & Ht & Hc & Ha & _).
  specialize (Ha eq_refl). rewrite Hc.
  destruct (Firecrawl.crawlWebsite _ _ _ _ _ _) as [run|] eqn:Hrun; [|done].
  intros H. right.
  exists w1, run,
    (mkWorld (agentInitialized w1) (redisConnected w1) (redisStore w1)
       (embeddingInitialized w1) (tables w1) (Firecrawl.engine run)
       (io w1 ++ map HttpGet (Firecrawl.fetchedUrls (Firecrawl.trace run)))).
  split; [done|]. split; [done|]. split; [done|]. split; [done|].
  split; [done|]. split; [done|]. split; [done|].
  destruct (Firecrawl.outcome run) as [pages|e] eqn:Hout.
  - by injection H as H.
  - by injection H as <- <-.
Qed.

(** X24. When [indexWebsite] returns, it has crawled the site with the shared
    engine and stored one document for each page of the crawl, in the
    order of the crawl: the page count is the number of ids, and the row of
    each page has the page's URL as its source and the page's title, a
    blank line and the page's content as its content. *)
Theorem indexWebsite_rows fuel url options w ids n w' :
  indexWebsite fuel url options w = Some (Ok (ids, n), w') ->
  exists run pages,
    Firecrawl.crawlWebsite (http E) (hostname E) fuel (crawler w) url options
      = Some run /\
    Firecrawl.outcome run = Ok pages /\
    crawler w' = Firecrawl.engine run /\
    pages <> [] /\
    n = Z.of_nat (length pages) /\
    length ids = length pages /\
    forall j page, pages !! j = Some page ->
      exists i row,
        ids !! j = Some i /\
        documents (tables w') !! i = Some row /\
        id row = i /\
        source row = Some (Firecrawl.url page) /\
        content row =
          Firecrawl.title page +:+ blankLine +:+ Firecrawl.content page.
Proof.
  intros H.
  apply indexWebsite_inv in H
    as [(e & ? & _)|(w1 & run & w2 & _ & _ & _ & Hrun & Ha2 & _ & Hc2 & H)];
    [done|].
  destruct (Firecrawl.outcome run) as [pages|e] eqn:Hout; [|by destruct H].
  apply bind_inv in H as [(ids' & w3 & Hadd & H)|(e & _ & ?)]; [|done].
  unfold ret in H. inversion H; subst ids' n w3. clear H.
  exists run, pages. split; [done|]. split; [done|].
  assert (Hne : pages <> []).
  { intros ->. simpl in Hadd.
    rewrite (addDocuments_initialized E [] w2 Ha2) in Hadd.
    unfold bind, Rag.generateEmbeddings in Hadd. by simpl in Hadd. }
  destruct (addDocuments_Ok _ _ _ _ Ha2 Hadd) as (Hlen & Hc & Hrows).
  unfold pagesToDocuments in Hlen, Hrows. rewrite length_map in Hlen.
  split; [congruence|]. split; [done|]. split; [done|]. split; [done|].
  intros j page Hj.
  destruct (Hrows j _ ltac:(by rewrite list_lookup_fmap, Hj)) as (i & er & Hid & Hrow).
  eexists i, _. split; [done|]. split; [exact Hrow|]. by repeat split.
Qed.

(** X25. With the local provider, one page without title and with nothing but
    white space as content makes [indexWebsite] fail for the whole site:
    no page of the crawl is stored. *)
Theorem indexWebsite_blank_page fuel url options w run pages page :
  EMBEDDING_PROVIDER E = ProviderLocal ->
  Firecrawl.crawlWebsite (http E) (hostname E) fuel (crawler w) url options
    = Some run ->
  Firecrawl.outcome run = Ok pages ->
  page ∈ pages ->
  JS.trimIsEmpty (Firecrawl.title page) = true ->
  JS.trimIsEmpty (Firecrawl.content page) = true ->
  exists e w',
    indexWebsite fuel url options w = Some (Throw e, w') /\
    tables w' = tables w.
Proof.
  intros Hp Hrun Hout Hpage Htitle Hcontent.
  unfold Rag.indexWebsite, crawl.
  destruct (ensureInitialized E w) as [[[]|e] w1] eqn:Hinit.
  2:{ exists e, w1. split; [done|].
      by destruct (ensureInitialized_spec E _ _ _ Hinit) as (_ & ? & _). }
  destruct (ensureInitialized_spec E _ _ _ Hinit) as (_ & Ht & Hc & Ha & _).
  specialize (Ha eq_refl). rewrite Hc, Hrun, Hout.
  set (w2 := mkWorld _ _ _ _ _ _ _).
  assert (Hbad : forallb (embeds E) (map d_content (pagesToDocuments pages)) = false).
  { apply not_true_is_false. intros Hall.
    rewrite forallb_forall in Hall.
    specialize (Hall (Firecrawl.title page +:+ blankLine +:+ Firecrawl.content page)).
    unfold Rag.embeds, Rag.embedLocal in Hall.
    rewrite (trimIsEmpty_append _ _ _ (Nat.le_refl _) Htitle
               (trimIsEmpty_append _ _ blankLine (Nat.le_refl _) eq_refl Hcontent)),
      orb_true_r in Hall.
    simpl in Hall. discriminate Hall.
    apply list_elem_of_In. unfold pagesToDocuments. rewrite map_map.
    apply list_elem_of_fmap. by exists page. }
  destruct (generateEmbeddings_local_Throw E _ w2 Hp Hbad) as (e & w3 & Hgen & Hf).
  exists e, w3. split.
  - f_equal. unfold bind at 1.
    rewrite (addDocuments_initialized E _ w2 Ha). unfold bind. by rewrite Hgen.
  - destruct Hf as [_ _ _ Ht3 _]. by rewrite Ht3.
Qed.

End Agent.

End AgentMore.

(** ** addDocuments *)

Module BatchFacts.
Import Rag Upkeep RagFacts AgentMore.

Section Agent.

Variable E : Env.

Local Abbreviation addDocuments := (Rag.addDocuments E).
Local Abbreviation generateEmbeddings := (Rag.generateEmbeddings E).
Local Abbreviation embeds := (Rag.embeds E).
Local Abbreviation embedded := (Rag.embedded E).
Local Abbreviation acceptable := (Rag.acceptable E).
Local Abbreviation answered := (Upkeep.answered E).

(** *** The local provider *)

(** What [if (!this.isInitialized) await this.initialize()] leaves when it
    returns. *)
Lemma embedding_ready w u w0 :
  EMBEDDING_PROVIDER E = ProviderLocal ->
  unless (embeddingInitialized w) (embeddingInitialize E) w = (Ok u, w0) ->
  embeddingInitialized w0 = true /\ framed w w0.
Proof.
  intros Hp. unfold unless, embeddingInitialize. rewrite Hp.
  destruct (embeddingInitialized w) eqn:Hi.
  - intros Hret. inversion Hret; subst w0. split; [done|apply framed_refl].
  - unfoldM. rewrite Hi. simpl.
    destruct (modelLoads E); intros Hret; inversion Hret. subst w0. by split.
Qed.

Lemma embedding_loads w :
  EMBEDDING_PROVIDER E = ProviderLocal ->
  embeddingInitialized w = true \/ modelLoads E = true ->
  exists w0, unless (embeddingInitialized w) (embeddingInitialize E) w = (Ok tt, w0).
Proof.
  intros Hp Hready. unfold unless, embeddingInitialize. rewrite Hp.
  destruct (embeddingInitialized w) eqn:Hi; [by eexists|].
  destruct Hready as [?|Hloads]; [done|].
  unfoldM. rewrite Hi, Hloads. by eexists.
Qed.

Lemma generateEmbeddings_local_run texts w :
  EMBEDDING_PROVIDER E = ProviderLocal ->
  texts <> [] ->
  embeddingInitialized w = true \/ modelLoads E = true ->
  forallb embeds texts = true ->
  exists w', generateEmbeddings texts w = (Ok (omap embedded texts), w').
Proof.
  intros Hp Hne Hready Hall. unfold Rag.generateEmbeddings.
  destruct (length texts =? 0)%nat eqn:Hlen.
  { apply Nat.eqb_eq, nil_length_inv in Hlen. by subst texts. }
  rewrite Hp. unfold bind at 1, gets. unfold bind at 1.
  destruct (embedding_loads w Hp Hready) as [w0 Hinit]. rewrite Hinit.
  destruct (embedding_ready _ _ _ Hp Hinit) as [Hi0 _].
  destruct (forBatches_local E (Pos.to_nat (MAX_BATCH_SIZE E)) texts Hp
              ltac:(lia) (length texts) 0%nat [] w0 ltac:(lia) Hi0)
    as (w' & _ & Hrun).
  rewrite drop_0, Hall in Hrun. simpl app in Hrun. by exists w'.
Qed.

Lemma generateEmbeddings_local_inv texts w rs w' :
  EMBEDDING_PROVIDER E = ProviderLocal ->
  generateEmbeddings texts w = (Ok rs, w') ->
  forallb embeds texts = true /\ rs = omap embedded texts.
Proof.
  intros Hp H.
  destruct (forallb embeds texts) eqn:Hall.
  2:{ destruct (generateEmbeddings_local_Throw E texts w Hp Hall)
        as (e & w1 & Hthrow & _).
      rewrite Hthrow in H. done. }
  split; [done|].
  unfold Rag.generateEmbeddings in H.
  destruct (length texts =? 0)%nat eqn:Hlen; [done|].
  rewrite Hp in H. unfold bind at 1, gets in H. unfold bind at 1 in H.
  destruct (unless (embeddingInitialized w) (embeddingInitialize E) w)
    as [[u|e] w0] eqn:Hinit; [|done].
  destruct (embedding_ready _ _ _ Hp Hinit) as [Hi0 _].
  destruct (forBatches_local E (Pos.to_nat (MAX_BATCH_SIZE E)) texts Hp
              ltac:(lia) (length texts) 0%nat [] w0 ltac:(lia) Hi0)
    as (w1 & _ & Hrun).
  rewrite drop_0, Hall in Hrun. simpl app in Hrun.
  rewrite Hrun in H. by inversion H.
Qed.

(** *** OpenAI *)

Lemma processBatch_run batch w :
  answered batch ->
  exists rs w', processBatch E batch w = (Ok rs, w') /\ length rs = length batch.
Proof.
  intros (data & Hdata & Hlen). unfold processBatch. unfoldM. rewrite Hdata.
  eexists _, _. split; [reflexivity|]. by rewrite length_map.
Qed.

Lemma forBatches_openai_run size texts :
  (0 < size)%nat ->
  forall fuel i results w,
    (length texts <= i + fuel)%nat ->
    Forall answered (chunksFrom fuel size (drop i texts)) ->
    exists rs w',
      forBatches fuel size texts i results (processBatch E) w = (Ok rs, w') /\
      length rs = (length results + length (drop i texts))%nat.
Proof.
  intros Hsize. induction fuel as [|fuel IH]; intros i results w Hfuel Hall.
  - exists results, w. simpl. rewrite (proj2 (Nat.ltb_ge _ _)) by lia.
    rewrite drop_ge by lia. simpl. split; [done|lia].
  - cbn [forBatches]. destruct (Nat.ltb_spec i (length texts)) as [Hlt|Hge].
    + assert (Hne : drop i texts <> []).
      { intros Hnil. apply (f_equal length) in Hnil.
        rewrite length_drop in Hnil. simpl in Hnil. lia. }
      rewrite chunksFrom_S, drop_drop in Hall by done.
      apply Forall_cons in Hall as [Hhead Htail].
      rewrite slice_take_drop.
      destruct (processBatch_run _ w Hhead) as (batch & w1 & Hp & Hlen).
      destruct (IH (i + size)%nat (results ++ batch) w1 ltac:(lia) Htail)
        as (rs & w' & Hrun & Hlen').
      exists rs, w'. unfold bind. rewrite Hp. split; [done|].
      rewrite Hlen', length_app, Hlen, length_take, !length_drop. lia.
    + exists results, w. unfold ret. rewrite drop_ge by lia. simpl.
      split; [done|lia].
Qed.

Lemma generateEmbeddings_openai_run texts w :
  EMBEDDING_PROVIDER E = ProviderOpenAI ->
  texts <> [] ->
  Forall answered (chunks maxBatchSize texts) ->
  exists rs w', generateEmbeddings texts w = (Ok rs, w') /\ length rs = length texts.
Proof.
  intros Hp Hne Hall.
  assert (Hsize : (0 < maxBatchSize)%nat) by (unfold maxBatchSize; lia).
  unfold Rag.generateEmbeddings.
  destruct (length texts =? 0)%nat eqn:Hlen.
  { apply Nat.eqb_eq, nil_length_inv in Hlen. by subst texts. }
  rewrite Hp. unfold openaiGenerateEmbeddings. rewrite Hlen.
  destruct (length texts <=? maxBatchSize)%nat eqn:Hle.
  - apply Nat.leb_le in Hle. rewrite chunks_short in Hall by done.
    apply Forall_cons in Hall as [Hone _]. by apply processBatch_run.
  - destruct (forBatches_openai_run maxBatchSize texts Hsize (length texts) 0%nat
                [] w ltac:(lia) ltac:(by rewrite drop_0))
      as (rs & w' & Hrun & Hlen').
    exists rs, w'. split; [done|]. rewrite Hlen', drop_0. simpl. lia.
Qed.

Lemma generateEmbeddings_openai_inv texts w rs w' :
  EMBEDDING_PROVIDER E = ProviderOpenAI ->
  generateEmbeddings texts w = (Ok rs, w') ->
  exists datas,
    Forall2 (fun batch data => openai E batch = Some data)
      (chunks maxBatchSize texts) datas /\
    rs = map embeddingResult (concat datas).
Proof.
  intros Hp H.
  assert (Hsize : (0 < maxBatchSize)%nat) by (unfold maxBatchSize; lia).
  unfold Rag.generateEmbeddings in H. rewrite Hp in H.
  unfold openaiGenerateEmbeddings in H.
  destruct (length texts =? 0)%nat eqn:Hlen; [done|].
  apply Nat.eqb_neq in Hlen.
  assert (Hne : texts <> []) by (by intros ->).
  destruct (length texts <=? maxBatchSize)%nat eqn:Hle.
  - apply Nat.leb_le in Hle. rewrite chunks_short by done.
    apply processBatch_Ok in H as (_ & data & Hdata & ->).
    exists [data]. split; [by repeat constructor|].
    simpl. by rewrite app_nil_r.
  - apply forBatches_openai in H as (_ & datas & Hall & ->); [|done].
    by exists datas.
Qed.

(** *** The batch *)


End Agent.

End BatchFacts.

(** ** Further runs on the small web and the small deployment *)

Module MoreRuns.
Import Firecrawl Web CrawlNotions Rag Demo Cases.

(** *** The crawl engine *)

Lemma runSeedOnly_without_b :
  crawlWebsite Web.http Web.hostname 10 idle A withoutB = Some runSeedOnly.
Proof. vm_compute. reflexivity. Qed.

Lemma runSeedOnly_depth_0 :
  crawlWebsite Web.http Web.hostname 10 idle A (budget 0 10) = Some runSeedOnly.
Proof. vm_compute. reflexivity. Qed.

Lemma runNothing_eq :
  crawlWebsite Web.http Web.hostname 10 idle A (budget 1 0) = Some runNothing.
Proof. vm_compute. reflexivity. Qed.

(** *** Calls that overlap *)

(** C9. The visited set is a field of the one service object, and the
    calls of [crawlWebsite] in flight share it. Alone on the service, the
    crawl of A with the default options fetches A and B and returns these
    two pages. When the crawl of C starts after the first iteration of the
    crawl of A, it clears the field: the crawl of A finds the link back to
    A not visited, fetches A again and returns page A twice. When both
    calls have returned, the field holds the three URLs. *)
Lemma overlapping_crawls_share_visited :
  crawlWebsite Web.http Web.hostname 10 idle A Firecrawl.noOptions = Some runAlone /\
  Overlap.run Web.http Web.hostname [0; 0; 0]%nat
    (Overlap.mkProcess idle [Overlap.Pending A Firecrawl.noOptions])
  = Some (Overlap.mkProcess (engine runAlone)
            [Overlap.Returned (outcome runAlone) (trace runAlone)]) /\
  outcome runAlone = Ok [pageA; pageB] /\
  Overlap.run Web.http Web.hostname overlapped twoCalls = Some afterOverlapped /\
  Overlap.calls afterOverlapped !! 0%nat
  = Some (Overlap.Returned (Ok [pageA; pageB; pageA])
            (fetchesA ++ [(mkTask A 2, Some pageA)])) /\
  Overlap.undisturbed Web.http Web.hostname 0 overlapped twoCalls = false /\
  visitedUrls (Overlap.service afterOverlapped) = {[A; B; C]}.
Proof.
  split; [vm_compute; reflexivity|]. split; [vm_compute; reflexivity|].
  split; [reflexivity|]. split; [vm_compute; reflexivity|].
  split; [reflexivity|]. split; [vm_compute; reflexivity|]. reflexivity.
Qed.

(** The crawl of C starts before the crawl of A and ends while the crawl
    of A is in flight. *)
Lemma crawl_pages_distinct_witness :
  Overlap.calls twoCalls !! 0%nat = Some (Overlap.Pending A Firecrawl.noOptions) /\
  Overlap.run Web.http Web.hostname startedBefore twoCalls = Some afterStartedBefore /\
  Overlap.calls afterStartedBefore !! 0%nat
  = Some (Overlap.Returned (Ok [pageA; pageB]) fetchesA) /\
  Overlap.undisturbed Web.http Web.hostname 0 startedBefore twoCalls = true /\
  Forall (fun page => scrapePage Web.http (url page) = Some page) [pageA; pageB] /\
  NoDup (fetchedUrls fetchesA) /\
  NoDup (map url [pageA; pageB]).
Proof.
  assert (H1 : Overlap.calls twoCalls !! 0%nat
               = Some (Overlap.Pending A Firecrawl.noOptions)) by reflexivity.
  assert (H2 : Overlap.run Web.http Web.hostname startedBefore twoCalls
               = Some afterStartedBefore) by (vm_compute; reflexivity).
  assert (H3 : Overlap.calls afterStartedBefore !! 0%nat
               = Some (Overlap.Returned (Ok [pageA; pageB]) fetchesA)) by reflexivity.
  assert (H4 : Overlap.undisturbed Web.http Web.hostname 0 startedBefore twoCalls
               = true) by (vm_compute; reflexivity).
  split; [exact H1|]. split; [exact H2|]. split; [exact H3|]. split; [exact H4|].
  destruct (OverlapFacts.crawl_pages_distinct Web.http Web.hostname startedBefore 0
              twoCalls afterStartedBefore A Firecrawl.noOptions
              (Ok [pageA; pageB]) fetchesA H1 H2 H3) as [Hpages Hquiet].
  destruct (Hpages [pageA; pageB] eq_refl) as [_ Hall].
  destruct (Hquiet H4) as [Hnd Hdistinct].
  split; [exact Hall|]. split; [exact Hnd|]. exact (Hdistinct [pageA; pageB] eq_refl).
Defined.

(** *** The crawl that no call overlaps *)

(** Page B is linked from page A and on the same host; its URL contains
    ["/b"], so the crawl leaves it out. *)
Lemma crawl_respects_filters_witness :
  crawlWebsite Web.http Web.hostname 10 idle A withoutB = Some runSeedOnly /\
  Forall (inScope (includePathsOf withoutB) (excludePathsOf withoutB))
    (fetchedUrls (trace runSeedOnly)).
Proof.
  assert (H1 : crawlWebsite Web.http Web.hostname 10 idle A withoutB = Some runSeedOnly)
    by (vm_compute; reflexivity).
  split; [exact H1|].
  exact (CrawlMore.crawl_respects_filters Web.http Web.hostname 10 idle A withoutB
           runSeedOnly H1).
Defined.

Lemma crawl_level_order_witness :
  crawlWebsite Web.http Web.hostname 10 idle A (budget 1 10) = Some runA /\
  nondecreasing (fetchDepths (trace runA)).
Proof.
  assert (H1 : crawlWebsite Web.http Web.hostname 10 idle A (budget 1 10) = Some runA)
    by (vm_compute; reflexivity).
  split; [exact H1|].
  exact (CrawlMore.crawl_level_order Web.http Web.hostname 10 idle A (budget 1 10) runA H1).
Defined.

Lemma crawl_follows_links_witness :
  crawlWebsite Web.http Web.hostname 10 idle A (budget 1 10) = Some runA /\
  Forall (fun f => foundFrom A (trace runA) (fst f)) (trace runA).
Proof.
  assert (H1 : crawlWebsite Web.http Web.hostname 10 idle A (budget 1 10) = Some runA)
    by (vm_compute; reflexivity).
  split; [exact H1|].
  exact (CrawlMore.crawl_follows_links Web.http Web.hostname 10 idle A (budget 1 10) runA H1).
Defined.

Lemma crawl_empty_budget_witness :
  (maxPagesOf (budget 1 0) <= 0 \/ maxDepthOf (budget 1 0) < 0) /\
  crawlWebsite Web.http Web.hostname 10 idle A (budget 1 0) = Some runNothing /\
  outcome runNothing = Ok [] /\ trace runNothing = [] /\
  visitedUrls (engine runNothing) = ∅.
Proof.
  assert (H1 : maxPagesOf (budget 1 0) <= 0 \/ maxDepthOf (budget 1 0) < 0)
    by (left; vm_compute; discriminate).
  assert (H2 : crawlWebsite Web.http Web.hostname 10 idle A (budget 1 0) = Some runNothing)
    by (vm_compute; reflexivity).
  split; [exact H1|]. split; [exact H2|].
  exact (CrawlMore.crawl_empty_budget Web.http Web.hostname 10 idle A (budget 1 0)
           runNothing H1 H2).
Defined.

Lemma crawl_never_throws_witness :
  is_Some (Web.hostname A) /\
  crawlWebsite Web.http Web.hostname 10 idle A (budget 1 10) = Some runA /\
  exists pages, outcome runA = Ok pages.
Proof.
  assert (H1 : is_Some (Web.hostname A)) by (vm_compute; eauto).
  assert (H2 : crawlWebsite Web.http Web.hostname 10 idle A (budget 1 10) = Some runA)
    by (vm_compute; reflexivity).
  split; [exact H1|]. split; [exact H2|].
  exact (CrawlMore.crawl_never_throws Web.http Web.hostname 10 idle A (budget 1 10)
           runA H1 H2).
Defined.

Lemma crawl_depth_zero_witness :
  maxDepthOf (budget 0 10) = 0 /\
  crawlWebsite Web.http Web.hostname 10 idle A (budget 0 10) = Some runSeedOnly /\
  (trace runSeedOnly = [] \/ exists o, trace runSeedOnly = [(mkTask A 0, o)]).
Proof.
  assert (H1 : maxDepthOf (budget 0 10) = 0) by reflexivity.
  assert (H2 : crawlWebsite Web.http Web.hostname 10 idle A (budget 0 10) = Some runSeedOnly)
    by (vm_compute; reflexivity).
  split; [exact H1|]. split; [exact H2|].
  exact (CrawlMore.crawl_depth_zero Web.http Web.hostname 10 idle A (budget 0 10)
           runSeedOnly H1 H2).
Defined.

(** Page A has three [href]s, two of them the same. *)
Lemma scrapePage_links_witness :
  scrapePage Web.http A = Some pageA /\
  url pageA = A /\
  NoDup (links pageA) /\
  exists e, Web.http A = Some e /\
    (forall x, x ∈ links pageA <-> x ∈ e_hrefs e) /\
    links pageA `sublist_of` e_hrefs e.
Proof.
  assert (H1 : scrapePage Web.http A = Some pageA) by (vm_compute; reflexivity).
  split; [exact H1|].
  exact (CrawlMore.scrapePage_links Web.http A pageA H1).
Defined.

(** *** The text of a page *)

Example clean_of_a_text :
  Scrape.clean ascii JS.isWhiteSpace " "%char (text "  two   words ") = text "two words".
Proof. vm_compute. reflexivity. Qed.

Example keywords_of_a_tag :
  Scrape.keywordsOf ascii JS.isWhiteSpace isComma (Some (text "rag, mcp ,,server"))
  = Some [text "rag"; text "mcp"; text ""; text "server"].
Proof. vm_compute. reflexivity. Qed.

Lemma clean_tidies_witness :
  JS.isWhiteSpace " "%char = true /\
  Scrape.tidy ascii JS.isWhiteSpace " "%char
    (Scrape.clean ascii JS.isWhiteSpace " "%char (text "  two   words ")) /\
  filter (fun c => JS.isWhiteSpace c = false)
    (Scrape.clean ascii JS.isWhiteSpace " "%char (text "  two   words "))
  = filter (fun c => JS.isWhiteSpace c = false) (text "  two   words ") /\
  (Scrape.tidy ascii JS.isWhiteSpace " "%char (text "  two   words ") ->
   Scrape.clean ascii JS.isWhiteSpace " "%char (text "  two   words ")
   = text "  two   words ") /\
  Scrape.clean ascii JS.isWhiteSpace " "%char
    (Scrape.clean ascii JS.isWhiteSpace " "%char (text "  two   words "))
  = Scrape.clean ascii JS.isWhiteSpace " "%char (text "  two   words ").
Proof.
  assert (H1 : JS.isWhiteSpace " "%char = true) by reflexivity.
  split; [exact H1|].
  exact (ScrapeFacts.clean_tidies ascii JS.isWhiteSpace " "%char H1 (text "  two   words ")).
Defined.

(** *** The store *)

Lemma paired_noTables : Rows.paired noTables.
Proof.
  split; simpl.
  - intros i _. apply lookup_empty.
  - constructor.
  - intros i. rewrite lookup_empty, elem_of_nil. split; [by intros [? ?]|done].
Qed.

Lemma paired_kept_witness :
  Rows.paired noTables /\
  (forall ds,
     Rows.paired (snd (transaction (fun _ => true) (fun _ => true) noTables ds))) /\
  (forall i deleted t',
     Rows.deleteDocument noTables i = Some (deleted, t') -> Rows.paired t') /\
  (forall E i w r w',
     tables w = noTables -> Upkeep.dbDeleteDocument E i w = (r, w') ->
     Rows.paired (tables w')).
Proof.
  split; [exact paired_noTables|].
  exact (RowFacts.paired_kept (fun _ => true) (fun _ => true) noTables paired_noTables).
Defined.

(** A batch that is rolled back at its second document, after the first
    drew id 1: the next id is 2 when the refused statement drew none, and
    3 when it drew one. *)
Example rollback_after_one_id :
  transaction needsContent (fun _ => false) noTables [aMemo; noContent]
  = (Throw StoreError, mkTables ∅ [] 2) /\
  transaction needsContent (fun _ => true) noTables [aMemo; noContent]
  = (Throw StoreError, mkTables ∅ [] 3).
Proof. split; vm_compute; reflexivity. Qed.

(** A batch that is refused at its first document, before an id is
    drawn, leaves the sequence where it was. *)
Example rollback_without_id :
  transaction needsContent (fun _ => false) noTables [noContent; aMemo]
  = (Throw StoreError, noTables).
Proof. vm_compute. reflexivity. Qed.

(** The sequence has given its last id. *)
Example sequence_exhausted :
  transaction (fun _ => true) (fun _ => true) (mkTables ∅ [] 2147483648) [aMemo]
  = (Throw StoreError, mkTables ∅ [] 2147483648).
Proof. vm_compute. reflexivity. Qed.

Lemma paired_oneRow : Rows.paired oneRow.
Proof. apply RowFacts.paired_insertOne, paired_noTables. Qed.

Lemma deleteDocumentTool_agrees_witness :
  Rows.paired oneRow /\
  Tools.deleteDocumentTool oneRow 1 = Rows.deleteDocument oneRow 1 /\
  (forall t', Tools.deleteDocumentTool oneRow 1 = Some (false, t') -> t' = oneRow).
Proof.
  split; [exact paired_oneRow|].
  exact (RowFacts.deleteDocumentTool_agrees oneRow 1 paired_oneRow).
Defined.

Example deleteDocumentTool_found :
  Tools.deleteDocumentTool oneRow 1 = Some (true, mkTables ∅ [] 2).
Proof. vm_compute. reflexivity. Qed.

(** An id that the [integer] column cannot hold makes the statement
    fail. *)
Example deleteDocument_out_of_range :
  Rows.deleteDocument oneRow 2147483648 = None /\
  Rows.getDocumentById oneRow 2147483648 = None /\
  Tools.deleteDocumentTool oneRow 2147483648 = None /\
  Upkeep.deleteDocument E 2147483648 wMemo = (Throw StoreError, wMemo).
Proof. repeat split; vm_compute; reflexivity. Qed.

Lemma getStats_counts_witness :
  Rows.paired oneRow /\
  fst (Tools.getStats oneRow) = snd (Tools.getStats oneRow) /\
  fst (Tools.getStats oneRow) = Rows.getDocumentCount oneRow.
Proof.
  split; [exact paired_oneRow|].
  exact (RowFacts.getStats_counts oneRow paired_oneRow).
Defined.

(** *** The agent *)

Lemma cacheKey_injective_witness :
  cacheKeyOf "hello" 2 = cacheKeyOf "hello" 2 /\
  "hello"%string = "hello"%string /\ 2 = 2.
Proof.
  assert (H1 : cacheKeyOf "hello" 2 = cacheKeyOf "hello" 2) by reflexivity.
  split; [exact H1|].
  exact (AgentMore.cacheKey_injective "hello" 2 "hello" 2 H1).
Defined.

(** A text with a [':'] does not collide with a shorter text. *)
Example keys_with_colons :
  cacheKeyOf "a:1" 2 = "rag:query:a:1:2"%string /\
  cacheKeyOf "a:1" 2 <> cacheKeyOf "a" 12.
Proof. split; [reflexivity|]. vm_compute. discriminate. Qed.

Lemma query_touches_one_key_witness :
  query E "hello" (options 2 0) w0 = (Ok answer, w1) /\
  tables w1 = tables w0 /\
  crawler w1 = crawler w0 /\
  (forall key, key <> cacheKeyOf "hello" (topKOf E (options 2 0)) ->
     redisStore w1 !! key = redisStore w0 !! key) /\
  (forall e, Ok answer = Throw e ->
     redisStore w1 = redisStore w0 /\
     (agentInitialized w0 = true -> exists cause, e = QueryFailed cause)).
Proof.
  assert (H1 : query E "hello" (options 2 0) w0 = (Ok answer, w1))
    by (vm_compute; reflexivity).
  split; [exact H1|].
  exact (AgentMore.query_touches_one_key E "hello" (options 2 0) w0 (Ok answer) w1 H1).
Defined.

Lemma first_operation :
  initialize E cold
  = (Ok tt, mkWorld true true ∅ true noTables idle [RedisConnect; ModelLoad; DbSchema]).
Proof. vm_compute. reflexivity. Qed.

Lemma initialize_outcome_witness :
  initialize E cold
  = (Ok tt, mkWorld true true ∅ true noTables idle [RedisConnect; ModelLoad; DbSchema]) /\
  agentInitialized cold = false /\
  (EMBEDDING_PROVIDER E = ProviderOpenAI \/ embeddingInitialized cold = true \/
   modelLoads E = true) /\
  dbConnects E = true /\ schemaApplies E = true.
Proof.
  assert (H1 : initialize E cold
    = (Ok tt, mkWorld true true ∅ true noTables idle [RedisConnect; ModelLoad; DbSchema]))
    by (vm_compute; reflexivity).
  assert (H2 : agentInitialized cold = false) by reflexivity.
  split; [exact H1|]. split; [exact H2|].
  destruct (AgentMore.initialize_outcome E cold _ _ H1) as (_ & Hcold & _).
  destruct (Hcold H2) as ((Hready & _) & _).
  exact (Hready eq_refl).
Defined.


Lemma referenced_noTables : Rows.referenced noTables.
Proof. intros row Hrow. by apply elem_of_nil in Hrow. Qed.


(** *** addDocuments *)


(** A text of Unicode white space is blank: it is not embedded, and a
    document of it is not added. *)
Example blank_in_unicode :
  JS.trimIsEmpty wideBlank = true /\
  embeds E wideBlank = false /\
  fst (addDocument E (mkInput wideBlank None None) w0) = Throw TextEmpty /\
  fst (addDocuments E [mkInput "one" None None; mkInput wideBlank None None] w0)
  = Throw TextEmpty.
Proof. repeat split; vm_compute; reflexivity. Qed.

(** With OpenAI as the provider the batch is added as well. *)
Example addDocuments_openai :
  fst (addDocuments EOpenAI docs3 w0) = Ok [1; 2; 3].
Proof. vm_compute. reflexivity. Qed.

(** The answer to ["hello"] is in the cache of [w1]. *)
Lemma writes_keep_cached_answers_witness :
  agentInitialized w1 = true /\
  redisConnected w1 = true /\
  redisAnswers E = true /\
  redisStore w1 !! cacheKeyOf "hello" (topKOf E (options 2 0)) = Some answer /\
  (forall documents r w2,
     addDocuments E documents w1 = (r, w2) ->
     fst (query E "hello" (options 2 0) w2) = Ok answer) /\
  (forall i r w2,
     Upkeep.deleteDocument E i w1 = (r, w2) ->
     fst (query E "hello" (options 2 0) w2) = Ok answer).
Proof.
  assert (H1 : agentInitialized w1 = true) by (vm_compute; reflexivity).
  assert (H2 : redisConnected w1 = true) by (vm_compute; reflexivity).
  assert (H3 : redisAnswers E = true) by reflexivity.
  assert (H4 : redisStore w1 !! cacheKeyOf "hello" (topKOf E (options 2 0)) = Some answer)
    by (vm_compute; reflexivity).
  split; [exact H1|]. split; [exact H2|]. split; [exact H3|]. split; [exact H4|].
  exact (AgentMore.writes_keep_cached_answers E "hello" (options 2 0) w1 answer
           H1 H2 H3 H4).
Defined.

Lemma openai_batches_witness :
  EMBEDDING_PROVIDER EOpenAI = ProviderOpenAI /\
  generateEmbeddings EOpenAI ["one"; "two"]%string w0
  = (Ok [mkEmbeddingResult [1%float] 1; mkEmbeddingResult [1%float] 1],
     snd (generateEmbeddings EOpenAI ["one"; "two"]%string w0)) /\
  io (snd (generateEmbeddings EOpenAI ["one"; "two"]%string w0))
  = io w0 ++ map OpenAICall (Upkeep.chunks maxBatchSize ["one"; "two"]%string) /\
  concat (Upkeep.chunks maxBatchSize ["one"; "two"]%string) = ["one"; "two"]%string.
Proof.
  assert (H1 : EMBEDDING_PROVIDER EOpenAI = ProviderOpenAI) by reflexivity.
  assert (H2 : generateEmbeddings EOpenAI ["one"; "two"]%string w0
    = (Ok [mkEmbeddingResult [1%float] 1; mkEmbeddingResult [1%float] 1],
       snd (generateEmbeddings EOpenAI ["one"; "two"]%string w0)))
    by (vm_compute; reflexivity).
  split; [exact H1|]. split; [exact H2|].
  destruct (AgentMore.openai_batches EOpenAI _ _ _ _ H1 H2)
    as (_ & Hio & _ & Hconcat & _).
  split; [exact Hio|exact Hconcat].
Defined.

Lemma openai_batches_abort_witness :
  EMBEDDING_PROVIDER EOpenAIDown = ProviderOpenAI /\
  generateEmbeddings EOpenAIDown ["one"; "two"]%string w0
  = (Throw EmbeddingFailed, snd (generateEmbeddings EOpenAIDown ["one"; "two"]%string w0)) /\
  ((["one"; "two"]%string = [] /\ EmbeddingFailed = TextsEmpty /\
    snd (generateEmbeddings EOpenAIDown ["one"; "two"]%string w0) = w0) \/
   (EmbeddingFailed = EmbeddingFailed /\
    exists k batch,
      Upkeep.chunks maxBatchSize ["one"; "two"]%string !! k = Some batch /\
      openai EOpenAIDown batch = None /\
      io (snd (generateEmbeddings EOpenAIDown ["one"; "two"]%string w0))
      = io w0 ++ map OpenAICall
                   (take (S k) (Upkeep.chunks maxBatchSize ["one"; "two"]%string)))).
Proof.
  assert (H1 : EMBEDDING_PROVIDER EOpenAIDown = ProviderOpenAI) by reflexivity.
  assert (H2 : generateEmbeddings EOpenAIDown ["one"; "two"]%string w0
    = (Throw EmbeddingFailed,
       snd (generateEmbeddings EOpenAIDown ["one"; "two"]%string w0)))
    by (vm_compute; reflexivity).
  split; [exact H1|]. split; [exact H2|].
  exact (AgentMore.openai_batches_abort EOpenAIDown _ _ _ _ H1 H2).
Defined.

Lemma local_model_calls_witness :
  EMBEDDING_PROVIDER E = ProviderLocal /\
  generateEmbeddings E ["one"; "two"; "three"]%string w0
  = (Ok [mkEmbeddingResult [3%float] 1; mkEmbeddingResult [3%float] 1;
         mkEmbeddingResult [5%float] 1],
     snd (generateEmbeddings E ["one"; "two"; "three"]%string w0)) /\
  io (snd (generateEmbeddings E ["one"; "two"; "three"]%string w0))
  = io w0 ++ (if embeddingInitialized w0 then [] else [ModelLoad])
      ++ map ModelCall ["one"; "two"; "three"]%string.
Proof.
  assert (H1 : EMBEDDING_PROVIDER E = ProviderLocal) by reflexivity.
  assert (H2 : generateEmbeddings E ["one"; "two"; "three"]%string w0
    = (Ok [mkEmbeddingResult [3%float] 1; mkEmbeddingResult [3%float] 1;
           mkEmbeddingResult [5%float] 1],
       snd (generateEmbeddings E ["one"; "two"; "three"]%string w0)))
    by (vm_compute; reflexivity).
  split; [exact H1|]. split; [exact H2|].
  destruct (AgentMore.local_model_calls E _ _ _ _ H1 H2) as (Hio & _).
  exact Hio.
Defined.

Lemma indexWebsite_rows_witness :
  indexWebsite E 10 A (budget 1 10) w0 = Some (Ok ([1; 2], 2), wIndexed) /\
  exists run pages,
    crawlWebsite (Rag.http E) (Rag.hostname E) 10 (crawler w0) A (budget 1 10)
      = Some run /\
    outcome run = Ok pages /\
    crawler wIndexed = engine run /\
    pages <> [] /\
    2 = Z.of_nat (length pages) /\
    length [1; 2] = length pages /\
    forall j page, pages !! j = Some page ->
      exists i row,
        [1; 2] !! j = Some i /\
        documents (tables wIndexed) !! i = Some row /\
        id row = i /\
        source row = Some (url page) /\
        Database.content row = Firecrawl.title page +:+ blankLine +:+ Firecrawl.content page.
Proof.
  assert (H1 : indexWebsite E 10 A (budget 1 10) w0 = Some (Ok ([1; 2], 2), wIndexed))
    by (vm_compute; reflexivity).
  split; [exact H1|].
  exact (AgentMore.indexWebsite_rows E 10 A (budget 1 10) w0 [1; 2] 2 wIndexed H1).
Defined.

Lemma indexWebsite_blank_page_witness :
  EMBEDDING_PROVIDER EBlank = ProviderLocal /\
  crawlWebsite (Rag.http EBlank) (Rag.hostname EBlank) 10 (crawler w0) blank
    Firecrawl.noOptions = Some runBlank /\
  exists e w',
    indexWebsite EBlank 10 blank Firecrawl.noOptions w0 = Some (Throw e, w') /\
    tables w' = tables w0.
Proof.
  assert (H1 : EMBEDDING_PROVIDER EBlank = ProviderLocal) by reflexivity.
  assert (H2 : crawlWebsite (Rag.http EBlank) (Rag.hostname EBlank) 10 (crawler w0)
                 blank Firecrawl.noOptions = Some runBlank)
    by (vm_compute; reflexivity).
  assert (H3 : pageBlank ∈ [pageBlank]) by (apply list_elem_of_singleton; reflexivity).
  split; [exact H1|]. split; [exact H2|].
  exact (AgentMore.indexWebsite_blank_page EBlank 10 blank Firecrawl.noOptions w0
           runBlank [pageBlank] pageBlank H1 H2 eq_refl H3 eq_refl eq_refl).
Defined.

End MoreRuns.
